(** * agenda-bdx: image enrichment pipeline (scripts/enrich-images.mjs)

    A shallow embedding of the candidate-selection pipeline of the
    enrichment script, in its two successive generations
    ([Gen1]: lines 1-559, [Gen2]: lines 560-1272 of the source file), and
    of the pieces around it: the text normalizer, the query builder, the
    selection policy, the concurrency limiter and the cache merge.

    Conventions of the embedding.
    - JavaScript strings are [string]s holding the UTF-8 bytes of the
      text.  The two engine built-ins whose result depends on the
      Unicode tables ([toLowerCase], and [normalize("NFD")] followed by
      the removal of [\p{Diacritic}]) are the methods of the class
      [UnicodeOps]; the rest of the normalizer is written out.  White
      space ([trim], [\s]) is the white space of ECMAScript: the ASCII
      one and the code points U+00A0, U+1680, U+2000 to U+200A, U+2028,
      U+2029, U+202F, U+205F, U+3000 and U+FEFF.
    - Values of unstable shape (the upstream image field) are [JVal]s.
      Fields whose shape the code takes for granted are typed, [None]
      standing for an absent or [null] field.
    - JavaScript numbers are integers ([Z]).
    - Network access is an oracle ([World]); every request is appended to
      a call log, and a request either returns or throws.
    - The store read from assets/event-images.json is a plain object of
      entries: a finite map of its own properties, plus what a key that
      is not an own property reads through the prototype.
    - A task of [main] runs in two halves, before its first [await] and
      after its last; the limiter lets the halves of different tasks
      interleave when its bound is 2 or more. *)

From Stdlib Require Import ZArith Ascii String List Bool Lia Permutation.
From stdpp Require Import gmap strings list fin_maps.

Set Warnings "-register-all,-clear-no-such-hyp".

Local Open Scope string_scope.
Local Open Scope Z_scope.

(* ===================================================================== *)
(** ** JavaScript values *)
(* ===================================================================== *)

Inductive JVal : Type :=
| JUndefined
| JNull
| JBool (b : bool)
| JNum (n : Z)
| JStr (s : string)
| JArr (items : list JVal)
| JObj (fields : list (string * JVal)).

(** [Boolean(v)] *)
Definition truthy (v : JVal) : bool :=
  match v with
  | JUndefined | JNull => false
  | JBool b => b
  | JNum n => negb (n =? 0)
  | JStr s => negb (String.eqb s "")
  | JArr _ | JObj _ => true
  end.

(** [a || b] *)
Definition jor (a b : JVal) : JVal := if truthy a then a else b.

Fixpoint assoc (k : string) (fields : list (string * JVal)) : JVal :=
  match fields with
  | [] => JUndefined
  | (k', v) :: rest => if String.eqb k k' then v else assoc k rest
  end.

(** [v?.k] for a named property [k] (here only [url] and [href]). *)
Definition getProp (k : string) (v : JVal) : JVal :=
  match v with
  | JObj fields => assoc k fields
  | _ => JUndefined
  end.

(** [v?.[0]] on an array *)
Definition firstItem (v : JVal) : JVal :=
  match v with
  | JArr (x :: _) => x
  | _ => JUndefined
  end.

(** Typed string fields: [s || ""], [a || b], truthiness. *)
Definition strOr (a : option string) (b : string) : string :=
  match a with
  | Some s => if String.eqb s "" then b else s
  | None => b
  end.

Definition nonEmpty (s : string) : bool := negb (String.eqb s "").

(** Typed numeric fields: [n || 0] and [n || null]. *)
Definition numOr0 (n : option Z) : Z :=
  match n with Some z => z | None => 0 end.

Definition numOrNull (n : option Z) : option Z :=
  match n with
  | Some z => if z =? 0 then None else Some z
  | None => None
  end.

(* ===================================================================== *)
(** ** Strings *)
(* ===================================================================== *)

Definition code (c : ascii) : nat := nat_of_ascii c.

Definition isWs (c : ascii) : bool :=
  let n := code c in
  ((9 <=? n) && (n <=? 13))%nat || (n =? 32)%nat.

(** the class [[a-z0-9]] *)
Definition isAlnum (c : ascii) : bool :=
  let n := code c in
  ((97 <=? n) && (n <=? 122))%nat || ((48 <=? n) && (n <=? 57))%nat.

Fixpoint dropWs (l : list ascii) : list ascii :=
  match l with
  | [] => []
  | c :: r => if isWs c then dropWs r else l
  end.

(** What [trim] does on a text that holds ASCII only. *)
Definition trimChars (l : list ascii) : list ascii :=
  rev (dropWs (rev (dropWs l))).

(** The white space beyond ASCII, by the bytes of its encoding: U+00A0
    is C2 A0; U+1680 is E1 9A 80; U+2000 to U+200A, U+2028, U+2029 and
    U+202F are E2 80 followed by 80 to 8A, A8, A9 and AF; U+205F is
    E2 81 9F; U+3000 is E3 80 80; U+FEFF is EF BB BF. *)
Definition ws2 (a b : ascii) : bool :=
  ((code a =? 194) && (code b =? 160))%nat.

Definition ws3 (a b c : ascii) : bool :=
  let x := code a in
  let y := code b in
  let z := code c in
  (((x =? 225) && (y =? 154) && (z =? 128))
   || ((x =? 226) && (y =? 128)
       && (((128 <=? z) && (z <=? 138)) || (z =? 168) || (z =? 169)
           || (z =? 175)))
   || ((x =? 226) && (y =? 129) && (z =? 159))
   || ((x =? 227) && (y =? 128) && (z =? 128))
   || ((x =? 239) && (y =? 187) && (z =? 191)))%nat.

(** Drop the white space at the front; [w2] and [w3] recognise the
    characters of two and three bytes, read in the direction of the
    list. *)
Fixpoint dropSpace (w2 : ascii -> ascii -> bool)
    (w3 : ascii -> ascii -> ascii -> bool) (l : list ascii) : list ascii :=
  match l with
  | [] => []
  | a :: r =>
      if isWs a then dropSpace w2 w3 r
      else
        match r with
        | b :: r2 =>
            if w2 a b then dropSpace w2 w3 r2
            else
              match r2 with
              | c :: r3 => if w3 a b c then dropSpace w2 w3 r3 else l
              | [] => l
              end
        | [] => l
        end
  end.

Definition trimStart (l : list ascii) : list ascii := dropSpace ws2 ws3 l.

(** At the end the bytes of a character come in reverse. *)
Definition trimEnd (l : list ascii) : list ascii :=
  rev (dropSpace (fun a b => ws2 b a) (fun a b c => ws3 c b a) (rev l)).

Definition trimBytes (l : list ascii) : list ascii := trimEnd (trimStart l).

(** [s.trim()] *)
Definition trim (s : string) : string :=
  string_of_list_ascii (trimBytes (list_ascii_of_string s)).

(** [.replace(/\s+/g, " ")] on any text: a run of white space, of
    whatever bytes, gives one space. *)
Fixpoint collapseSpace (pending : bool) (l : list ascii) : list ascii :=
  let gap r := if pending then collapseSpace true r
               else " "%char :: collapseSpace true r in
  match l with
  | [] => []
  | a :: r =>
      if isWs a then gap r
      else
        match r with
        | b :: r2 =>
            if ws2 a b then gap r2
            else
              match r2 with
              | c :: r3 =>
                  if ws3 a b c then gap r3 else a :: collapseSpace false r
              | [] => a :: collapseSpace false r
              end
        | [] => a :: collapseSpace false r
        end
  end.

(** [.replace(/[^a-z0-9]+/g, " ")]: [pending] tells that the run of
    excluded characters being read has already produced its space. *)
Fixpoint squashNonAlnum (pending : bool) (l : list ascii) : list ascii :=
  match l with
  | [] => []
  | c :: r =>
      if isAlnum c then c :: squashNonAlnum false r
      else if pending then squashNonAlnum true r
      else " "%char :: squashNonAlnum true r
  end.

(** What [.replace(/\s+/g, " ")] does on a text that holds ASCII only. *)
Fixpoint squashSpaces (pending : bool) (l : list ascii) : list ascii :=
  match l with
  | [] => []
  | c :: r =>
      if isWs c then
        if pending then squashSpaces true r
        else " "%char :: squashSpaces true r
      else c :: squashSpaces false r
  end.

(** [.split(" ")]: [cur] is the piece being read, reversed. *)
Fixpoint splitSpace (cur : list ascii) (l : list ascii) : list string :=
  match l with
  | [] => [string_of_list_ascii (rev cur)]
  | c :: r =>
      if Ascii.eqb c " "%char
      then string_of_list_ascii (rev cur) :: splitSpace [] r
      else splitSpace (c :: cur) r
  end.

Definition split (s : string) : list string :=
  splitSpace [] (list_ascii_of_string s).

(** [parts.filter(Boolean).join(sep)] on strings *)
Definition joinNonEmpty (sep : string) (parts : list string) : string :=
  String.concat sep (List.filter nonEmpty parts).

(** [hay.includes(needle)] *)
Fixpoint includes (needle hay : string) : bool :=
  String.prefix needle hay ||
  match hay with
  | EmptyString => false
  | String _ rest => includes needle rest
  end.

(** [stripHtml]: [.replace(/<[^>]*>/g, " ")], then whitespace runs to one
    space, then trim.  A ["<"] opens a match only when a [">"] follows
    somewhere. *)
Definition isGt (c : ascii) : bool := Ascii.eqb c ">"%char.

Fixpoint stripTags (inTag : bool) (l : list ascii) : list ascii :=
  match l with
  | [] => []
  | c :: r =>
      if inTag then
        if isGt c then " "%char :: stripTags false r else stripTags true r
      else if Ascii.eqb c "<"%char && existsb isGt r then stripTags true r
      else c :: stripTags false r
  end.

Definition stripHtml (s : string) : string :=
  string_of_list_ascii
    (trimBytes (collapseSpace false (stripTags false (list_ascii_of_string s)))).

(* ===================================================================== *)
(** ** Text normalizer *)
(* ===================================================================== *)

(** The engine's Unicode-dependent string built-ins. *)
Class UnicodeOps : Type := {
  toLowerCase : string -> string;
  (** [.normalize("NFD").replace(/\p{Diacritic}/gu, "")] *)
  stripDiacritics : string -> string
}.

(** What the built-ins do on ASCII text: the only cased ASCII characters
    are the letters, ASCII is fixed by NFD, and the ASCII characters with
    the Diacritic property are the circumflex (94) and the grave accent
    (96). *)
Definition asciiLower (c : ascii) : ascii :=
  let n := code c in
  if ((65 <=? n) && (n <=? 90))%nat then ascii_of_nat (n + 32) else c.

Definition asciiDiacritic (c : ascii) : bool :=
  let n := code c in (n =? 94)%nat || (n =? 96)%nat.

Definition asciiOps : UnicodeOps := {|
  toLowerCase s :=
    string_of_list_ascii (List.map asciiLower (list_ascii_of_string s));
  stripDiacritics s :=
    string_of_list_ascii
      (List.filter (fun c => negb (asciiDiacritic c)) (list_ascii_of_string s))
|}.

Section Normalizer.
Context {U : UnicodeOps}.

Definition normalizeText (s : string) : string :=
  string_of_list_ascii
    (trimBytes
       (collapseSpace false
          (squashNonAlnum false
             (list_ascii_of_string (stripDiacritics (toLowerCase s)))))).

Definition tokens (s : string) : list string :=
  let t := List.filter nonEmpty (split (normalizeText s)) in
  List.filter (fun x => (3 <=? String.length x)%nat) t.

(** The loop of [overlapScore]: [b] is the [Set] of the text's tokens. *)
Definition overlapScore (aTokens : list string) (bText : string) : Z :=
  let b : gset string := list_to_set (tokens bText) in
  fold_left (fun score t => if bool_decide (t ∈ b) then score + 1 else score)
            aTokens 0.

End Normalizer.

(* ===================================================================== *)
(** ** Data model *)
(* ===================================================================== *)

(** An event record of the met_agenda dataset (the fields the script
    reads).  Only [location_image] has an unstable shape. *)
Record Row : Type := {
  row_uid : option string;
  row_slug : option string;
  row_originagenda_uid : option string;
  row_title_fr : option string;
  row_title : option string;
  row_title_en : option string;
  row_location_name : option string;
  row_location : option string;
  row_location_title : option string;
  row_location_address : option string;
  row_location_district : option string;
  row_location_city : option string;
  row_city : option string;
  row_location_image : JVal
}.

(** The object returned by [pickBestImageForEvent] and by the mapping
    functions.  [url] is a [JVal] because the upstream adapter copies
    whatever [bestImageUrlFromRow] extracted. *)
Record Candidate : Type := {
  url : JVal;
  provider : string;
  page_url : string;
  author : string;
  license : string;
  credit : string;
  source_url : string;
  width : option Z;
  height : option Z
}.

(** An entry of assets/event-images.json: [{...picked, q, updated_at}] *)
Record Entry : Type := {
  picked : Candidate;
  entry_q : string;
  updated_at : string
}.

(** One result of the Openverse image search. *)
Record OVTag : Type := { tag_name : option string }.

Record OVResult : Type := {
  ov_title : option string;
  ov_creator : option string;
  ov_creator_name : option string;
  ov_tags : option (list OVTag);
  ov_provider : option string;
  ov_source : option string;
  ov_width : option Z;
  ov_height : option Z;
  ov_license : option string;
  ov_foreign_landing_url : option string;
  ov_url : option string;
  ov_thumbnail : option string
}.

(** An OpenAgenda event, and the response body it comes in
    ([data.event || data]). *)
Record OAEvent : Type := {
  oa_image : option string;
  oa_thumbnail : option string;
  oa_originalImage : option string;
  oa_location_image : option string;
  oa_imageCredits : option string;
  oa_location_imageCredits : option string;
  oa_canonicalUrl : option string;
  oa_url : option string
}.

Record OAData : Type := {
  data_event : option OAEvent;
  data_self : OAEvent
}.

(** Wikimedia Commons: a search hit and a page with its first
    [imageinfo] item. *)
Record CommonsHit : Type := { hit_title : option string }.

Record ImageInfo : Type := {
  ii_thumburl : option string;
  ii_url : option string;
  ii_width : option Z;
  ii_height : option Z;
  ii_Artist : option string;
  ii_LicenseShortName : option string;
  ii_License : option string
}.

Record CommonsPage : Type := {
  page_title : option string;
  page_imageinfo : option ImageInfo
}.

(** Environment variables, after parsing. *)
Record Config : Type := {
  OFFICIAL_IMAGES : bool;
  OPENAGENDA_KEY : string;
  MIN_WIDTH : Z;
  CONCURRENCY : Z
}.

(* ===================================================================== *)
(** ** Effects: network oracle, call log, exceptions *)
(* ===================================================================== *)

(** What awaiting a request gives: a value, or a rejection (a network
    failure, an abort, a body that does not parse). *)
Inductive Reply (A : Type) : Type :=
| Returns (a : A)
| Rejects.
Arguments Returns {A} a.
Arguments Rejects {A}.

(** A [fetch] response: [res.ok] and [await res.json()]. *)
Record Response (A : Type) : Type := {
  res_ok : bool;
  res_json : Reply A
}.
Arguments res_ok {A} _.
Arguments res_json {A} _.

(** The requests the selection policy can issue. *)
Inductive Call : Type :=
| ReqOpenAgenda (agendaUID eventUID apiKey : string)
| ReqLibrary (row : Row)
| ReqOpenverse (q : string)
| ReqCommonsSearch (q : string)
| ReqCommonsInfo (titles : list string).

Record World : Type := {
  (** the body of the OpenAgenda response: an object, or [None] when it
      parses to [null] *)
  http_openagenda :
    string -> string -> string -> Reply (Response (option OAData));
  (** the venue-directory adapter [pickBordeauxLibraryImage], as a whole *)
  scrape_library : Row -> Reply (option Candidate);
  http_openverse : string -> Reply (Response (option (list OVResult)));
  http_commons_search : string -> Reply (Response (option (list CommonsHit)));
  http_commons_info : list string -> Reply (Response (list CommonsPage));
  (** [new Date().toISOString()] *)
  clock : string
}.

(** The outcome of an async function: it returns, or it throws. *)
Inductive result (A : Type) : Type :=
| Ok (a : A)
| Thrown.
Arguments Ok {A} a.
Arguments Thrown {A}.

(** Computations that append to the call log and may throw. *)
Definition M (A : Type) : Type := list Call -> list Call * result A.

Definition ret {A} (a : A) : M A := fun log => (log, Ok a).

Definition throw {A} : M A := fun log => (log, Thrown).

Definition bind {A B} (m : M A) (k : A -> M B) : M B :=
  fun log =>
    match m log with
    | (log', Ok a) => k a log'
    | (log', Thrown) => (log', Thrown)
    end.

(** [try { m } catch (e) { h }] *)
Definition tryCatch {A} (m : M A) (h : M A) : M A :=
  fun log =>
    match m log with
    | (log', Ok a) => (log', Ok a)
    | (log', Thrown) => h log'
    end.

(** Issue a request and await it. *)
Definition await {A} (c : Call) (r : Reply A) : M A :=
  fun log =>
    match r with
    | Returns a => ((log ++ [c])%list, Ok a)
    | Rejects => ((log ++ [c])%list, Thrown)
    end.

(** [const x = await m; k] *)
Notation "'let!' x ':=' m 'in' k" := (bind m (fun x => k))
  (at level 10, x name, m at level 100, k at level 200).

(** Run from an empty log. *)
Definition run {A} (m : M A) : list Call * result A := m [].

(* ===================================================================== *)
(** ** Image field of a row *)
(* ===================================================================== *)

(** [typeof v === "string"], [Array.isArray(v)], [typeof v === "object"]
    are the constructors of [JVal]. *)
Definition isMissingImage (row : Row) : bool :=
  match row_location_image row with
  | JUndefined | JNull => true
  | JArr items => (Z.of_nat (List.length items) =? 0)
  | JStr s => String.eqb (trim s) ""
  | JObj _ as v => negb (truthy (jor (getProp "url" v) (getProp "href" v)))
  | JBool _ | JNum _ => false
  end.

Definition bestImageUrlFromRow (row : Row) : JVal :=
  let v := row_location_image row in
  if negb (truthy v) then JStr ""
  else match v with
       | JStr _ => v
       | JArr _ =>
           jor (getProp "url" (firstItem v)) (jor (firstItem v) (JStr ""))
       | JObj _ => jor (getProp "url" v) (jor (getProp "href" v) (JStr ""))
       | _ => JStr ""
       end.

(* ===================================================================== *)
(** ** Ranking: [.map(x => ({x, s})).sort((a, b) => b.s - a.s)[0]] *)
(* ===================================================================== *)

(** [Array.prototype.sort] is stable: among equal scores the earlier
    element stays first. *)
Fixpoint insertDesc {A} (x : A * Z) (l : list (A * Z)) : list (A * Z) :=
  match l with
  | [] => [x]
  | y :: r => if snd y <=? snd x then x :: l else y :: insertDesc x r
  end.

Definition sortDesc {A} (l : list (A * Z)) : list (A * Z) :=
  fold_right insertDesc [] l.

Definition bestBy {A} (score : A -> Z) (l : list A) : option A :=
  match sortDesc (List.map (fun x => (x, score x)) l) with
  | [] => None
  | (x, _) :: _ => Some x
  end.

(* ===================================================================== *)
(** ** Source adapters shared by the two generations *)
(* ===================================================================== *)

(** [fetchOpenAgendaEvent]: [fetch] may reject, a response that is not
    [ok] gives [null], [res.json()] may reject, and [data.event] throws a
    TypeError on a body that parsed to [null]. *)
Definition fetchOpenAgendaEvent (w : World) (agendaUID eventUID apiKey : string)
  : M (option OAEvent) :=
  let! res := await (ReqOpenAgenda agendaUID eventUID apiKey)
                    (http_openagenda w agendaUID eventUID apiKey) in
  if negb (res_ok res) then ret None
  else
    fun log =>
      match res_json res with
      | Returns (Some data) =>
          (log, Ok (Some (match data_event data with
                          | Some e => e
                          | None => data_self data
                          end)))
      | Returns None => (log, Thrown)
      | Rejects => (log, Thrown)
      end.

(** [pickOAImage]: the url and the credit, or [null]. *)
Definition pickOAImage (evt : OAEvent) : option (string * string) :=
  let u :=
    strOr (oa_image evt)
      (strOr (oa_thumbnail evt)
         (strOr (oa_originalImage evt) (strOr (oa_location_image evt) ""))) in
  let credit :=
    strOr (oa_imageCredits evt) (strOr (oa_location_imageCredits evt) "") in
  if nonEmpty u then Some (u, credit) else None.

(** [openverseSearch]: throws on a response that is not [ok]. *)
Definition openverseSearch (w : World) (query : string) : M (list OVResult) :=
  let! res := await (ReqOpenverse query) (http_openverse w query) in
  if negb (res_ok res) then throw
  else
    fun log =>
      match res_json res with
      | Returns (Some results) => (log, Ok results)
      | Returns None => (log, Ok [])
      | Rejects => (log, Thrown)
      end.

(** [toMappingFromOpenverse] *)
Definition toMappingFromOpenverse (r : OVResult) : Candidate := {|
  url := JStr (strOr (ov_url r) (strOr (ov_thumbnail r) ""));
  provider := strOr (ov_provider r) "Openverse";
  page_url := strOr (ov_foreign_landing_url r) "";
  author := strOr (ov_creator r) (strOr (ov_creator_name r) "");
  license := strOr (ov_license r) "";
  source_url := strOr (ov_source r) "";
  credit :=
    joinNonEmpty " · "
      [strOr (ov_creator r) (strOr (ov_creator_name r) "");
       strOr (ov_license r) ""];
  width := numOrNull (ov_width r);
  height := numOrNull (ov_height r)
|}.

(** [t?.name || t], then [String(...)] as [join] does it *)
Definition tagText (t : OVTag) : string :=
  strOr (tag_name t) "[object Object]".

Section Scoring.
Context {U : UnicodeOps}.

Definition isBibliotheque (row : Row) : bool :=
  let n := normalizeText (strOr (row_location_name row) "") in
  includes "bibliotheque" n.

(** [scoreOpenverseResult]; [preferred] is the generation's
    [PREFERRED_OPENVERSE_PROVIDERS]. *)
Definition scoreOpenverseResult (preferred : list string) (minWidth : Z)
    (evTokens : list string) (r : OVResult) : Z :=
  let title := strOr (ov_title r) "" in
  let creator := strOr (ov_creator r) (strOr (ov_creator_name r) "") in
  let tags :=
    match ov_tags r with
    | Some ts => String.concat " " (List.map tagText ts)
    | None => ""
    end in
  let prov := toLowerCase (strOr (ov_provider r) (strOr (ov_source r) "")) in
  let w := numOr0 (ov_width r) in
  let h := numOr0 (ov_height r) in
  let score := 0 in
  let score := score + overlapScore evTokens title * 3 in
  let score := score + overlapScore evTokens creator * 1 in
  let score := score + overlapScore evTokens tags * 1 in
  let score :=
    if (2000 <=? w) || (2000 <=? h) then score + 4
    else if minWidth <=? w then score + 2 else score in
  let score :=
    if existsb (String.eqb prov) preferred then score + 4 else score in
  let score := if nonEmpty creator then score + 1 else score in
  let score := if nonEmpty (strOr (ov_license r) "") then score + 1 else score in
  let score :=
    if nonEmpty (strOr (ov_foreign_landing_url r) "") then score + 1
    else score in
  score.

(** What follows [await openverseSearch(q)] inside the [try]: the best
    result, mapped, when it passes the url and width test. *)
Definition selectOpenverse (preferred : list string) (cfg : Config)
    (evTokens : list string) (results : list OVResult) : option Candidate :=
  match bestBy (scoreOpenverseResult preferred (MIN_WIDTH cfg) evTokens)
               results with
  | Some r =>
      let mapped := toMappingFromOpenverse r in
      let wd := numOr0 (ov_width r) in
      if truthy (url mapped) && ((MIN_WIDTH cfg <=? wd) || (wd =? 0))
      then Some mapped
      else None
  | None => None
  end.

(** The body of the [try] around the Openverse search. *)
Definition openverseStep (preferred : list string) (cfg : Config) (w : World)
    (q : string) (evTokens : list string) : M (option Candidate) :=
  let! results := openverseSearch w q in
  ret (selectOpenverse preferred cfg evTokens results).

(** The OpenAgenda block, entered when the three guards hold. *)
Definition openAgendaStep (cfg : Config) (w : World) (row : Row)
    (agendaUID : string) : M (option Candidate) :=
  let! oa := fetchOpenAgendaEvent w agendaUID
               (trim (strOr (row_uid row) "")) (OPENAGENDA_KEY cfg) in
  match oa with
  | Some evt =>
      match pickOAImage evt with
      | Some (u, cr) =>
          let page := strOr (oa_canonicalUrl evt) (strOr (oa_url evt) "") in
          ret (Some {| url := JStr u;
                       provider := "OpenAgenda";
                       page_url := page;
                       author := "";
                       license := "";
                       credit := cr;
                       source_url := page;
                       width := None;
                       height := None |})
      | None => ret None
      end
  | None => ret None
  end.

Definition openAgendaEnabled (cfg : Config) (agendaUID : string) : bool :=
  OFFICIAL_IMAGES cfg && nonEmpty (OPENAGENDA_KEY cfg) && nonEmpty agendaUID.

End Scoring.

(* ===================================================================== *)
(** ** First generation (lines 1-559) *)
(* ===================================================================== *)

Module Gen1.
Section Gen1.
Context {U : UnicodeOps}.

Definition PREFERRED_OPENVERSE_PROVIDERS : list string :=
  ["wikimedia"; "commons.wikimedia.org"; "unsplash"; "pexels"].

Definition buildSearchQuery (row : Row) : string :=
  let title :=
    strOr (row_title_fr row) (strOr (row_title row)
                                    (strOr (row_title_en row) "")) in
  let place :=
    strOr (row_location_name row)
          (strOr (row_location row) (strOr (row_location_title row) "")) in
  let city := strOr (row_location_city row) (strOr (row_city row) "Bordeaux") in
  joinNonEmpty " " [title; place; city].

Definition commonsSearchFiles (w : World) (query : string)
  : M (list CommonsHit) :=
  let! res := await (ReqCommonsSearch query) (http_commons_search w query) in
  if negb (res_ok res) then throw
  else
    fun log =>
      match res_json res with
      | Returns (Some hits) => (log, Ok hits)
      | Returns None => (log, Ok [])
      | Rejects => (log, Thrown)
      end.

Definition commonsFetchImageInfo (w : World) (titles : list string)
  : M (list CommonsPage) :=
  let! res := await (ReqCommonsInfo titles) (http_commons_info w titles) in
  if negb (res_ok res) then throw
  else
    fun log =>
      match res_json res with
      | Returns pages => (log, Ok pages)
      | Rejects => (log, Thrown)
      end.

(** [page?.imageinfo?.[0] || {}] *)
Definition noInfo : ImageInfo := {|
  ii_thumburl := None; ii_url := None; ii_width := None; ii_height := None;
  ii_Artist := None; ii_LicenseShortName := None; ii_License := None
|}.

Definition infoOf (page : CommonsPage) : ImageInfo :=
  match page_imageinfo page with Some i => i | None => noInfo end.

Definition scoreCommonsPage (minWidth : Z) (evTokens : list string)
    (page : CommonsPage) : Z :=
  let title := strOr (page_title page) "" in
  let info := infoOf page in
  let artist := stripHtml (strOr (ii_Artist info) "") in
  let lic := stripHtml (strOr (ii_LicenseShortName info) "") in
  let score := 0 in
  let score := score + overlapScore evTokens title * 3 in
  let score := score + overlapScore evTokens artist * 1 in
  let score := if nonEmpty lic then score + 2 else score in
  let w := numOr0 (ii_width info) in
  let h := numOr0 (ii_height info) in
  let score :=
    if (2000 <=? w) || (2000 <=? h) then score + 3
    else if minWidth <=? w then score + 2 else score in
  score.

(** [encodeURIComponent(pageTitle).replace(/%3A/g, ":")] is left to the
    engine: [encodeTitle]. *)
Definition toMappingFromCommons (encodeTitle : string -> string)
    (page : CommonsPage) : Candidate :=
  let info := infoOf page in
  let auth := stripHtml (strOr (ii_Artist info) "") in
  let lic :=
    stripHtml (strOr (ii_LicenseShortName info) (strOr (ii_License info) "")) in
  let pageTitle := strOr (page_title page) "" in
  {| url := JStr (strOr (ii_thumburl info) (strOr (ii_url info) ""));
     provider := "Wikimedia Commons";
     page_url :=
       if nonEmpty pageTitle
       then "https://commons.wikimedia.org/wiki/" ++ encodeTitle pageTitle
       else "";
     author := auth;
     license := lic;
     credit := joinNonEmpty " · " [auth; lic];
     source_url := "";
     width := numOrNull (ii_width info);
     height := numOrNull (ii_height info) |}.

(** What follows [await commonsFetchImageInfo(titles)] inside the [try]:
    the best page, mapped, when it has a url. *)
Definition selectCommons (encodeTitle : string -> string) (cfg : Config)
    (evTokens : list string) (pages : list CommonsPage) : option Candidate :=
  match bestBy (scoreCommonsPage (MIN_WIDTH cfg) evTokens) pages with
  | Some bestPage =>
      let mapped := toMappingFromCommons encodeTitle bestPage in
      if truthy (url mapped) then Some mapped else None
  | None => None
  end.

(** The body of the [try] around the Commons fallback. *)
Definition commonsStep (encodeTitle : string -> string) (cfg : Config)
    (w : World) (q : string) (evTokens : list string) : M (option Candidate) :=
  let! files := commonsSearchFiles w q in
  let titles :=
    firstn 6 (List.filter nonEmpty
                (List.map (fun x => strOr (hit_title x) "") files)) in
  match titles with
  | [] => ret None
  | _ =>
      let! pages := commonsFetchImageInfo w titles in
      ret (selectCommons encodeTitle cfg evTokens pages)
  end.

Definition pickBestImageForEvent (encodeTitle : string -> string)
    (cfg : Config) (w : World) (row : Row) : M (option Candidate) :=
  let q := buildSearchQuery row in
  let evTokens := tokens q in
  let agendaUID := trim (strOr (row_originagenda_uid row) "") in
  let! official :=
    (if openAgendaEnabled cfg agendaUID
     then openAgendaStep cfg w row agendaUID
     else ret None) in
  match official with
  | Some c => ret (Some c)
  | None =>
      let! ov := tryCatch (openverseStep PREFERRED_OPENVERSE_PROVIDERS
                             cfg w q evTokens) (ret None) in
      match ov with
      | Some c => ret (Some c)
      | None => tryCatch (commonsStep encodeTitle cfg w q evTokens) (ret None)
      end
  end.

End Gen1.
End Gen1.

(* ===================================================================== *)
(** ** Second generation (lines 560-1272) *)
(* ===================================================================== *)

Module Gen2.
Section Gen2.
Context {U : UnicodeOps}.

Definition PREFERRED_OPENVERSE_PROVIDERS : list string :=
  ["stocksnap"; "unsplash"; "pexels"].

Definition buildSearchQuery (row : Row) : string :=
  let place :=
    strOr (row_location_name row)
          (strOr (row_location row) (strOr (row_location_title row) "")) in
  let address := strOr (row_location_address row) "" in
  let district := strOr (row_location_district row) "" in
  let city := strOr (row_location_city row) (strOr (row_city row) "Bordeaux") in
  if nonEmpty place
  then joinNonEmpty " " [place; address; district; city; "France"]
  else
    let title :=
      strOr (row_title_fr row) (strOr (row_title row)
                                      (strOr (row_title_en row) "")) in
    joinNonEmpty " " [title; city; "France"].

Definition upstreamCandidate (upstream : JVal) : Candidate := {|
  url := upstream;
  provider := "Bordeaux Metropole (met_agenda)";
  page_url := "";
  author := "";
  license := "";
  credit := "";
  source_url := "";
  width := None;
  height := None
|}.

(** The body of the [try] around the venue-directory adapter. *)
Definition libraryStep (w : World) (row : Row) : M (option Candidate) :=
  let! libImg := await (ReqLibrary row) (scrape_library w row) in
  match libImg with
  | Some c => if truthy (url c) then ret (Some c) else ret None
  | None => ret None
  end.

Definition pickBestImageForEvent (cfg : Config) (w : World) (row : Row)
  : M (option Candidate) :=
  let q := buildSearchQuery row in
  let evTokens := tokens q in
  let agendaUID := trim (strOr (row_originagenda_uid row) "") in
  let upstream := bestImageUrlFromRow row in
  if truthy upstream then ret (Some (upstreamCandidate upstream))
  else
    let! official :=
      (if openAgendaEnabled cfg agendaUID
       then openAgendaStep cfg w row agendaUID
       else ret None) in
    match official with
    | Some c => ret (Some c)
    | None =>
        let! lib :=
          (if isBibliotheque row
           then tryCatch (libraryStep w row) (ret None)
           else ret None) in
        match lib with
        | Some c => ret (Some c)
        | None =>
            tryCatch (openverseStep PREFERRED_OPENVERSE_PROVIDERS
                        cfg w q evTokens) (ret None)
        end
    end.

End Gen2.
End Gen2.

(* ===================================================================== *)
(** ** Cache merge: the per-event task of [main] *)
(* ===================================================================== *)

(** What the tasks of one run share: the object read from
    assets/event-images.json and the two counters.  [existing] holds the
    own properties of the object; [proto] is the entry that an assignment
    to the key ["__proto__"] installed as its prototype, if any (the
    prototype is [Object.prototype] otherwise). *)
Record RunState : Type := {
  existing : gmap string Entry;
  proto : option Entry;
  done : Z;
  added : Z
}.

(** The names every object inherits from [Object.prototype]. *)
Definition objectPrototypeNames : list string :=
  ["constructor"; "toString"; "toLocaleString"; "valueOf";
   "hasOwnProperty"; "isPrototypeOf"; "propertyIsEnumerable";
   "__defineGetter__"; "__defineSetter__"; "__lookupGetter__";
   "__lookupSetter__"; "__proto__"].

Definition inheritedName (k : string) : bool :=
  existsb (String.eqb k) objectPrototypeNames.

(** The properties of an entry object. *)
Definition numOrNullVal (n : option Z) : JVal :=
  match n with Some z => JNum z | None => JNull end.

Definition entryProp (e : Entry) (k : string) : option JVal :=
  let c := picked e in
  if String.eqb k "url" then Some (url c)
  else if String.eqb k "provider" then Some (JStr (provider c))
  else if String.eqb k "page_url" then Some (JStr (page_url c))
  else if String.eqb k "author" then Some (JStr (author c))
  else if String.eqb k "license" then Some (JStr (license c))
  else if String.eqb k "credit" then Some (JStr (credit c))
  else if String.eqb k "source_url" then Some (JStr (source_url c))
  else if String.eqb k "width" then Some (numOrNullVal (width c))
  else if String.eqb k "height" then Some (numOrNullVal (height c))
  else if String.eqb k "q" then Some (JStr (entry_q e))
  else if String.eqb k "updated_at" then Some (JStr (updated_at e))
  else None.

(** What reading [existing[k]] gives: an entry, a property of the entry
    installed as prototype, something of [Object.prototype] (a function,
    or that object itself), or [undefined]. *)
Inductive Got : Type :=
| GotEntry (e : Entry)
| GotValue (v : JVal)
| GotBuiltin
| GotNothing.

Definition getKey (store : gmap string Entry) (pr : option Entry)
    (k : string) : Got :=
  match store !! k with
  | Some e => GotEntry e
  | None =>
      if String.eqb k "__proto__" then
        match pr with Some e => GotEntry e | None => GotBuiltin end
      else
        match match pr with Some e => entryProp e k | None => None end with
        | Some v => GotValue v
        | None => if inheritedName k then GotBuiltin else GotNothing
        end
  end.

(** [Boolean(existing[k])] and [existing[k]?.url] *)
Definition gotTruthy (g : Got) : bool :=
  match g with
  | GotEntry _ | GotBuiltin => true
  | GotValue v => truthy v
  | GotNothing => false
  end.

Definition gotUrl (g : Got) : JVal :=
  match g with
  | GotEntry e => url (picked e)
  | GotValue v => getProp "url" v
  | GotBuiltin | GotNothing => JUndefined
  end.

(** [existing[k] = entry]: an own property, except that the key
    ["__proto__"], when it is not an own property yet, goes through the
    setter of [Object.prototype] and replaces the prototype. *)
Definition setKey (store : gmap string Entry) (pr : option Entry)
    (k : string) (entry : Entry) : gmap string Entry * option Entry :=
  if String.eqb k "__proto__" && negb (bool_decide (is_Some (store !! k)))
  then (store, Some entry)
  else (<[k := entry]> store, pr).

(** [uid && existing[uid]?.url] *)
Definition alreadyCached (store : gmap string Entry) (pr : option Entry)
    (uid : string) : bool :=
  nonEmpty uid && truthy (gotUrl (getKey store pr uid)).

(** [if (uid) existing[uid] = entry;
     if (slug && !existing[slug]) existing[slug] = entry;] *)
Definition writeEntry (store : gmap string Entry) (pr : option Entry)
    (uid slug : string) (entry : Entry) : gmap string Entry * option Entry :=
  let after1 := if nonEmpty uid then setKey store pr uid entry
                else (store, pr) in
  if nonEmpty slug && negb (gotTruthy (getKey (fst after1) (snd after1) slug))
  then setKey (fst after1) (snd after1) slug entry
  else after1.

(** The cache merge of the specification: the test of the task and its
    write applied to one and the same store.  This is what a task does to
    the store when no other task writes between its test and its write
    (in [main] two [await]s separate them, and the write does not test
    again). *)
Definition mergeEntry (store : gmap string Entry) (pr : option Entry)
    (id slug : string) (entry : Entry) : gmap string Entry * option Entry :=
  if alreadyCached store pr id then (store, pr)
  else writeEntry store pr id slug entry.

Definition rowUid (row : Row) : string := trim (strOr (row_uid row) "").
Definition rowSlug (row : Row) : string := trim (strOr (row_slug row) "").

(** The task up to its first [await]: [Some st'] when it returns there. *)
Definition taskCheck (row : Row) (st : RunState) : option RunState :=
  let uid := rowUid row in
  let slug := rowSlug row in
  if negb (nonEmpty uid) && negb (nonEmpty slug) then Some st
  else if alreadyCached (existing st) (proto st) uid
       then Some {| existing := existing st;
                    proto := proto st;
                    done := done st + 1;
                    added := added st |}
       else None.

(** The task after the selection and the courtesy delay, on the state the
    run is in by then. *)
Definition taskCommit (buildSearchQuery : Row -> string) (w : World)
    (row : Row) (pickedOpt : option Candidate) (st : RunState) : RunState :=
  let uid := rowUid row in
  let slug := rowSlug row in
  match pickedOpt with
  | Some c =>
      if truthy (url c) then
        let entry := {| picked := c;
                        entry_q := buildSearchQuery row;
                        updated_at := clock w |} in
        let after := writeEntry (existing st) (proto st) uid slug entry in
        {| existing := fst after;
           proto := snd after;
           done := done st + 1;
           added := added st + 1 |}
      else {| existing := existing st; proto := proto st;
              done := done st + 1; added := added st |}
  | None => {| existing := existing st; proto := proto st;
               done := done st + 1; added := added st |}
  end.

(** One task run with no step of another task between its two halves (as
    with the default [CONCURRENCY] of 1, where the limiter starts a task
    only when the previous one has settled): the final state, the
    requests issued, and whether the task returned or threw.  With a
    higher bound the halves of several tasks interleave: see
    [runHalves]. *)
Definition eventTask (pick : Row -> M (option Candidate))
    (buildSearchQuery : Row -> string) (w : World) (row : Row)
    (st : RunState) : RunState * (list Call * result unit) :=
  match taskCheck row st with
  | Some st' => (st', ([], Ok tt))
  | None =>
      match run (pick row) with
      | (log, Ok pickedOpt) =>
          (taskCommit buildSearchQuery w row pickedOpt st, (log, Ok tt))
      | (log, Thrown) => (st, (log, Thrown))
      end
  end.

(* ===================================================================== *)
(** ** Concurrency limiter *)
(* ===================================================================== *)

Module Limiter.

(** The closure state of [createLimiter(max)] ([active], [queue]) and
    what an observer of the tasks sees.  A task is named by its rank of
    submission.  The submitted [fn] is an async function, as in [main]:
    calling it gives a promise, which settles later or never. *)
Record State : Type := {
  active : Z;
  queue : list nat;
  (** number of calls of the limiter so far *)
  submitted : nat;
  (** tasks whose [fn] has been invoked, in order of invocation *)
  started : list nat;
  (** started tasks whose promise is still pending *)
  running : list nat;
  (** settled tasks, in order, with [true] for fulfilled *)
  settled : list (nat * bool)
}.

Definition init : State := {|
  active := 0; queue := []; submitted := 0;
  started := []; running := []; settled := []
|}.

(** [next()]: the guard, then [active += 1; queue.shift(); fn()]. *)
Definition next (max : Z) (s : State) : State :=
  match queue s with
  | [] => s
  | t :: rest =>
      if max <=? active s then s
      else {| active := active s + 1;
              queue := rest;
              submitted := submitted s;
              started := (started s ++ [t])%list;
              running := (running s ++ [t])%list;
              settled := settled s |}
  end.

(** [limiter(fn)]: [queue.push({fn, resolve, reject}); next()]. *)
Definition submit (max : Z) (s : State) : State :=
  next max {| active := active s;
              queue := (queue s ++ [submitted s])%list;
              submitted := S (submitted s);
              started := started s;
              running := running s;
              settled := settled s |}.

Definition isRunning (t : nat) (s : State) : bool :=
  existsb (Nat.eqb t) (running s).

(** The promise of a running task settles: [.then(resolve, reject)]
    settles the promise handed to the submitter, and [.finally] runs
    [active -= 1; next()]. *)
Definition settle (max : Z) (t : nat) (ok : bool) (s : State) : State :=
  next max {| active := active s - 1;
              queue := queue s;
              submitted := submitted s;
              started := started s;
              running := List.filter (fun x => negb (Nat.eqb t x)) (running s);
              settled := (settled s ++ [(t, ok)])%list |}.

Inductive Event : Type :=
| Submit
| Settle (t : nat) (ok : bool).

(** Only a running task can settle. *)
Definition step (max : Z) (s : State) (e : Event) : option State :=
  match e with
  | Submit => Some (submit max s)
  | Settle t ok => if isRunning t s then Some (settle max t ok s) else None
  end.

Fixpoint exec (max : Z) (s : State) (es : list Event) : option State :=
  match es with
  | [] => Some s
  | e :: rest =>
      match step max s e with
      | Some s' => exec max s' rest
      | None => None
      end
  end.

(** States the limiter can be in. *)
Definition reachable (max : Z) (s : State) : Prop :=
  exists es, exec max init es = Some s.

Definition isSettle (e : Event) : bool :=
  match e with Settle _ _ => true | Submit => false end.

(** Tasks submitted and not settled yet. *)
Definition pending (s : State) : nat :=
  (List.length (queue s) + List.length (running s))%nat.

(** What holds of every state of a limiter whose bound is not negative:
    the counter counts the running tasks and stays within the bound;
    tasks start in the order of submission; a task waits only while the
    limiter is full; the started tasks are the settled and the running
    ones. *)
Record Inv (max : Z) (s : State) : Prop := {
  inv_active : active s = Z.of_nat (List.length (running s));
  inv_bound : active s <= max;
  inv_fifo : (started s ++ queue s)%list = seq 0 (submitted s);
  inv_full : queue s <> [] -> active s = max;
  inv_once : Permutation (List.map fst (settled s) ++ running s)%list
                         (started s)
}.

(** With a bound that admits nobody, nothing ever leaves the queue. *)
Record Stalled (s : State) : Prop := {
  stalled_active : active s = 0;
  stalled_started : started s = [];
  stalled_running : running s = [];
  stalled_settled : settled s = [];
  stalled_queue : queue s = seq 0 (submitted s)
}.

(** The test of the specification: five tasks submitted at once, each
    settling as soon as it can. *)
Definition fiveTasks : list Event :=
  [Submit; Submit; Submit; Submit; Submit;
   Settle 0 true; Settle 1 true; Settle 2 true; Settle 3 true; Settle 4 true].

End Limiter.

(* ===================================================================== *)
(** ** Fixtures *)
(* ===================================================================== *)

Definition blankRow : Row := {|
  row_uid := None; row_slug := None; row_originagenda_uid := None;
  row_title_fr := None; row_title := None; row_title_en := None;
  row_location_name := None; row_location := None;
  row_location_title := None; row_location_address := None;
  row_location_district := None; row_location_city := None;
  row_city := None; row_location_image := JUndefined
|}.

Definition withImage (v : JVal) : Row := {|
  row_uid := Some "E1"; row_slug := None; row_originagenda_uid := None;
  row_title_fr := None; row_title := Some "Concert"; row_title_en := None;
  row_location_name := None; row_location := None;
  row_location_title := None; row_location_address := None;
  row_location_district := None; row_location_city := None;
  row_city := None; row_location_image := v
|}.

(** The query tokens that belong to a token set, with repetitions. *)
Definition hits (b : gset string) (a : list string) : list string :=
  List.filter (fun t => bool_decide (t ∈ b)) a.


(** The parts of a row the query builder of the specification names:
    the venue, the city and the title. *)
Definition venueOf (row : Row) : string :=
  strOr (row_location_name row)
        (strOr (row_location row) (strOr (row_location_title row) "")).

Definition cityOf (row : Row) : string :=
  strOr (row_location_city row) (strOr (row_city row) "Bordeaux").

Definition titleOf (row : Row) : string :=
  strOr (row_title_fr row) (strOr (row_title row) (strOr (row_title_en row) "")).

Definition endsWith (suffix s : string) : Prop :=
  exists pre, s = pre ++ suffix.

Definition libraryRow : Row := {|
  row_uid := Some "E1"; row_slug := Some "atelier-lecture";
  row_originagenda_uid := Some "4219";
  row_title_fr := Some "Atelier lecture"; row_title := None;
  row_title_en := None;
  row_location_name := Some "Bibliotheque Meriadeck"; row_location := None;
  row_location_title := None;
  row_location_address := Some "85 cours du Marechal Juin";
  row_location_district := None; row_location_city := Some "Bordeaux";
  row_city := None; row_location_image := JNull
|}.

(** [store[id]] exists with a non-empty url. *)
Definition hasUrl (store : gmap string Entry) (id : string) : Prop :=
  exists e, store !! id = Some e /\ truthy (url (picked e)) = true.

Definition sampleCandidate (u : string) : Candidate := {|
  url := JStr u; provider := "Openverse"; page_url := ""; author := "";
  license := "by"; credit := "by"; source_url := ""; width := None;
  height := None
|}.

Definition sampleEntry (u : string) : Entry := {|
  picked := sampleCandidate u;
  entry_q := "Concert Bordeaux France";
  updated_at := "2024-01-01T00:00:00.000Z"
|}.

(** A world in which every request is rejected. *)
Definition offlineWorld : World := {|
  http_openagenda := fun _ _ _ => Rejects;
  scrape_library := fun _ => Rejects;
  http_openverse := fun _ => Rejects;
  http_commons_search := fun _ => Rejects;
  http_commons_info := fun _ => Rejects;
  clock := "2024-01-01T00:00:00.000Z"
|}.

(** The defaults of the second generation, with an API key. *)
Definition defaultConfig : Config := {|
  OFFICIAL_IMAGES := true;
  OPENAGENDA_KEY := "secret";
  MIN_WIDTH := 600;
  CONCURRENCY := 1
|}.

Definition emptyRun : RunState :=
  {| existing := ∅; proto := None; done := 0; added := 0 |}.

(** A run that starts from the given entries, read from the file. *)
Definition runFrom (store : gmap string Entry) (d a : Z) : RunState :=
  {| existing := store; proto := None; done := d; added := a |}.

(** A key under which [existing] shows something it does not own: a name
    of [Object.prototype], or a property of the entry installed as
    prototype. *)
Definition inheritedKey (pr : option Entry) (k : string) : bool :=
  inheritedName k
  || match pr with
     | Some e => bool_decide (is_Some (entryProp e k))
     | None => false
     end.

(** The two halves of the tasks of a run, in the order in which the
    event loop runs them: the part of a task before its first [await],
    and the part after the selection and the delay.  The state is passed
    from one half to the next whatever task it belongs to. *)
Inductive Half : Type :=
| Test (row : Row)
| Store (row : Row) (pickedOpt : option Candidate).

Definition runHalf (bq : Row -> string) (w : World) (st : RunState)
    (h : Half) : RunState :=
  match h with
  | Test row =>
      match taskCheck row st with Some st' => st' | None => st end
  | Store row pickedOpt => taskCommit bq w row pickedOpt st
  end.

Definition runHalves (bq : Row -> string) (w : World) (hs : list Half)
    (st : RunState) : RunState :=
  fold_left (runHalf bq w) hs st.

(** [existing[k]] is the entry [e]: as an own property, or as the
    prototype. *)
Definition holds (store : gmap string Entry) (pr : option Entry)
    (k : string) (e : Entry) : Prop :=
  store !! k = Some e
  \/ (k = "__proto__" /\ store !! k = None /\ pr = Some e).

(** The white-space characters of ECMAScript (WhiteSpace and
    LineTerminator), each by the bytes of its UTF-8 encoding: TAB, LF,
    VT, FF, CR, SP, U+00A0, U+1680, U+2000 to U+200A, U+2028, U+2029,
    U+202F, U+205F, U+3000, U+FEFF. *)
Definition utf8 (bytes : list nat) : list ascii := List.map ascii_of_nat bytes.

Definition whiteSpace : list (list ascii) :=
  List.map utf8
    [ [9]; [10]; [11]; [12]; [13]; [32]; [194; 160]; [225; 154; 128];
      [226; 128; 128]; [226; 128; 129]; [226; 128; 130]; [226; 128; 131];
      [226; 128; 132]; [226; 128; 133]; [226; 128; 134]; [226; 128; 135];
      [226; 128; 136]; [226; 128; 137]; [226; 128; 138];
      [226; 128; 168]; [226; 128; 169]; [226; 128; 175]; [226; 129; 159];
      [227; 128; 128]; [239; 187; 191] ]%nat.

(** A text made of white-space characters only (the empty text is
    one). *)
Definition blankBytes (l : list ascii) : Prop :=
  exists units, Forall (fun u => In u whiteSpace) units
                /\ l = List.concat units.

Definition blank (s : string) : Prop := blankBytes (list_ascii_of_string s).

(** What [dropSpace] takes for one white-space character. *)
Definition spaceUnit (w2 : ascii -> ascii -> bool)
    (w3 : ascii -> ascii -> ascii -> bool) (u : list ascii) : Prop :=
  match u with
  | [a] => isWs a = true
  | [a; b] => w2 a b = true
  | [a; b; c] => w3 a b c = true
  | _ => False
  end.

(** What a run of white space gives in [collapseSpace]. *)
Definition gapOut (pending : bool) (out : list ascii) : list ascii :=
  if pending then out else " "%char :: out.

(** The no-break space (U+00A0) and the byte order mark (U+FEFF), as
    the bytes of their UTF-8 encoding. *)
Definition nbsp : string :=
  String (ascii_of_nat 194) (String (ascii_of_nat 160) EmptyString).

Definition bom : string :=
  String (ascii_of_nat 239)
    (String (ascii_of_nat 187) (String (ascii_of_nat 191) EmptyString)).

(** A row whose identifiers are blank. *)
Definition unnamedRow : Row := {|
  row_uid := Some (" " ++ nbsp ++ bom); row_slug := Some "";
  row_originagenda_uid := Some "4219";
  row_title_fr := Some "Concert"; row_title := None; row_title_en := None;
  row_location_name := None; row_location := None;
  row_location_title := None; row_location_address := None;
  row_location_district := None; row_location_city := None;
  row_city := None; row_location_image := JNull
|}.

(** The acceptance rule of the specification for a search candidate: a
    non-empty url, and a width that is unknown or at least the minimum. *)
Definition accepted (minWidth : Z) (c : Candidate) : Prop :=
  truthy (url c) = true
  /\ (width c = None \/ exists wd, width c = Some wd /\ minWidth <= wd).

(** Search results: an Openverse photo of a given width, a Commons page
    of a given width. *)
Definition photo (u : string) (wd : option Z) : OVResult := {|
  ov_title := Some "Concert a Bordeaux"; ov_creator := Some "A. Martin";
  ov_creator_name := None; ov_tags := None; ov_provider := Some "flickr";
  ov_source := Some "flickr"; ov_width := wd; ov_height := None;
  ov_license := Some "by"; ov_foreign_landing_url := None;
  ov_url := Some u; ov_thumbnail := None
|}.

Definition commonsPhoto (u : string) (wd : option Z) : CommonsPage := {|
  page_title := Some "File:Concert Bordeaux.jpg";
  page_imageinfo :=
    Some {| ii_thumburl := Some u; ii_url := None; ii_width := wd;
            ii_height := None; ii_Artist := Some "<a href='u'>A. Martin</a>";
            ii_LicenseShortName := Some "CC BY 4.0"; ii_License := None |}
|}.

(** The defaults of the first generation. *)
Definition gen1Config : Config := {|
  OFFICIAL_IMAGES := false;
  OPENAGENDA_KEY := "";
  MIN_WIDTH := 1200;
  CONCURRENCY := 1
|}.

(** A world where Openverse finds nothing and Commons has one small
    photo. *)
Definition commonsWorld : World := {|
  http_openagenda := fun _ _ _ => Rejects;
  scrape_library := fun _ => Rejects;
  http_openverse :=
    fun _ => Returns {| res_ok := true; res_json := Returns (Some []) |};
  http_commons_search :=
    fun _ => Returns {| res_ok := true;
                        res_json :=
                          Returns (Some [{| hit_title :=
                                              Some "File:Concert Bordeaux.jpg" |}]) |};
  http_commons_info :=
    fun _ => Returns {| res_ok := true;
                        res_json := Returns [commonsPhoto "http://c/400.jpg"
                                                          (Some 400)] |};
  clock := "2024-01-01T00:00:00.000Z"
|}.

(** The first element of a scored list dominates the others. *)
Definition headMax {A} (l : list (A * Z)) : Prop :=
  match l with
  | [] => True
  | y :: _ => forall z, In z l -> snd z <= snd y
  end.

(** The selection policy as the specification words it: an ordered chain
    of adapters, each with the condition under which it applies and its
    attempt; the first accepted candidate ends the chain. *)
Record Adapter : Type := {
  applies : bool;
  attempt : M (option Candidate)
}.

Fixpoint firstAccepted (chain : list Adapter) : M (option Candidate) :=
  match chain with
  | [] => ret None
  | a :: rest =>
      if applies a then
        let! r := attempt a in
        match r with
        | Some c => ret (Some c)
        | None => firstAccepted rest
        end
      else firstAccepted rest
  end.

Definition agendaUidOf (row : Row) : string :=
  trim (strOr (row_originagenda_uid row) "").

Section Chain.
Context {U : UnicodeOps}.

(** UpstreamField, OfficialAgendaAPI, VenueDirectoryScraper,
    OpenMediaSearch. *)
Definition selectionChain (cfg : Config) (w : World) (row : Row)
  : list Adapter :=
  let q := Gen2.buildSearchQuery row in
  [ {| applies := true;
       attempt :=
         ret (if truthy (bestImageUrlFromRow row)
              then Some (Gen2.upstreamCandidate (bestImageUrlFromRow row))
              else None) |};
    {| applies := openAgendaEnabled cfg (agendaUidOf row);
       attempt := openAgendaStep cfg w row (agendaUidOf row) |};
    {| applies := isBibliotheque row;
       attempt := tryCatch (Gen2.libraryStep w row) (ret None) |};
    {| applies := true;
       attempt :=
         tryCatch (openverseStep Gen2.PREFERRED_OPENVERSE_PROVIDERS cfg w q
                     (tokens q))
                  (ret None) |} ].

(** The chain of the first generation: OfficialAgendaAPI,
    OpenMediaSearch, EncyclopediaMediaSearch. *)
Definition firstGenerationChain (encodeTitle : string -> string)
    (cfg : Config) (w : World) (row : Row) : list Adapter :=
  let q := Gen1.buildSearchQuery row in
  [ {| applies := openAgendaEnabled cfg (agendaUidOf row);
       attempt := openAgendaStep cfg w row (agendaUidOf row) |};
    {| applies := true;
       attempt :=
         tryCatch (openverseStep Gen1.PREFERRED_OPENVERSE_PROVIDERS cfg w q
                     (tokens q))
                  (ret None) |};
    {| applies := true;
       attempt :=
         tryCatch (Gen1.commonsStep encodeTitle cfg w q (tokens q))
                  (ret None) |} ].

(** The requests of the chain, in its order. *)
Definition chainRequests (cfg : Config) (row : Row) : list Call :=
  [ ReqOpenAgenda (agendaUidOf row) (rowUid row) (OPENAGENDA_KEY cfg);
    ReqLibrary row;
    ReqOpenverse (Gen2.buildSearchQuery row) ].

End Chain.

(** The url of a candidate is a string, and not the empty one. *)
Definition urlString (c : Candidate) : Prop :=
  exists s, url c = JStr s /\ s <> "".

(** A world where OpenAgenda answers 200 with the body [null]. *)
Definition nullBodyWorld : World := {|
  http_openagenda :=
    fun _ _ _ => Returns {| res_ok := true; res_json := Returns None |};
  scrape_library := fun _ => Rejects;
  http_openverse := fun _ => Rejects;
  http_commons_search := fun _ => Rejects;
  http_commons_info := fun _ => Rejects;
  clock := "2024-01-01T00:00:00.000Z"
|}.

(** A row of an agenda that has a slug and no uid. *)
Definition slugOnlyRow : Row := {|
  row_uid := None; row_slug := Some "concert";
  row_originagenda_uid := Some "4219";
  row_title_fr := Some "Concert"; row_title := None; row_title_en := None;
  row_location_name := None; row_location := None;
  row_location_title := None; row_location_address := None;
  row_location_district := None; row_location_city := None;
  row_city := None; row_location_image := JNull
|}.

(** A world where OpenAgenda has no image for the event, the library
    directory is unreachable, and Openverse has one large photo. *)
Definition openverseWorld : World := {|
  http_openagenda :=
    fun _ _ _ => Returns {| res_ok := false; res_json := Rejects |};
  scrape_library := fun _ => Rejects;
  http_openverse :=
    fun _ => Returns {| res_ok := true;
                        res_json := Returns (Some [photo "http://o/3000.jpg"
                                                         (Some 3000)]) |};
  http_commons_search := fun _ => Rejects;
  http_commons_info := fun _ => Rejects;
  clock := "2024-01-01T00:00:00.000Z"
|}.

(* ===================================================================== *)
(** ** Shapes of normalized text *)
(* ===================================================================== *)

(** A character the normalizer lets through: [[a-z0-9]] or a space. *)
Definition okChar (c : ascii) : Prop := isAlnum c = true \/ c = " "%char.

(** No two spaces in a row; with [prev], no space at the front either. *)
Fixpoint noAdj (prev : bool) (l : list ascii) : bool :=
  match l with
  | [] => true
  | c :: r =>
      if Ascii.eqb c " "%char then negb prev && noAdj true r
      else noAdj false r
  end.

(** The last character, if any, is not whitespace. *)
Definition endsClean (l : list ascii) : Prop :=
  match rev l with
  | [] => True
  | c :: _ => isWs c = false
  end.

(** Words of [[a-z0-9]] separated by single spaces. *)
Definition normalForm (l : list ascii) : Prop :=
  Forall okChar l /\ noAdj true l = true /\ endsClean l.

(** In a text without tags no [">"] comes after a ["<"]. *)
Fixpoint tagFree (l : list ascii) : bool :=
  match l with
  | [] => true
  | c :: r =>
      (if Ascii.eqb c "<"%char then negb (existsb isGt r) else true)
      && tagFree r
  end.

(** Every whitespace character is a single space between two other
    characters; with [prev], none at the front either. *)
Fixpoint spacedOut (prev : bool) (l : list ascii) : bool :=
  match l with
  | [] => true
  | c :: r =>
      if isWs c then Ascii.eqb c " "%char && negb prev && spacedOut true r
      else spacedOut false r
  end.

(** Scores from the highest to the lowest. *)
Fixpoint descending {A} (l : list (A * Z)) : Prop :=
  match l with
  | [] => True
  | x :: r => Forall (fun y => snd y <= snd x) r /\ descending r
  end.

(** A row whose image field is a blank string. *)
Definition blankImageRow : Row := {|
  row_uid := Some "E7"; row_slug := None; row_originagenda_uid := None;
  row_title_fr := None; row_title := Some "Concert"; row_title_en := None;
  row_location_name := None; row_location := None;
  row_location_title := None; row_location_address := None;
  row_location_district := None; row_location_city := None;
  row_city := None; row_location_image := JStr " "
|}.

(* ===================================================================== *)
(** ** Paging through the agenda: [fetchEventsMissingImages] *)
(* ===================================================================== *)

(** [page offset] is what [await fetchAgendaPage(offset, 100)] followed
    by [data?.results || []] gives: the rows of the page, or a failure. *)

(** The [for] loop over the rows of one page: push the rows without an
    image, stop as soon as [maxEvents] rows are collected. *)
Fixpoint scanRows (maxEvents : Z) (out : list Row) (rows : list Row)
  : list Row :=
  match rows with
  | [] => out
  | row :: rest =>
      let out' := if isMissingImage row then (out ++ [row])%list else out in
      if maxEvents <=? Z.of_nat (List.length out') then out'
      else scanRows maxEvents out' rest
  end.

(** The [while] loop, with the offsets requested so far; [None] when the
    fuel runs out. *)
Fixpoint pagesLoop (fuel : nat) (page : Z -> Reply (list Row))
    (maxEvents offset : Z) (out : list Row) (log : list Z)
  : option (list Z * result (list Row)) :=
  match fuel with
  | O => None
  | S fuel' =>
      if Z.of_nat (List.length out) <? maxEvents then
        match page offset with
        | Rejects => Some ((log ++ [offset])%list, Thrown)
        | Returns [] => Some ((log ++ [offset])%list, Ok out)
        | Returns rows =>
            let out' := scanRows maxEvents out rows in
            let offset' := offset + Z.of_nat (List.length rows) in
            if 20000 <? offset' then Some ((log ++ [offset])%list, Ok out')
            else pagesLoop fuel' page maxEvents offset' out'
                           (log ++ [offset])%list
        end
      else Some (log, Ok out)
  end.

Definition fetchEventsMissingImages (page : Z -> Reply (list Row))
    (maxEvents : Z) : option (list Z * result (list Row)) :=
  pagesLoop (Z.to_nat 20002) page maxEvents 0 [] [].

(** The rows of the page at an offset, none when the request fails. *)
Definition rowsAt (page : Z -> Reply (list Row)) (offset : Z) : list Row :=
  match page offset with
  | Returns rows => rows
  | Rejects => []
  end.

(** A feed of two pages of two rows. *)
Definition twoPages (offset : Z) : Reply (list Row) :=
  if offset =? 0 then Returns [libraryRow; withImage (JStr "http://x")]
  else if offset =? 2 then Returns [unnamedRow; blankImageRow]
  else Returns [].

(* ===================================================================== *)
(** ** The library index: [loadLibrariesIndex] (second generation) *)
(* ===================================================================== *)

Definition BORDEAUX_LIBRARIES_INDEX : string :=
  "https://bibliotheque.bordeaux.fr/pratique/les-bibliotheques".

(** [url.replace(/^https?:\/\//, "")] *)
Definition stripScheme (u : string) : string :=
  if String.prefix "https://" u
  then String.substring 8 (String.length u - 8) u
  else if String.prefix "http://" u
       then String.substring 7 (String.length u - 7) u
       else u.

(** [withOptionalProxy], with [BORDEAUX_FR_PROXY_PREFIX] as [proxy] *)
Definition withOptionalProxy (proxy u : string) : string :=
  if negb (nonEmpty proxy) then u else proxy ++ stripScheme u.

(** [{ links, html }] *)
Record LibIndex : Type := {
  links : list (string * string);
  html : string
}.

(** The module variable [librariesCache] and the urls fetched so far. *)
Record LibState : Type := {
  librariesCache : option LibIndex;
  fetched : list string
}.

(** [loadLibrariesIndex]; [fetchText] gives the body of a page or fails
    (status not ok, timeout, network), and [extractLibraryLinks] is the
    scan of the anchors of the page. *)
Definition loadLibrariesIndex
    (extractLibraryLinks : string -> list (string * string))
    (proxy : string) (fetchText : string -> Reply string) (st : LibState)
  : LibState * result LibIndex :=
  match librariesCache st with
  | Some cached => (st, Ok cached)
  | None =>
      let log1 := (fetched st ++ [BORDEAUX_LIBRARIES_INDEX])%list in
      let store h log :=
        let idx := {| links := extractLibraryLinks h; html := h |} in
        ({| librariesCache := Some idx; fetched := log |}, Ok idx) in
      match fetchText BORDEAUX_LIBRARIES_INDEX with
      | Returns h => store h log1
      | Rejects =>
          if negb (nonEmpty proxy)
          then ({| librariesCache := None; fetched := log1 |}, Thrown)
          else
            let u2 := withOptionalProxy proxy BORDEAUX_LIBRARIES_INDEX in
            let log2 := (log1 ++ [u2])%list in
            match fetchText u2 with
            | Returns h => store h log2
            | Rejects => ({| librariesCache := None; fetched := log2 |}, Thrown)
            end
      end
  end.

(* ===================================================================== *)
(** ** Text normalizer: [overlapScore] *)
(* ===================================================================== *)

Section OverlapScore.
Context {U : UnicodeOps}.

Lemma overlap_loop (b : gset string) (a : list string) (acc : Z) :
  fold_left (fun score t => if bool_decide (t ∈ b) then score + 1 else score)
            a acc
  = acc + Z.of_nat (List.length (hits b a)).
Proof.
  revert acc. induction a as [|t a IH]; intros acc; simpl.
  - lia.
  - rewrite IH. destruct (bool_decide (t ∈ b)); simpl; lia.
Qed.

Lemma overlapScore_count (a : list string) (txt : string) :
  overlapScore a txt
  = Z.of_nat (List.length (hits (list_to_set (tokens txt)) a)).
Proof. unfold overlapScore. rewrite overlap_loop. lia. Qed.

Lemma hits_perm (b : gset string) (a a' : list string) :
  Permutation a a' -> List.length (hits b a) = List.length (hits b a').
Proof.
  induction 1; simpl; try congruence.
  - destruct (bool_decide (x ∈ b)); simpl; congruence.
  - destruct (bool_decide (x ∈ b)), (bool_decide (y ∈ b)); reflexivity.
Qed.

Lemma hits_cons (b : gset string) (t : string) (a : list string) :
  hits b (t :: a) = if bool_decide (t ∈ b) then t :: hits b a else hits b a.
Proof. reflexivity. Qed.

Lemma hits_nodup (b : gset string) (a : list string) :
  NoDup a ->
  List.length (hits b a) = size ((list_to_set a : gset string) ∩ b).
Proof.
  induction 1 as [|t a Hnotin Hnd IH].
  - assert ((list_to_set [] : gset string) ∩ b = ∅) as -> by set_solver.
    rewrite size_empty. reflexivity.
  - rewrite hits_cons, list_to_set_cons.
    destruct (bool_decide (t ∈ b)) eqn:Hb.
    + apply bool_decide_eq_true in Hb.
      assert (({[t]} ∪ list_to_set a : gset string) ∩ b
              = {[t]} ∪ ((list_to_set a : gset string) ∩ b)) as ->
        by set_solver.
      rewrite size_union by set_solver.
      rewrite size_singleton. cbn [List.length]. rewrite IH. reflexivity.
    + apply bool_decide_eq_false in Hb. rewrite IH.
      assert (({[t]} ∪ list_to_set a : gset string) ∩ b
              = (list_to_set a : gset string) ∩ b) as ->
        by set_solver.
      reflexivity.
Qed.

Lemma hits_disjoint (b : gset string) (a : list string) :
  (list_to_set a : gset string) ## b -> hits b a = [].
Proof.
  induction a as [|t a IH]; intros Hd; simpl; [reflexivity|].
  rewrite bool_decide_eq_false_2 by set_solver.
  apply IH. set_solver.
Qed.

(** C6 (as amended).  [overlapScore] counts the entries of the query
    token list that belong to the token set of the candidate text, a
    repeated query token counting each time.  The count does not depend
    on the order of the query tokens, nor on how often a token occurs in
    the text; it is the size of the intersection of the two token sets
    when no query token is repeated, and 0 when the sets are disjoint. *)
Theorem overlapScore_membership_count (a : list string) (txt : string) :
  let b : gset string := list_to_set (tokens txt) in
  overlapScore a txt = Z.of_nat (List.length (hits b a))
  /\ (forall a', Permutation a a' -> overlapScore a' txt = overlapScore a txt)
  /\ (forall txt', (list_to_set (tokens txt') : gset string) = b ->
                   overlapScore a txt' = overlapScore a txt)
  /\ (NoDup a ->
      overlapScore a txt = Z.of_nat (size ((list_to_set a : gset string) ∩ b)))
  /\ ((list_to_set a : gset string) ## b -> overlapScore a txt = 0).
Proof.
  intros b. repeat split.
  - apply overlapScore_count.
  - intros a' Hp. rewrite !overlapScore_count.
    rewrite (hits_perm _ _ _ Hp). reflexivity.
  - intros txt' Hb. rewrite !overlapScore_count, Hb. reflexivity.
  - intros Hnd. rewrite overlapScore_count, hits_nodup by assumption.
    reflexivity.
  - intros Hd. rewrite overlapScore_count, hits_disjoint by assumption.
    reflexivity.
Qed.

End OverlapScore.

(** The query of a library event in Bordeaux repeats the city. *)
Lemma overlapScore_membership_count_witness :
  @overlapScore asciiOps ["meriadeck"; "bordeaux"; "france"]
                "Bordeaux - Meriadeck (vue du ciel)" = 2.
Proof.
  pose proof (@overlapScore_membership_count asciiOps
                ["meriadeck"; "bordeaux"; "france"]
                "Bordeaux - Meriadeck (vue du ciel)") as H.
  cbv zeta in H. destruct H as (_ & _ & _ & Hnd & _).
  rewrite Hnd.
  - vm_compute. reflexivity.
  - repeat constructor; vm_compute; intros H;
      repeat (apply elem_of_cons in H as [H|H]; [discriminate H|]);
      apply elem_of_nil in H; exact H.
Defined.

(** C6, counterexample: with a query token repeated, the score (2) is not
    the size of the intersection of the two token sets (1). *)
Lemma overlapScore_not_intersection_size :
  @overlapScore asciiOps ["bordeaux"; "bordeaux"] "Bordeaux"
  <> Z.of_nat (size ((list_to_set ["bordeaux"; "bordeaux"] : gset string)
                     ∩ list_to_set (@tokens asciiOps "Bordeaux"))).
Proof.
  assert (@overlapScore asciiOps ["bordeaux"; "bordeaux"] "Bordeaux" = 2) as ->
    by (vm_compute; reflexivity).
  assert (@tokens asciiOps "Bordeaux" = ["bordeaux"]) as ->
    by (vm_compute; reflexivity).
  assert ((list_to_set ["bordeaux"; "bordeaux"] : gset string)
          ∩ list_to_set ["bordeaux"] = {["bordeaux"]}) as ->
    by set_solver.
  rewrite size_singleton. discriminate.
Qed.

(* ===================================================================== *)
(** ** White space: [trim] and [\s+] *)
(* ===================================================================== *)

Lemma code_eq (a : ascii) (n : nat) : code a = n -> a = ascii_of_nat n.
Proof. intros <-. unfold code. symmetry. apply ascii_nat_embedding. Qed.

Ltac in_list := repeat first [left; reflexivity | right].

(** *** What the three recognisers accept is the white space of the
    language *)

Lemma isWs_unit (a : ascii) : isWs a = true -> In [a] whiteSpace.
Proof.
  unfold isWs. cbv zeta. intros H.
  assert (Hc : (code a = 9 \/ code a = 10 \/ code a = 11 \/ code a = 12
                \/ code a = 13 \/ code a = 32)%nat).
  { apply orb_true_iff in H as [H|H].
    - apply andb_true_iff in H as [H1 H2].
      apply Nat.leb_le in H1. apply Nat.leb_le in H2. lia.
    - apply Nat.eqb_eq in H. lia. }
  destruct Hc as [Hc|[Hc|[Hc|[Hc|[Hc|Hc]]]]];
    apply code_eq in Hc; subst a; vm_compute; in_list.
Qed.

Lemma ws2_unit (a b : ascii) : ws2 a b = true -> In [a; b] whiteSpace.
Proof.
  unfold ws2. intros H. apply andb_true_iff in H as [Ha Hb].
  apply Nat.eqb_eq, code_eq in Ha. apply Nat.eqb_eq, code_eq in Hb.
  subst a b. vm_compute. in_list.
Qed.

Lemma ws3_codes (a b c : ascii) :
  ws3 a b c = true ->
  ((code a = 225 /\ code b = 154 /\ code c = 128)
   \/ (code a = 226 /\ code b = 128
       /\ (128 <= code c <= 138 \/ code c = 168 \/ code c = 169
           \/ code c = 175))
   \/ (code a = 226 /\ code b = 129 /\ code c = 159)
   \/ (code a = 227 /\ code b = 128 /\ code c = 128)
   \/ (code a = 239 /\ code b = 187 /\ code c = 191))%nat.
Proof.
  unfold ws3. cbv zeta.
  rewrite !orb_true_iff, !andb_true_iff, !orb_true_iff, !andb_true_iff,
          !Nat.eqb_eq, !Nat.leb_le.
  tauto.
Qed.

Lemma ws3_unit (a b c : ascii) : ws3 a b c = true -> In [a; b; c] whiteSpace.
Proof.
  intros H. apply ws3_codes in H.
  assert (Hc : exists x y z,
             (code a = x /\ code b = y /\ code c = z)%nat
             /\ In (utf8 [x; y; z]) whiteSpace).
  { destruct H as [(Ha & Hb & Hc)|[(Ha & Hb & Hc)|[(Ha & Hb & Hc)|
                   [(Ha & Hb & Hc)|(Ha & Hb & Hc)]]]].
    - exists 225%nat, 154%nat, 128%nat. split; [auto|]. vm_compute. in_list.
    - assert (Hz : (code c = 128 \/ code c = 129 \/ code c = 130
                    \/ code c = 131 \/ code c = 132 \/ code c = 133
                    \/ code c = 134 \/ code c = 135 \/ code c = 136
                    \/ code c = 137 \/ code c = 138 \/ code c = 168
                    \/ code c = 169 \/ code c = 175)%nat) by lia.
      exists 226%nat, 128%nat, (code c). split; [auto|].
      repeat (destruct Hz as [Hz|Hz]; [rewrite Hz; vm_compute; in_list|]).
      rewrite Hz. vm_compute. in_list.
    - exists 226%nat, 129%nat, 159%nat. split; [auto|]. vm_compute. in_list.
    - exists 227%nat, 128%nat, 128%nat. split; [auto|]. vm_compute. in_list.
    - exists 239%nat, 187%nat, 191%nat. split; [auto|]. vm_compute. in_list. }
  destruct Hc as (x & y & z & (Ha & Hb & Hc) & Hin).
  apply code_eq in Ha. apply code_eq in Hb. apply code_eq in Hc.
  subst a b c. exact Hin.
Qed.

Lemma spaceUnit_whiteSpace (u : list ascii) :
  spaceUnit ws2 ws3 u -> In u whiteSpace.
Proof.
  destruct u as [|a [|b [|c [|d r]]]]; cbn [spaceUnit]; try contradiction.
  - apply isWs_unit.
  - apply ws2_unit.
  - apply ws3_unit.
Qed.

(** Read from the end, the bytes of a character come in reverse. *)
Lemma spaceUnit_rev_whiteSpace (u : list ascii) :
  spaceUnit (fun a b => ws2 b a) (fun a b c => ws3 c b a) u ->
  In (rev u) whiteSpace.
Proof.
  destruct u as [|a [|b [|c [|d r]]]]; cbn [spaceUnit]; try contradiction.
  - apply isWs_unit.
  - apply ws2_unit.
  - apply ws3_unit.
Qed.

(** No white-space character has a byte that is an angle bracket. *)
Lemma whiteSpace_no_angle (u : list ascii) :
  In u whiteSpace ->
  existsb isGt u = false /\ existsb (fun c => Ascii.eqb c "<"%char) u = false.
Proof.
  intros H. vm_compute in H.
  repeat (destruct H as [<-|H]; [split; reflexivity|]).
  contradiction.
Qed.

(** *** [dropSpace] by cases *)

Lemma dropSpace_cases (w2 : ascii -> ascii -> bool)
    (w3 : ascii -> ascii -> ascii -> bool)
    (P : list ascii -> list ascii -> Prop) :
  P [] [] ->
  (forall u r out, spaceUnit w2 w3 u -> P r out -> P (u ++ r)%list out) ->
  (forall a r, isWs a = false -> dropSpace w2 w3 (a :: r) = a :: r ->
               P (a :: r) (a :: r)) ->
  forall l, P l (dropSpace w2 w3 l).
Proof.
  intros H0 Hu Hk l.
  assert (H : forall n l', (List.length l' <= n)%nat ->
                           P l' (dropSpace w2 w3 l')).
  { induction n as [|n IH]; intros l' Hn.
    - destruct l'; [exact H0 | cbn in Hn; lia].
    - destruct l' as [|a r]; [exact H0|].
      cbn [List.length] in Hn.
      pose proof (Hk a r) as Hka.
      cbn [dropSpace] in Hka |- *. destruct (isWs a) eqn:Hw.
      + apply (Hu [a] r); [exact Hw | apply IH; lia].
      + destruct r as [|b r2]; [apply Hka; reflexivity|].
        cbn [List.length] in Hn.
        destruct (w2 a b) eqn:H2.
        * apply (Hu [a; b] r2); [exact H2 | apply IH; lia].
        * destruct r2 as [|c r3]; [apply Hka; reflexivity|].
          cbn [List.length] in Hn.
          destruct (w3 a b c) eqn:H3; [|apply Hka; reflexivity].
          apply (Hu [a; b; c] r3); [exact H3 | apply IH; lia]. }
  apply (H (List.length l)). lia.
Qed.

(** [dropSpace] removes a prefix ... *)
Lemma dropSpace_suffix w2 w3 (l : list ascii) :
  exists pre, l = (pre ++ dropSpace w2 w3 l)%list.
Proof.
  apply (dropSpace_cases w2 w3 (fun l out => exists pre, l = (pre ++ out)%list)).
  - exists []. reflexivity.
  - intros u r out _ [pre ->]. exists (u ++ pre)%list.
    rewrite <- app_assoc. reflexivity.
  - intros a r _ _. exists []. reflexivity.
Qed.

(** ... made of white-space characters ... *)
Lemma dropSpace_units w2 w3 (l : list ascii) :
  exists units,
    Forall (spaceUnit w2 w3) units
    /\ l = (List.concat units ++ dropSpace w2 w3 l)%list.
Proof.
  apply (dropSpace_cases w2 w3
           (fun l out => exists units,
                Forall (spaceUnit w2 w3) units
                /\ l = (List.concat units ++ out)%list)).
  - exists []. split; [constructor | reflexivity].
  - intros u r out Hu (units & Hf & ->). exists (u :: units).
    split; [constructor; assumption|].
    cbn [List.concat]. rewrite <- app_assoc. reflexivity.
  - intros a r _ _. exists []. split; [constructor | reflexivity].
Qed.

(** ... and stops in front of a character that is not white space: what
    it returns it leaves alone. *)
Lemma dropSpace_head w2 w3 (l : list ascii) (c : ascii) (r : list ascii) :
  dropSpace w2 w3 l = c :: r -> isWs c = false.
Proof.
  apply (dropSpace_cases w2 w3
           (fun l out => out = c :: r -> isWs c = false)).
  - discriminate.
  - auto.
  - intros a r' Hw _ [= <- _]. exact Hw.
Qed.

Lemma dropSpace_fixed w2 w3 (l : list ascii) :
  dropSpace w2 w3 (dropSpace w2 w3 l) = dropSpace w2 w3 l.
Proof.
  apply (dropSpace_cases w2 w3 (fun l out => dropSpace w2 w3 out = out)).
  - reflexivity.
  - auto.
  - auto.
Qed.

Lemma dropSpace_unit (u r : list ascii) :
  In u whiteSpace -> dropSpace ws2 ws3 (u ++ r) = dropSpace ws2 ws3 r.
Proof.
  intros H. vm_compute in H.
  repeat (destruct H as [<-|H]; [reflexivity|]).
  contradiction.
Qed.

(** *** [trim] *)

Lemma trimEnd_prefix (l : list ascii) :
  exists post, l = (trimEnd l ++ post)%list.
Proof.
  unfold trimEnd.
  destruct (dropSpace_suffix (fun a b => ws2 b a) (fun a b c => ws3 c b a)
              (rev l)) as [pre Hpre].
  exists (rev pre). rewrite <- (rev_involutive l) at 1.
  rewrite Hpre at 1. rewrite rev_app_distr. reflexivity.
Qed.

Lemma trimStart_blank (l : list ascii) : blankBytes l -> trimStart l = [].
Proof.
  intros (units & Hf & ->). unfold trimStart.
  induction Hf as [|u units Hu Hf IH]; [reflexivity|].
  cbn [List.concat]. rewrite dropSpace_unit by exact Hu. exact IH.
Qed.

Lemma trimStart_nil (l : list ascii) : trimStart l = [] -> blankBytes l.
Proof.
  unfold trimStart. intros H.
  destruct (dropSpace_units ws2 ws3 l) as (units & Hf & Hl).
  rewrite H, app_nil_r in Hl. exists units. split; [|exact Hl].
  eapply List.Forall_impl; [|exact Hf]. apply spaceUnit_whiteSpace.
Qed.

Lemma concat_rev {A} (ls : list (list A)) :
  rev (List.concat ls) = List.concat (List.map (@rev A) (rev ls)).
Proof.
  induction ls as [|x ls IH]; [reflexivity|].
  cbn [List.concat rev List.map]. rewrite rev_app_distr, IH.
  rewrite List.map_app, List.concat_app. cbn [List.map List.concat].
  rewrite app_nil_r. reflexivity.
Qed.

Lemma trimEnd_nil (l : list ascii) : trimEnd l = [] -> blankBytes l.
Proof.
  unfold trimEnd. intros H.
  destruct (dropSpace_units (fun a b => ws2 b a) (fun a b c => ws3 c b a)
              (rev l)) as (units & Hf & Hl).
  apply (f_equal (@rev ascii)) in H. rewrite rev_involutive in H.
  cbn [rev] in H. rewrite H, app_nil_r in Hl.
  apply (f_equal (@rev ascii)) in Hl.
  rewrite rev_involutive, concat_rev in Hl.
  exists (List.map (@rev ascii) (rev units)). split; [|exact Hl].
  apply List.Forall_forall. intros u Hu.
  apply List.in_map_iff in Hu as (v & <- & Hv).
  apply spaceUnit_rev_whiteSpace.
  apply (proj1 (List.Forall_forall _ _) Hf). apply List.in_rev. exact Hv.
Qed.

(** [trim] gives the empty text exactly on the texts made of white
    space only. *)
Lemma trimBytes_nil (l : list ascii) : trimBytes l = [] <-> blankBytes l.
Proof.
  unfold trimBytes. split.
  - intros H. apply trimEnd_nil, trimStart_blank in H.
    unfold trimStart in H. rewrite dropSpace_fixed in H.
    apply trimStart_nil. exact H.
  - intros H. rewrite (trimStart_blank l H). reflexivity.
Qed.

Lemma trim_blank (s : string) : trim s = "" <-> blank s.
Proof.
  unfold trim, blank. rewrite <- trimBytes_nil. split.
  - intros H. apply (f_equal list_ascii_of_string) in H.
    rewrite list_ascii_of_string_of_list_ascii in H. exact H.
  - intros ->. reflexivity.
Qed.

(** *** [collapseSpace] by cases *)

Lemma collapseSpace_cases (P : bool -> list ascii -> list ascii -> Prop) :
  (forall p, P p [] []) ->
  (forall p u r out, spaceUnit ws2 ws3 u -> P true r out ->
                     P p (u ++ r)%list (gapOut p out)) ->
  (forall p a r out, isWs a = false -> P false r out ->
                     P p (a :: r) (a :: out)) ->
  forall p l, P p l (collapseSpace p l).
Proof.
  intros H0 Hu Hk p l.
  assert (H : forall n p' l', (List.length l' <= n)%nat ->
                              P p' l' (collapseSpace p' l')).
  { induction n as [|n IH]; intros p' l' Hn.
    - destruct l'; [apply H0 | cbn in Hn; lia].
    - destruct l' as [|a r]; [apply H0|].
      cbn [List.length] in Hn.
      assert (Hka : isWs a = false ->
                    P p' (a :: r) (a :: collapseSpace false r))
        by (intros Hw; apply Hk; [exact Hw | apply IH; lia]).
      change (collapseSpace p' (a :: r))
        with (if isWs a then gapOut p' (collapseSpace true r)
              else match r with
                   | b :: r2 =>
                       if ws2 a b then gapOut p' (collapseSpace true r2)
                       else match r2 with
                            | c :: r3 =>
                                if ws3 a b c
                                then gapOut p' (collapseSpace true r3)
                                else a :: collapseSpace false r
                            | [] => a :: collapseSpace false r
                            end
                   | [] => a :: collapseSpace false r
                   end).
      destruct (isWs a) eqn:Hw.
      + apply (Hu p' [a] r); [exact Hw | apply IH; lia].
      + specialize (Hka eq_refl).
        destruct r as [|b r2]; [exact Hka|].
        cbn [List.length] in Hn.
        destruct (ws2 a b) eqn:H2.
        * apply (Hu p' [a; b] r2); [exact H2 | apply IH; lia].
        * destruct r2 as [|c r3]; [exact Hka|].
          cbn [List.length] in Hn.
          destruct (ws3 a b c) eqn:H3; [|exact Hka].
          apply (Hu p' [a; b; c] r3); [exact H3 | apply IH; lia]. }
  apply (H (List.length l)). lia.
Qed.

(** *** On ASCII text *)

(** A byte below 128 is a character by itself: it starts no white-space
    character of several bytes, and ends none. *)
Lemma low_ws2 (a b : ascii) :
  (code a < 128)%nat -> ws2 a b = false /\ ws2 b a = false.
Proof.
  intros H. unfold ws2. split; apply andb_false_iff.
  - left. apply Nat.eqb_neq. lia.
  - right. apply Nat.eqb_neq. lia.
Qed.

Lemma low_ws3 (a b c : ascii) :
  (code a < 128)%nat -> ws3 a b c = false /\ ws3 c b a = false.
Proof.
  intros H. split.
  - destruct (ws3 a b c) eqn:Hw; [|reflexivity].
    apply ws3_codes in Hw. lia.
  - destruct (ws3 c b a) eqn:Hw; [|reflexivity].
    apply ws3_codes in Hw. lia.
Qed.

Lemma okChar_low (c : ascii) : okChar c -> (code c < 128)%nat.
Proof.
  intros [Ha| ->]; [|vm_compute; lia].
  unfold isAlnum in Ha. cbv zeta in Ha.
  rewrite !orb_true_iff, !andb_true_iff, !Nat.leb_le in Ha. lia.
Qed.

Lemma dropSpace_ascii w2 w3 (l : list ascii) :
  (forall a b, (code a < 128)%nat -> w2 a b = false) ->
  (forall a b c, (code a < 128)%nat -> w3 a b c = false) ->
  Forall (fun a => (code a < 128)%nat) l ->
  dropSpace w2 w3 l = dropWs l.
Proof.
  intros H2 H3. induction 1 as [|a r Ha Hr IH]; [reflexivity|].
  cbn [dropSpace dropWs]. destruct (isWs a); [exact IH|].
  destruct r as [|b r2]; [reflexivity|]. rewrite (H2 a b Ha).
  destruct r2 as [|c r3]; [reflexivity|]. rewrite (H3 a b c Ha).
  reflexivity.
Qed.

Lemma dropWs_low (l : list ascii) :
  Forall (fun a => (code a < 128)%nat) l ->
  Forall (fun a => (code a < 128)%nat) (dropWs l).
Proof.
  induction 1 as [|a r Ha Hr IH]; [constructor|].
  cbn [dropWs]. destruct (isWs a); [exact IH | constructor; assumption].
Qed.

(** On ASCII text [trim] strips the ASCII white space ... *)
Lemma trimBytes_ascii (l : list ascii) :
  Forall (fun a => (code a < 128)%nat) l -> trimBytes l = trimChars l.
Proof.
  intros Hl. unfold trimBytes, trimEnd, trimStart, trimChars.
  rewrite (dropSpace_ascii ws2 ws3 l);
    [|intros a b Ha; apply (low_ws2 a b Ha)
     |intros a b c Ha; apply (low_ws3 a b c Ha)
     |exact Hl].
  rewrite dropSpace_ascii;
    [reflexivity
    |intros a b Ha; apply (low_ws2 a b Ha)
    |intros a b c Ha; apply (low_ws3 a b c Ha)
    |apply Forall_rev, dropWs_low, Hl].
Qed.

(** ... and [\s+] is a run of ASCII white space. *)
Lemma collapseSpace_ascii (p : bool) (l : list ascii) :
  Forall (fun a => (code a < 128)%nat) l ->
  collapseSpace p l = squashSpaces p l.
Proof.
  intros Hl. revert p. induction Hl as [|a r Ha Hr IH]; intros p;
    [reflexivity|].
  change (collapseSpace p (a :: r))
    with (if isWs a then gapOut p (collapseSpace true r)
          else match r with
               | b :: r2 =>
                   if ws2 a b then gapOut p (collapseSpace true r2)
                   else match r2 with
                        | c :: r3 =>
                            if ws3 a b c
                            then gapOut p (collapseSpace true r3)
                            else a :: collapseSpace false r
                        | [] => a :: collapseSpace false r
                        end
               | [] => a :: collapseSpace false r
               end).
  cbn [squashSpaces]. destruct (isWs a).
  - rewrite IH. destruct p; reflexivity.
  - assert (Hk : a :: collapseSpace false r = a :: squashSpaces false r)
      by (rewrite IH; reflexivity).
    destruct r as [|b r2]; [exact Hk|].
    rewrite (proj1 (low_ws2 a b Ha)).
    destruct r2 as [|c r3]; [exact Hk|].
    rewrite (proj1 (low_ws3 a b c Ha)). exact Hk.
Qed.

Lemma okChar_all_low (l : list ascii) :
  Forall okChar l -> Forall (fun a => (code a < 128)%nat) l.
Proof. apply List.Forall_impl. exact okChar_low. Qed.

(* ===================================================================== *)
(** ** Query builder *)
(* ===================================================================== *)

Lemma nonEmpty_true (s : string) : nonEmpty s = true <-> s <> "".
Proof.
  unfold nonEmpty. destruct (String.eqb_spec s ""); simpl; split;
    congruence.
Qed.

Lemma nonEmpty_false (s : string) : nonEmpty s = false <-> s = "".
Proof.
  unfold nonEmpty. destruct (String.eqb_spec s ""); simpl; split;
    congruence.
Qed.

Lemma strOr_nonEmpty (a : option string) (b : string) :
  b <> "" -> strOr a b <> "".
Proof.
  intros Hb. unfold strOr. destruct a as [s|]; [|exact Hb].
  destruct (String.eqb_spec s ""); congruence.
Qed.

Lemma cityOf_nonEmpty (row : Row) : nonEmpty (cityOf row) = true.
Proof.
  apply nonEmpty_true. unfold cityOf.
  apply strOr_nonEmpty, strOr_nonEmpty. discriminate.
Qed.

Lemma append_assoc (a b c : string) : (a ++ b) ++ c = a ++ (b ++ c).
Proof.
  induction a as [|x a IH]; [reflexivity|].
  change (String x ((a ++ b) ++ c) = String x (a ++ (b ++ c))).
  rewrite IH. reflexivity.
Qed.

Lemma concat_two (sep x y : string) :
  String.concat sep [x; y] = x ++ sep ++ y.
Proof. reflexivity. Qed.

(** A join whose parts end with [x; y] ends with [x ++ sep ++ y]. *)
Lemma concat_ends (sep x y : string) (l : list string) :
  endsWith (x ++ sep ++ y) (String.concat sep (l ++ [x; y])).
Proof.
  induction l as [|z l IH].
  - exists "". reflexivity.
  - destruct IH as [pre Hpre].
    exists (z ++ sep ++ pre).
    change ((z :: l) ++ [x; y])%list with (z :: (l ++ [x; y]))%list.
    destruct (l ++ [x; y])%list as [|h t] eqn:Hl.
    + destruct l; discriminate Hl.
    + cbn [String.concat]. cbn [String.concat] in Hpre.
      rewrite Hpre. rewrite !append_assoc. reflexivity.
Qed.

Lemma endsWith_trans (a b s : string) :
  endsWith a b -> endsWith b s -> endsWith a s.
Proof.
  intros [p Hp] [q Hq]. exists (q ++ p).
  rewrite Hq, Hp, append_assoc. reflexivity.
Qed.

Lemma filter_app_tail (l : list string) (row : Row) :
  List.filter nonEmpty (l ++ [cityOf row; "France"])%list
  = (List.filter nonEmpty l ++ [cityOf row; "France"])%list.
Proof.
  rewrite List.filter_app. f_equal.
  cbn [List.filter]. rewrite cityOf_nonEmpty. reflexivity.
Qed.

(** A join whose last part is [x] ends with [x]. *)
Lemma concat_ends1 (sep x : string) (l : list string) :
  endsWith x (String.concat sep (l ++ [x])).
Proof.
  induction l as [|z l IH].
  - exists "". reflexivity.
  - destruct IH as [pre Hpre].
    exists (z ++ sep ++ pre).
    change ((z :: l) ++ [x])%list with (z :: (l ++ [x]))%list.
    destruct (l ++ [x])%list as [|h t] eqn:Hl.
    + destruct l; discriminate Hl.
    + cbn [String.concat]. cbn [String.concat] in Hpre.
      rewrite Hpre. rewrite !append_assoc. reflexivity.
Qed.

Lemma list_ascii_of_string_app (a b : string) :
  list_ascii_of_string (a ++ b)
  = (list_ascii_of_string a ++ list_ascii_of_string b)%list.
Proof.
  induction a as [|x a IH]; [reflexivity|].
  change (x :: list_ascii_of_string (a ++ b)
          = x :: (list_ascii_of_string a ++ list_ascii_of_string b)%list).
  rewrite IH. reflexivity.
Qed.

(** A text that ends with [suffix] has the characters of [suffix] at its
    end. *)
Lemma endsWith_last (suffix s : string) :
  endsWith suffix s ->
  firstn (List.length (list_ascii_of_string suffix))
         (rev (list_ascii_of_string s))
  = rev (list_ascii_of_string suffix).
Proof.
  intros [pre ->]. rewrite list_ascii_of_string_app, rev_app_distr.
  rewrite <- (length_rev (list_ascii_of_string suffix)).
  rewrite firstn_app, Nat.sub_diag, firstn_all, firstn_O.
  apply app_nil_r.
Qed.

Lemma gen1_query_parts (row : Row) :
  Gen1.buildSearchQuery row
  = String.concat " "
      (List.filter nonEmpty [titleOf row; venueOf row] ++ [cityOf row]).
Proof.
  unfold Gen1.buildSearchQuery, joinNonEmpty. cbv zeta.
  fold (venueOf row) (cityOf row) (titleOf row).
  change [titleOf row; venueOf row; cityOf row]
    with ([titleOf row; venueOf row] ++ [cityOf row])%list.
  rewrite List.filter_app.
  change (List.filter nonEmpty [cityOf row])
    with (if nonEmpty (cityOf row) then [cityOf row] else []).
  rewrite cityOf_nonEmpty. reflexivity.
Qed.

(** C7 (as amended).  Second generation: with a venue, the query is the
    space-join of the non-empty parts of venue, address, district, city
    and "France"; without one, of title, city and "France"; either way it
    ends with the city followed by "France".  First generation: the query
    is the space-join of the non-empty parts of title, venue and city,
    whether there is a venue or not, and it ends with the city. *)
Theorem buildSearchQuery_policy (row : Row) :
  (venueOf row <> "" ->
   Gen2.buildSearchQuery row
   = String.concat " "
       (List.filter nonEmpty
          [venueOf row; strOr (row_location_address row) "";
           strOr (row_location_district row) ""; cityOf row; "France"]))
  /\ (venueOf row = "" ->
      Gen2.buildSearchQuery row
      = String.concat " "
          (List.filter nonEmpty [titleOf row; cityOf row; "France"]))
  /\ endsWith "France" (Gen2.buildSearchQuery row)
  /\ endsWith (cityOf row ++ " France") (Gen2.buildSearchQuery row)
  /\ Gen1.buildSearchQuery row
     = String.concat " "
         (List.filter nonEmpty [titleOf row; venueOf row; cityOf row])
  /\ endsWith (cityOf row) (Gen1.buildSearchQuery row).
Proof.
  assert (Hend : endsWith (cityOf row ++ " France")
                          (Gen2.buildSearchQuery row)).
  { unfold Gen2.buildSearchQuery, joinNonEmpty.
    fold (venueOf row) (cityOf row) (titleOf row).
    destruct (nonEmpty (venueOf row)).
    - change [venueOf row; strOr (row_location_address row) "";
              strOr (row_location_district row) ""; cityOf row; "France"]
        with ([venueOf row; strOr (row_location_address row) "";
               strOr (row_location_district row) ""]
              ++ [cityOf row; "France"])%list.
      rewrite filter_app_tail. apply concat_ends.
    - change [titleOf row; cityOf row; "France"]
        with ([titleOf row] ++ [cityOf row; "France"])%list.
      rewrite filter_app_tail. apply concat_ends. }
  split; [|split; [|split; [|split; [|split]]]].
  - intros Hv. apply nonEmpty_true in Hv.
    unfold Gen2.buildSearchQuery, joinNonEmpty.
    fold (venueOf row) (cityOf row). rewrite Hv. reflexivity.
  - intros Hv. apply nonEmpty_false in Hv.
    unfold Gen2.buildSearchQuery, joinNonEmpty.
    fold (venueOf row) (cityOf row) (titleOf row). rewrite Hv. reflexivity.
  - eapply endsWith_trans; [|exact Hend].
    exists (cityOf row ++ " "). rewrite append_assoc. reflexivity.
  - exact Hend.
  - reflexivity.
  - rewrite gen1_query_parts. apply concat_ends1.
Qed.

Lemma buildSearchQuery_policy_witness :
  Gen2.buildSearchQuery libraryRow
  = "Bibliotheque Meriadeck 85 cours du Marechal Juin Bordeaux France"
  /\ Gen2.buildSearchQuery (withImage JNull) = "Concert Bordeaux France".
Proof.
  split.
  - rewrite (proj1 (buildSearchQuery_policy libraryRow)).
    + reflexivity.
    + discriminate.
  - rewrite (proj1 (proj2 (buildSearchQuery_policy (withImage JNull)))).
    + reflexivity.
    + reflexivity.
Defined.

(** C7, counterexample: the first generation puts the title first
    although the row has a venue, leaves out the address, and does not
    append "France"; on a row without a venue it gives title and city
    only. *)
Lemma buildSearchQuery_first_generation_differs :
  venueOf libraryRow <> ""
  /\ Gen1.buildSearchQuery libraryRow
     = "Atelier lecture Bibliotheque Meriadeck Bordeaux"
  /\ Gen1.buildSearchQuery libraryRow
     <> String.concat " "
          (List.filter nonEmpty
             [venueOf libraryRow; strOr (row_location_address libraryRow) "";
              strOr (row_location_district libraryRow) ""; cityOf libraryRow;
              "France"])
  /\ ~ endsWith "France" (Gen1.buildSearchQuery libraryRow)
  /\ venueOf (withImage JNull) = ""
  /\ Gen1.buildSearchQuery (withImage JNull) = "Concert Bordeaux"
  /\ Gen1.buildSearchQuery (withImage JNull)
     <> String.concat " "
          (List.filter nonEmpty
             [titleOf (withImage JNull); cityOf (withImage JNull); "France"]).
Proof.
  split; [|split; [|split; [|split; [|split; [|split]]]]].
  - discriminate.
  - reflexivity.
  - vm_compute. discriminate.
  - intros H. apply endsWith_last in H. vm_compute in H. discriminate H.
  - reflexivity.
  - reflexivity.
  - vm_compute. discriminate.
Qed.

(* ===================================================================== *)
(** ** The image field *)
(* ===================================================================== *)

(** C8.  [isMissingImage] is true for an absent or null field, an empty
    or whitespace-only string, an empty array, and an object with neither
    a url nor an href; it is false for a string that is not blank, a
    non-empty array (so one whose first element carries a url) and an
    object with a url.  On a string it is true exactly when the string
    is made of white-space characters only, those of the language: the
    ASCII ones and the no-break space, the byte order mark and the
    other Unicode spaces and line separators. *)
Theorem isMissingImage_shapes (row : Row) :
  let v := row_location_image row in
  (v = JUndefined -> isMissingImage row = true)
  /\ (v = JNull -> isMissingImage row = true)
  /\ (forall s, v = JStr s -> trim s = "" -> isMissingImage row = true)
  /\ (v = JArr [] -> isMissingImage row = true)
  /\ (forall fields, v = JObj fields ->
        truthy (assoc "url" fields) = false ->
        truthy (assoc "href" fields) = false ->
        isMissingImage row = true)
  /\ (forall s, v = JStr s -> trim s <> "" -> isMissingImage row = false)
  /\ (forall first others, v = JArr (first :: others) ->
        isMissingImage row = false)
  /\ (forall fields, v = JObj fields ->
        truthy (assoc "url" fields) = true ->
        isMissingImage row = false)
  /\ (forall s, v = JStr s -> (isMissingImage row = true <-> blank s)).
Proof.
  unfold isMissingImage. cbv zeta.
  split; [|split; [|split; [|split; [|split; [|split; [|split; [|split]]]]]]].
  - intros ->. reflexivity.
  - intros ->. reflexivity.
  - intros s -> Ht. rewrite Ht. reflexivity.
  - intros ->. reflexivity.
  - intros fields -> Hu Hh. unfold jor, getProp. rewrite Hu, Hh. reflexivity.
  - intros s -> Ht. destruct (String.eqb_spec (trim s) ""); congruence.
  - intros first others ->. reflexivity.
  - intros fields -> Hu. unfold jor, getProp. rewrite Hu, Hu. reflexivity.
  - intros s ->. rewrite <- trim_blank. apply String.eqb_eq.
Qed.

(** The seven shapes of the specification, and a string of a space, a
    no-break space and a byte order mark. *)
Lemma isMissingImage_shapes_witness :
  isMissingImage (withImage JNull) = true
  /\ isMissingImage (withImage (JStr "")) = true
  /\ isMissingImage (withImage (JStr "   ")) = true
  /\ isMissingImage (withImage (JArr [])) = true
  /\ isMissingImage (withImage (JObj [])) = true
  /\ isMissingImage (withImage (JStr "http://x")) = false
  /\ isMissingImage (withImage (JArr [JObj [("url", JStr "http://x")]])) = false
  /\ isMissingImage (withImage (JObj [("url", JStr "http://x")])) = false
  /\ isMissingImage (withImage (JStr (" " ++ nbsp ++ bom))) = true.
Proof.
  split; [|split; [|split; [|split; [|split; [|split; [|split; [|split]]]]]]].
  - destruct (isMissingImage_shapes (withImage JNull)) as (_ & H & _).
    apply H. reflexivity.
  - destruct (isMissingImage_shapes (withImage (JStr "")))
      as (_ & _ & H & _).
    apply (H ""); reflexivity.
  - destruct (isMissingImage_shapes (withImage (JStr "   ")))
      as (_ & _ & H & _).
    apply (H "   "); reflexivity.
  - destruct (isMissingImage_shapes (withImage (JArr [])))
      as (_ & _ & _ & H & _).
    apply H. reflexivity.
  - destruct (isMissingImage_shapes (withImage (JObj [])))
      as (_ & _ & _ & _ & H & _).
    apply (H []); reflexivity.
  - destruct (isMissingImage_shapes (withImage (JStr "http://x")))
      as (_ & _ & _ & _ & _ & H & _).
    apply (H "http://x"); [reflexivity | discriminate].
  - destruct (isMissingImage_shapes
                (withImage (JArr [JObj [("url", JStr "http://x")]])))
      as (_ & _ & _ & _ & _ & _ & H & _).
    apply (H (JObj [("url", JStr "http://x")]) []). reflexivity.
  - destruct (isMissingImage_shapes
                (withImage (JObj [("url", JStr "http://x")])))
      as (_ & _ & _ & _ & _ & _ & _ & H & _).
    apply (H [("url", JStr "http://x")]); reflexivity.
  - destruct (isMissingImage_shapes (withImage (JStr (" " ++ nbsp ++ bom))))
      as (_ & _ & H & _).
    apply (H (" " ++ nbsp ++ bom)); reflexivity.
Defined.

(* ===================================================================== *)
(** ** Cache merge *)
(* ===================================================================== *)

Section CacheMerge.
Implicit Types (store : gmap string Entry) (pr : option Entry)
               (id slug k : string) (entry e : Entry).

(** *** Reading and writing a key *)

Lemma inheritedName_proto k :
  inheritedName k = false -> String.eqb k "__proto__" = false.
Proof.
  intros H. destruct (String.eqb_spec k "__proto__") as [->|_];
    [discriminate H | reflexivity].
Qed.

Lemma inheritedKey_false pr k :
  inheritedKey pr k = false ->
  inheritedName k = false
  /\ match pr with Some e => entryProp e k | None => None end = None.
Proof.
  unfold inheritedKey. intros H. apply orb_false_iff in H as [Hn Hp].
  split; [exact Hn|]. destruct pr as [e|]; [|reflexivity].
  apply bool_decide_eq_false in Hp.
  destruct (entryProp e k); [|reflexivity]. exfalso. apply Hp. eauto.
Qed.

Lemma inheritedKey_empty pr : inheritedKey pr "" = false.
Proof. destruct pr; reflexivity. Qed.

(** On a key that is not inherited, reading is the lookup among the own
    properties. *)
Lemma getKey_plain store pr k :
  inheritedKey pr k = false ->
  getKey store pr k
  = match store !! k with Some e => GotEntry e | None => GotNothing end.
Proof.
  intros H. apply inheritedKey_false in H as [Hn Hp].
  unfold getKey. destruct (store !! k); [reflexivity|].
  rewrite (inheritedName_proto _ Hn), Hp, Hn. reflexivity.
Qed.

Lemma getKey_own store pr k e :
  store !! k = Some e -> getKey store pr k = GotEntry e.
Proof. intros H. unfold getKey. rewrite H. reflexivity. Qed.

(** What is read as absent is not an own property, and is not the key
    of the prototype. *)
Lemma getKey_absent store pr k :
  gotTruthy (getKey store pr k) = false ->
  store !! k = None /\ String.eqb k "__proto__" = false.
Proof.
  unfold getKey. destruct (store !! k); [discriminate|].
  destruct (String.eqb k "__proto__"); [|auto].
  destruct pr; discriminate.
Qed.

Lemma setKey_plain store pr k entry :
  String.eqb k "__proto__" = false ->
  setKey store pr k entry = (<[k := entry]> store, pr).
Proof. intros H. unfold setKey. rewrite H. reflexivity. Qed.

Lemma setKey_own store pr k e entry :
  store !! k = Some e ->
  setKey store pr k entry = (<[k := entry]> store, pr).
Proof.
  intros H. unfold setKey. rewrite H.
  rewrite (bool_decide_eq_true_2 (is_Some (Some e))) by eauto.
  rewrite andb_false_r. reflexivity.
Qed.

Lemma setKey_cases store pr k entry :
  setKey store pr k entry = (<[k := entry]> store, pr)
  \/ (k = "__proto__" /\ store !! k = None
      /\ setKey store pr k entry = (store, Some entry)).
Proof.
  unfold setKey. destruct (String.eqb_spec k "__proto__") as [->|Hne];
    [|left; reflexivity].
  destruct (store !! "__proto__") as [e|] eqn:Hl.
  - left. rewrite (bool_decide_eq_true_2 (is_Some (Some e))) by eauto.
    reflexivity.
  - right. rewrite (bool_decide_eq_false_2 (is_Some None));
      [auto | intros [x Hx]; discriminate Hx].
Qed.

Lemma setKey_holds store pr k entry :
  holds (fst (setKey store pr k entry)) (snd (setKey store pr k entry))
        k entry.
Proof.
  destruct (setKey_cases store pr k entry) as [->|(Hk & Hn & ->)]; cbn [fst snd].
  - left. apply lookup_insert_eq.
  - right. auto.
Qed.

Lemma holds_setKey store pr k entry :
  holds store pr k entry -> setKey store pr k entry = (store, pr).
Proof.
  intros [Ho|(-> & Hn & ->)].
  - rewrite (setKey_own _ _ _ _ _ Ho). rewrite insert_id by exact Ho.
    reflexivity.
  - unfold setKey. rewrite Hn.
    rewrite (bool_decide_eq_false_2 (is_Some None));
      [reflexivity | intros [x Hx]; discriminate Hx].
Qed.

Lemma holds_truthy store pr k e :
  holds store pr k e -> gotTruthy (getKey store pr k) = true.
Proof.
  intros [Ho|(-> & Hn & ->)]; unfold getKey.
  - rewrite Ho. reflexivity.
  - rewrite Hn. reflexivity.
Qed.

Lemma holds_insert store pr k k' e :
  String.eqb k' "__proto__" = false ->
  holds store pr k e -> holds (<[k' := e]> store) pr k e.
Proof.
  intros Hk' [Ho|(-> & Hn & ->)].
  - left. destruct (decide (k' = k)) as [->|Hne].
    + apply lookup_insert_eq.
    + rewrite lookup_insert_ne by exact Hne. exact Ho.
  - right. split; [reflexivity|]. split; [|reflexivity].
    rewrite lookup_insert_ne; [exact Hn|].
    intros ->. discriminate Hk'.
Qed.

(** *** The test *)

Lemma alreadyCached_own store pr id :
  id <> "" -> hasUrl store id -> alreadyCached store pr id = true.
Proof.
  intros Hid (e & He & Hu). unfold alreadyCached.
  apply nonEmpty_true in Hid. rewrite Hid, (getKey_own _ _ _ _ He).
  exact Hu.
Qed.

Lemma alreadyCached_true store pr id :
  inheritedKey pr id = false ->
  alreadyCached store pr id = true <-> id <> "" /\ hasUrl store id.
Proof.
  intros Hp. unfold alreadyCached, hasUrl.
  rewrite andb_true_iff, nonEmpty_true, getKey_plain by exact Hp.
  split.
  - intros [Hid Hu]. split; [exact Hid|].
    destruct (store !! id) as [e|]; [|discriminate]. eauto.
  - intros [Hid (e & He & Hu)]. split; [exact Hid|]. rewrite He. exact Hu.
Qed.

Lemma alreadyCached_false store pr id :
  inheritedKey pr id = false ->
  ~ hasUrl store id -> alreadyCached store pr id = false.
Proof.
  intros Hp Hn. destruct (alreadyCached store pr id) eqn:Hc; [|reflexivity].
  apply alreadyCached_true in Hc; tauto.
Qed.

Lemma alreadyCached_empty_id store pr : alreadyCached store pr "" = false.
Proof. reflexivity. Qed.

(** *** The write *)

(** The slug alias rule, on the store the id write produced. *)
Lemma slug_rule (store1 : gmap string Entry) pr slug entry :
  inheritedKey pr slug = false ->
  (if nonEmpty slug && negb (gotTruthy (getKey store1 pr slug))
   then setKey store1 pr slug entry else (store1, pr))
  = (if decide (slug <> "" /\ store1 !! slug = None)
     then <[slug := entry]> store1 else store1, pr).
Proof.
  intros Hp. rewrite getKey_plain by exact Hp.
  apply inheritedKey_false in Hp as [Hn _].
  rewrite (setKey_plain _ _ _ _ (inheritedName_proto _ Hn)).
  destruct (decide (slug <> "" /\ store1 !! slug = None)) as [[Hs Hl]|Hl].
  - apply nonEmpty_true in Hs. rewrite Hs, Hl. reflexivity.
  - destruct (nonEmpty slug) eqn:Hs; [|reflexivity].
    apply nonEmpty_true in Hs. cbn [andb].
    destruct (store1 !! slug) eqn:Hl'; [reflexivity|].
    exfalso. apply Hl. auto.
Qed.

Lemma writeEntry_id store pr id slug entry :
  id <> "" -> inheritedKey pr id = false -> inheritedKey pr slug = false ->
  writeEntry store pr id slug entry
  = (if decide (slug <> "" /\ store !! slug = None)
     then <[slug := entry]> (<[id := entry]> store)
     else <[id := entry]> store, pr).
Proof.
  intros Hid Hpi Hps. unfold writeEntry. cbv zeta.
  apply nonEmpty_true in Hid as Hne. rewrite Hne.
  apply inheritedKey_false in Hpi as [Hn _].
  rewrite (setKey_plain _ _ _ _ (inheritedName_proto _ Hn)). cbn [fst snd].
  rewrite slug_rule by exact Hps.
  destruct (decide (slug = id)) as [->|Hne'].
  - rewrite lookup_insert_eq.
    destruct (decide (id <> "" /\ Some entry = None)) as [[_ H]|_];
      [discriminate H|].
    destruct (decide (id <> "" /\ store !! id = None)); [|reflexivity].
    rewrite insert_insert_eq. reflexivity.
  - rewrite lookup_insert_ne by congruence. reflexivity.
Qed.

Lemma writeEntry_no_id store pr slug entry :
  inheritedKey pr slug = false ->
  writeEntry store pr "" slug entry
  = (if decide (slug <> "" /\ store !! slug = None)
     then <[slug := entry]> store else store, pr).
Proof.
  intros Hps. unfold writeEntry. cbv zeta.
  cbn [nonEmpty String.eqb negb fst snd]. apply slug_rule. exact Hps.
Qed.

(** What the write leaves: the state after the write under the id, with
    the entry under the slug as an own property when the slug was read as
    absent. *)
Lemma writeEntry_shape store pr uid slug entry :
  let after1 := if nonEmpty uid then setKey store pr uid entry
                else (store, pr) in
  (writeEntry store pr uid slug entry = after1
   /\ (nonEmpty slug && negb (gotTruthy (getKey (fst after1) (snd after1) slug))
       = false))
  \/ (writeEntry store pr uid slug entry
      = (<[slug := entry]> (fst after1), snd after1)
      /\ nonEmpty slug = true
      /\ fst after1 !! slug = None
      /\ String.eqb slug "__proto__" = false).
Proof.
  cbv zeta. unfold writeEntry. cbv zeta.
  set (after1 := if nonEmpty uid then setKey store pr uid entry
                 else (store, pr)).
  destruct (nonEmpty slug && negb (gotTruthy (getKey (fst after1) (snd after1) slug)))
    eqn:Hc; [right | left; auto].
  apply andb_true_iff in Hc as [Hs Hg]. apply negb_true_iff in Hg.
  apply getKey_absent in Hg as [Hl Hp].
  rewrite (setKey_plain _ _ _ _ Hp). auto.
Qed.

(** Once written, writing again changes nothing. *)
Lemma writeEntry_twice store pr id slug entry :
  writeEntry (fst (writeEntry store pr id slug entry))
             (snd (writeEntry store pr id slug entry)) id slug entry
  = writeEntry store pr id slug entry.
Proof.
  pose proof (writeEntry_shape store pr id slug entry) as Hshape.
  cbv zeta in Hshape.
  set (after1 := if nonEmpty id then setKey store pr id entry
                 else (store, pr)) in Hshape.
  assert (Hid : nonEmpty id = true ->
                holds (fst after1) (snd after1) id entry).
  { intros Hne. subst after1. rewrite Hne. apply setKey_holds. }
  destruct Hshape as [[Heq Hc]|(Heq & Hs & Hl & Hp)]; rewrite Heq.
  - unfold writeEntry at 1. cbv zeta.
    assert (H1 : (if nonEmpty id
                  then setKey (fst after1) (snd after1) id entry
                  else (fst after1, snd after1)) = after1).
    { destruct (nonEmpty id) eqn:Hne.
      - rewrite holds_setKey by auto. destruct after1; reflexivity.
      - destruct after1; reflexivity. }
    rewrite H1, Hc. reflexivity.
  - cbn [fst snd]. unfold writeEntry at 1. cbv zeta.
    assert (H1 : (if nonEmpty id
                  then setKey (<[slug := entry]> (fst after1)) (snd after1)
                              id entry
                  else (<[slug := entry]> (fst after1), snd after1))
                 = (<[slug := entry]> (fst after1), snd after1)).
    { destruct (nonEmpty id) eqn:Hne; [|reflexivity].
      apply holds_setKey, holds_insert; auto. }
    rewrite H1. cbn [fst snd].
    rewrite (getKey_own _ _ _ entry) by apply lookup_insert_eq.
    cbn [gotTruthy negb]. rewrite andb_false_r. reflexivity.
Qed.

Lemma mergeEntry_twice store pr id slug entry :
  mergeEntry (fst (mergeEntry store pr id slug entry))
             (snd (mergeEntry store pr id slug entry)) id slug entry
  = mergeEntry store pr id slug entry.
Proof.
  assert (H : (mergeEntry store pr id slug entry = (store, pr)
               /\ alreadyCached store pr id = true)
              \/ mergeEntry store pr id slug entry
                 = writeEntry store pr id slug entry).
  { unfold mergeEntry. destruct (alreadyCached store pr id); auto. }
  destruct H as [[-> Hc]| ->].
  - cbn [fst snd]. unfold mergeEntry. rewrite Hc. reflexivity.
  - unfold mergeEntry.
    destruct (alreadyCached _ _ id);
      [destruct (writeEntry store pr id slug entry); reflexivity
      | apply writeEntry_twice].
Qed.

(** *** The two halves of the task *)

(** A task whose write finds the store its test saw applies
    [mergeEntry] with the entry built from what the selection
    returned. *)
Lemma halves_merge (bq : Row -> string) (w : World) (row : Row)
    (st : RunState) (c : Candidate) :
  truthy (url c) = true ->
  let st' := match taskCheck row st with
             | Some st1 => st1
             | None => taskCommit bq w row (Some c) st
             end in
  (existing st', proto st')
  = mergeEntry (existing st) (proto st) (rowUid row) (rowSlug row)
      {| picked := c; entry_q := bq row; updated_at := clock w |}.
Proof.
  intros Hu. cbv zeta. unfold taskCheck, mergeEntry. cbv zeta.
  destruct (nonEmpty (rowUid row)) eqn:Huid;
    destruct (nonEmpty (rowSlug row)) eqn:Hslug; cbn [negb andb].
  1,2: destruct (alreadyCached (existing st) (proto st) (rowUid row)) eqn:Hc;
       [reflexivity|];
       unfold taskCommit; cbv zeta; rewrite Hu; cbn [existing proto];
       destruct (writeEntry _ _ _ _ _); reflexivity.
  - assert (Hc : alreadyCached (existing st) (proto st) (rowUid row) = false)
      by (unfold alreadyCached; rewrite Huid; reflexivity).
    rewrite Hc. unfold taskCommit. cbv zeta. rewrite Hu. cbn [existing proto].
    destruct (writeEntry _ _ _ _ _); reflexivity.
  - assert (Hc : alreadyCached (existing st) (proto st) (rowUid row) = false)
      by (unfold alreadyCached; rewrite Huid; reflexivity).
    rewrite Hc. unfold writeEntry. cbv zeta.
    rewrite Huid, Hslug. reflexivity.
Qed.

(** The task of [main] run alone applies [mergeEntry]. *)
Lemma eventTask_merges (pick : Row -> M (option Candidate))
    (bq : Row -> string) (w : World) (row : Row) (st : RunState)
    (log : list Call) (c : Candidate) :
  run (pick row) = (log, Ok (Some c)) ->
  truthy (url c) = true ->
  (existing (fst (eventTask pick bq w row st)),
   proto (fst (eventTask pick bq w row st)))
  = mergeEntry (existing st) (proto st) (rowUid row) (rowSlug row)
      {| picked := c; entry_q := bq row; updated_at := clock w |}.
Proof.
  intros Hrun Hu. rewrite <- (halves_merge bq w row st c Hu). cbv zeta.
  unfold eventTask. destruct (taskCheck row st); [reflexivity|].
  rewrite Hrun. reflexivity.
Qed.


(** A task whose selection returned is its test followed, when the
    test did not end it, by its write. *)
Lemma eventTask_halves (pick : Row -> M (option Candidate))
    (bq : Row -> string) (w : World) (row : Row) (st : RunState)
    (log : list Call) (p : option Candidate) :
  run (pick row) = (log, Ok p) ->
  fst (eventTask pick bq w row st)
  = match taskCheck row st with
    | Some st' => runHalves bq w [Test row] st
    | None => runHalves bq w [Test row; Store row p] st
    end.
Proof.
  intros Hrun. unfold eventTask, runHalves. cbn [fold_left runHalf].
  destruct (taskCheck row st) as [st'|] eqn:Hc; [reflexivity|].
  rewrite Hrun. reflexivity.
Qed.

(** The identifier of a row is empty exactly when the field is absent,
    empty or made of white space only. *)
Lemma rowUid_blank (row : Row) :
  rowUid row = "" <-> blank (strOr (row_uid row) "").
Proof. apply trim_blank. Qed.

Lemma rowSlug_blank (row : Row) :
  rowSlug row = "" <-> blank (strOr (row_slug row) "").
Proof. apply trim_blank. Qed.

(** C10.  A row whose uid and slug both trim to the empty string makes
    the task return at once, in whatever state the run is: its first
    half ends it and leaves the run state (the store and both counters)
    as found, so that the task issues no request and writes nothing. *)
Theorem eventTask_without_identifier (pick : Row -> M (option Candidate))
    (bq : Row -> string) (w : World) (row : Row) (st : RunState) :
  rowUid row = "" -> rowSlug row = "" ->
  taskCheck row st = Some st
  /\ eventTask pick bq w row st = (st, ([], Ok tt)).
Proof.
  intros Hu Hs. unfold eventTask, taskCheck. cbv zeta.
  rewrite Hu, Hs. split; reflexivity.
Qed.

End CacheMerge.



(** Two tasks for the same uid, both tested before either writes (as the
    limiter allows with a bound of 2 or more): the second write replaces
    the entry the first one stored, url and all, and both count as
    additions. *)
Example overlapping_tasks_replace_entry :
  let bq := Gen2.buildSearchQuery in
  let a := sampleCandidate "http://a" in
  let b := sampleCandidate "http://b" in
  let st1 := runHalves bq offlineWorld
               [Test libraryRow; Test libraryRow; Store libraryRow (Some a)]
               emptyRun in
  let st2 := runHalf bq offlineWorld st1 (Store libraryRow (Some b)) in
  taskCheck libraryRow emptyRun = None
  /\ option_map (fun e => url (picked e)) (existing st1 !! "E1")
     = Some (JStr "http://a")
  /\ option_map (fun e => url (picked e)) (existing st2 !! "E1")
     = Some (JStr "http://b")
  /\ added st2 = 2.
Proof. vm_compute. auto. Qed.

(** Keys that the store object inherits: an entry is not stored under
    the slug [constructor], which reads as present, and a uid
    [__proto__] creates no key (the entry becomes the prototype, through
    which its properties are then read). *)
Example inherited_keys_are_not_written :
  let e := sampleEntry "http://new" in
  fst (writeEntry ∅ None "E1" "constructor" e) !! "constructor" = None
  /\ writeEntry ∅ None "__proto__" "" e = (∅, Some e)
  /\ getKey ∅ (Some e) "url" = GotValue (JStr "http://new").
Proof. vm_compute. auto. Qed.

(** The uid of the row is a space, a no-break space and a byte order
    mark. *)
Lemma eventTask_without_identifier_witness :
  taskCheck unnamedRow emptyRun = Some emptyRun
  /\ eventTask (@Gen2.pickBestImageForEvent asciiOps defaultConfig offlineWorld)
               Gen2.buildSearchQuery offlineWorld
               unnamedRow emptyRun
     = (emptyRun, ([], Ok tt)).
Proof.
  apply eventTask_without_identifier; reflexivity.
Defined.

(* ===================================================================== *)
(** ** Ranking and acceptance of search results *)
(* ===================================================================== *)

Section Ranking.
Context {A : Type}.
Implicit Types (x y z : A * Z) (l : list (A * Z)).

Lemma insertDesc_In x l z : In z (insertDesc x l) <-> z = x \/ In z l.
Proof.
  induction l as [|y r IH]; simpl.
  - intuition.
  - destruct (snd y <=? snd x); simpl; [intuition|].
    rewrite IH. intuition.
Qed.

Lemma sortDesc_In l z : In z (sortDesc l) <-> In z l.
Proof.
  induction l as [|x l IH]; simpl; [reflexivity|].
  rewrite insertDesc_In, IH. intuition.
Qed.

Lemma insertDesc_headMax x l : headMax l -> headMax (insertDesc x l).
Proof.
  destruct l as [|y r]; simpl.
  - intros _ z [->|[]]. lia.
  - intros Hmax. destruct (snd y <=? snd x) eqn:Hle; simpl.
    + apply Z.leb_le in Hle. intros z [->|Hz]; [lia|].
      specialize (Hmax z Hz). lia.
    + apply Z.leb_gt in Hle. intros z [->|Hz]; [lia|].
      apply insertDesc_In in Hz as [->|Hz]; [lia|].
      apply Hmax. right. exact Hz.
Qed.

Lemma sortDesc_headMax l : headMax (sortDesc l).
Proof.
  induction l as [|x l IH]; simpl; [exact I|].
  apply insertDesc_headMax, IH.
Qed.

Lemma insertDesc_nonempty x l : insertDesc x l <> [].
Proof. destruct l as [|y r]; simpl; [|destruct (snd y <=? snd x)]; discriminate. Qed.

End Ranking.

(** [bestBy] picks an element of the list whose score is the largest. *)
Lemma bestBy_max {A} (score : A -> Z) (l : list A) :
  l <> [] ->
  exists best, bestBy score l = Some best
               /\ In best l
               /\ forall r, In r l -> score r <= score best.
Proof.
  intros Hne. unfold bestBy.
  pose proof (sortDesc_headMax (List.map (fun x => (x, score x)) l)) as Hmax.
  pose proof (sortDesc_In (List.map (fun x => (x, score x)) l)) as Hin.
  destruct (sortDesc (List.map (fun x => (x, score x)) l)) as [|[b s] rest]
    eqn:Hs.
  - destruct l as [|x l]; [congruence|].
    simpl in Hs. exfalso. eapply insertDesc_nonempty, Hs.
  - exists b. split; [reflexivity|].
    assert (Hb : In (b, s) (List.map (fun x => (x, score x)) l))
      by (apply Hin; left; reflexivity).
    apply in_map_iff in Hb as (b' & Hb' & Hbl).
    inversion Hb'; subst b' s. split; [exact Hbl|].
    intros r Hr. simpl in Hmax.
    specialize (Hmax (r, score r)). simpl in Hmax. apply Hmax.
    apply Hin. apply in_map_iff. exists r. auto.
Qed.

Section Acceptance.
Context {U : UnicodeOps}.

Lemma openverse_width_rule (minWidth : Z) (r : OVResult) :
  truthy (url (toMappingFromOpenverse r))
  && ((minWidth <=? numOr0 (ov_width r)) || (numOr0 (ov_width r) =? 0)) = true
  <-> accepted minWidth (toMappingFromOpenverse r).
Proof.
  unfold accepted. cbn [width toMappingFromOpenverse].
  rewrite andb_true_iff, orb_true_iff, Z.leb_le, Z.eqb_eq.
  unfold numOrNull, numOr0.
  destruct (ov_width r) as [wd|].
  - destruct (Z.eqb_spec wd 0) as [->|Hnz].
    + intuition.
    + split.
      * intros [Hu [Hle|Hz]]; [|contradiction].
        split; [exact Hu|]. right. exists wd. auto.
      * intros [Hu [Hn|(wd' & Heq & Hle)]]; [discriminate Hn|].
        inversion Heq; subst wd'. auto.
  - intuition.
Qed.

(** C2 (as amended).  Among non-empty results, the selection takes a
    result of maximal score.  For the Openverse search it is accepted
    exactly when its url is non-empty and its width is unknown or at
    least [MIN_WIDTH]; for the Wikimedia Commons fallback of the first
    generation it is accepted exactly when its url is non-empty, whatever
    its width. *)
Theorem search_acceptance (preferred : list string) (cfg : Config)
    (evTokens : list string) :
  (forall results, results <> [] ->
     exists best,
       In best results
       /\ (forall r, In r results ->
             scoreOpenverseResult preferred (MIN_WIDTH cfg) evTokens r
             <= scoreOpenverseResult preferred (MIN_WIDTH cfg) evTokens best)
       /\ (accepted (MIN_WIDTH cfg) (toMappingFromOpenverse best) ->
           selectOpenverse preferred cfg evTokens results
           = Some (toMappingFromOpenverse best))
       /\ (~ accepted (MIN_WIDTH cfg) (toMappingFromOpenverse best) ->
           selectOpenverse preferred cfg evTokens results = None))
  /\ (forall encodeTitle pages, pages <> [] ->
        exists best,
          In best pages
          /\ (forall p, In p pages ->
                Gen1.scoreCommonsPage (MIN_WIDTH cfg) evTokens p
                <= Gen1.scoreCommonsPage (MIN_WIDTH cfg) evTokens best)
          /\ (truthy (url (Gen1.toMappingFromCommons encodeTitle best)) = true ->
              Gen1.selectCommons encodeTitle cfg evTokens pages
              = Some (Gen1.toMappingFromCommons encodeTitle best))
          /\ (truthy (url (Gen1.toMappingFromCommons encodeTitle best)) = false ->
              Gen1.selectCommons encodeTitle cfg evTokens pages = None)).
Proof.
  split.
  - intros results Hne.
    destruct (bestBy_max
                (scoreOpenverseResult preferred (MIN_WIDTH cfg) evTokens)
                results Hne) as (best & Hbest & Hin & Hmax).
    exists best. split; [exact Hin|]. split; [exact Hmax|].
    unfold selectOpenverse. rewrite Hbest. cbv zeta.
    split.
    + intros Hacc. apply openverse_width_rule in Hacc. rewrite Hacc.
      reflexivity.
    + intros Hrej.
      destruct (truthy (url (toMappingFromOpenverse best))
                && ((MIN_WIDTH cfg <=? numOr0 (ov_width best))
                    || (numOr0 (ov_width best) =? 0))) eqn:Hc;
        [|reflexivity].
      apply openverse_width_rule in Hc. contradiction.
  - intros encodeTitle pages Hne.
    destruct (bestBy_max (Gen1.scoreCommonsPage (MIN_WIDTH cfg) evTokens)
                pages Hne) as (best & Hbest & Hin & Hmax).
    exists best. split; [exact Hin|]. split; [exact Hmax|].
    unfold Gen1.selectCommons. rewrite Hbest. cbv zeta.
    split; intros ->; reflexivity.
Qed.

End Acceptance.

(** Width 400 against a minimum of 600 is rejected, an unknown width is
    accepted. *)
Lemma search_acceptance_witness :
  @selectOpenverse asciiOps Gen2.PREFERRED_OPENVERSE_PROVIDERS defaultConfig
    ["concert"; "bordeaux"; "france"] [photo "http://o/400.jpg" (Some 400)]
  = None
  /\ @selectOpenverse asciiOps Gen2.PREFERRED_OPENVERSE_PROVIDERS defaultConfig
       ["concert"; "bordeaux"; "france"] [photo "http://o/x.jpg" None]
     = Some (toMappingFromOpenverse (photo "http://o/x.jpg" None)).
Proof.
  split.
  - destruct (proj1 (@search_acceptance asciiOps
                       Gen2.PREFERRED_OPENVERSE_PROVIDERS defaultConfig
                       ["concert"; "bordeaux"; "france"])
                [photo "http://o/400.jpg" (Some 400)])
      as (best & Hin & _ & _ & Hrej); [discriminate|].
    destruct Hin as [<-|[]]. apply Hrej.
    intros [_ [Hn|(wd & Heq & Hle)]]; [discriminate Hn|].
    inversion Heq; subst wd. vm_compute in Hle. apply Hle. reflexivity.
  - destruct (proj1 (@search_acceptance asciiOps
                       Gen2.PREFERRED_OPENVERSE_PROVIDERS defaultConfig
                       ["concert"; "bordeaux"; "france"])
                [photo "http://o/x.jpg" None])
      as (best & Hin & _ & Hacc & _); [discriminate|].
    destruct Hin as [<-|[]]. apply Hacc.
    split; [reflexivity|]. left. reflexivity.
Defined.

(** C2, counterexample: the Commons fallback of the first generation
    returns a candidate whose width (400) is known and below [MIN_WIDTH]
    (1200). *)
Lemma commons_accepts_small_width :
  exists log c,
    run (@Gen1.pickBestImageForEvent asciiOps (fun t => t) gen1Config
           commonsWorld (withImage JNull)) = (log, Ok (Some c))
    /\ provider c = "Wikimedia Commons"
    /\ width c = Some 400
    /\ 400 < MIN_WIDTH gen1Config
    /\ ~ accepted (MIN_WIDTH gen1Config) c.
Proof.
  eexists _, _. split; [vm_compute; reflexivity|].
  split; [reflexivity|]. split; [reflexivity|]. split; [reflexivity|].
  intros [_ [Hn|(wd & Heq & Hle)]]; [discriminate Hn|].
  inversion Heq; subst wd. vm_compute in Hle. apply Hle. reflexivity.
Qed.

(* ===================================================================== *)
(** ** Selection policy *)
(* ===================================================================== *)

Section Selection.
Context {U : UnicodeOps}.
Implicit Types (cfg : Config) (w : World) (row : Row) (log : list Call).

(** Each adapter issues exactly one request; only the OpenAgenda one can
    let a failure through. *)
Lemma openAgendaStep_log cfg w row log :
  exists r,
    openAgendaStep cfg w row (agendaUidOf row) log
    = ((log ++ [ReqOpenAgenda (agendaUidOf row) (rowUid row)
                  (OPENAGENDA_KEY cfg)])%list, r).
Proof.
  unfold openAgendaStep, fetchOpenAgendaEvent, bind, await, ret.
  fold (rowUid row).
  destruct (http_openagenda w _ _ _) as [res|]; [|eauto].
  destruct (res_ok res); cbn [negb]; [|eauto].
  destruct (res_json res) as [[data|]|]; [|eauto|eauto].
  destruct (data_event data) as [e|];
    match goal with
    | |- context [pickOAImage ?x] => destruct (pickOAImage x) as [[u cr]|]
    end; eauto.
Qed.

Lemma libraryStep_log w row log :
  exists r,
    tryCatch (Gen2.libraryStep w row) (ret None) log
    = ((log ++ [ReqLibrary row])%list, Ok r).
Proof.
  unfold tryCatch, Gen2.libraryStep, bind, await, ret.
  destruct (scrape_library w row) as [[c|]|]; [|eauto|eauto].
  destruct (truthy (url c)); eauto.
Qed.

Lemma openverseStep_log (preferred : list string) cfg w (q : string)
    (evTokens : list string) log :
  exists r,
    tryCatch (openverseStep preferred cfg w q evTokens) (ret None) log
    = ((log ++ [ReqOpenverse q])%list, Ok r).
Proof.
  unfold tryCatch, openverseStep, openverseSearch, bind, await, ret, throw.
  destruct (http_openverse w q) as [res|]; [|eauto].
  destruct (res_ok res); cbn [negb]; [|eauto].
  destruct (res_json res) as [[results|]|]; eauto.
Qed.

(** The cascade of the source is the chain of the specification. *)
Lemma pickBestImageForEvent_firstAccepted cfg w row log :
  Gen2.pickBestImageForEvent cfg w row log
  = firstAccepted (selectionChain cfg w row) log.
Proof.
  unfold Gen2.pickBestImageForEvent, selectionChain. cbv zeta.
  cbn [firstAccepted applies attempt]. fold (agendaUidOf row).
  unfold bind, ret.
  destruct (truthy (bestImageUrlFromRow row)); [reflexivity|].
  destruct (openAgendaEnabled cfg (agendaUidOf row));
    [destruct (openAgendaStep cfg w row (agendaUidOf row) log)
       as [l1 [[c|]|]]; try reflexivity|];
    (destruct (isBibliotheque row);
     [match goal with
      | |- context [tryCatch (Gen2.libraryStep w row) ?h ?l] =>
          destruct (tryCatch (Gen2.libraryStep w row) h l) as [l2 [[c2|]|]]
      end; try reflexivity|]);
    match goal with
    | |- context [tryCatch (openverseStep ?p1 ?p2 ?p3 ?p4 ?p5) ?h ?l] =>
        destruct (tryCatch (openverseStep p1 p2 p3 p4 p5) h l)
          as [l3 [[c3|]|]]
    end; reflexivity.
Qed.

Lemma first_generation_firstAccepted (encodeTitle : string -> string)
    cfg w row log :
  Gen1.pickBestImageForEvent encodeTitle cfg w row log
  = firstAccepted (firstGenerationChain encodeTitle cfg w row) log.
Proof.
  unfold Gen1.pickBestImageForEvent, firstGenerationChain. cbv zeta.
  cbn [firstAccepted applies attempt]. fold (agendaUidOf row).
  unfold bind, ret.
  destruct (openAgendaEnabled cfg (agendaUidOf row));
    [destruct (openAgendaStep cfg w row (agendaUidOf row) log)
       as [l1 [[c|]|]]; try reflexivity|];
    (match goal with
     | |- context [tryCatch (openverseStep ?p1 ?p2 ?p3 ?p4 ?p5) ?h ?l] =>
         destruct (tryCatch (openverseStep p1 p2 p3 p4 p5) h l)
           as [l2 [[c2|]|]]
     end; try reflexivity);
    match goal with
    | |- context [tryCatch (Gen1.commonsStep ?p1 ?p2 ?p3 ?p4 ?p5) ?h ?l] =>
        destruct (tryCatch (Gen1.commonsStep p1 p2 p3 p4 p5) h l)
          as [l3 [[c3|]|]]
    end; reflexivity.
Qed.

(** Case analysis of one run of the selection: the upstream field, then
    each adapter with the request it logs. *)
Ltac pick_cases cfg w row :=
  unfold run, Gen2.pickBestImageForEvent; cbv zeta;
  fold (agendaUidOf row); unfold bind, ret;
  destruct (truthy (bestImageUrlFromRow row)) eqn:Hup;
  [|destruct (openAgendaEnabled cfg (agendaUidOf row)) eqn:Hen;
    [let r := fresh "r" in
     let H := fresh "H" in
     destruct (openAgendaStep_log cfg w row []) as [r H];
     rewrite H; clear H; destruct r as [[?c|]|]|];
    cbv beta iota;
    try (destruct (isBibliotheque row) eqn:Hbib;
         [match goal with
          | |- context [tryCatch (Gen2.libraryStep w row) ?h ?l] =>
              let r := fresh "r" in
              let H := fresh "H" in
              destruct (libraryStep_log w row l) as [r H];
              unfold ret in H; rewrite H; clear H; destruct r as [?c|]
          end|];
         cbv beta iota;
         try match goal with
             | |- context [tryCatch (openverseStep ?p1 ?p2 ?p3 ?p4 ?p5) ?h ?l] =>
                 let r := fresh "r" in
                 let H := fresh "H" in
                 destruct (openverseStep_log p1 p2 p3 p4 p5 l) as [r H];
                 unfold ret in H; rewrite H; clear H
             end)];
  cbn [fst snd app].

Lemma pick_log_sublist cfg w row :
  sublist (fst (run (Gen2.pickBestImageForEvent cfg w row)))
          (chainRequests cfg row).
Proof.
  unfold chainRequests.
  pick_cases cfg w row.
  all: repeat first [apply sublist_nil | apply sublist_skip | apply sublist_cons].
Qed.

(** C1 (as amended).  [pickBestImageForEvent] of the second generation
    is the chain UpstreamField, OfficialAgendaAPI, VenueDirectoryScraper,
    OpenMediaSearch run up to its first accepted candidate.  A row that
    carries an image gets the upstream candidate with no request at all.
    The requests issued are a subsequence of OpenAgenda, library,
    Openverse, in that order; OpenAgenda is asked exactly when the row has
    no image, the configuration enables it and the row has the agenda
    identifier, with the uid of the row as event identifier whether it is
    empty or not; the library directory only when the venue is a
    bibliotheque; and a candidate from OpenAgenda ends the selection.
    [pickBestImageForEvent] of the first generation is the chain
    OfficialAgendaAPI, OpenMediaSearch, EncyclopediaMediaSearch run up to
    its first accepted candidate, with neither an upstream step nor a
    venue step. *)
Theorem selectImage_priority_chain cfg w row :
  let picked := run (Gen2.pickBestImageForEvent cfg w row) in
  (forall log,
     Gen2.pickBestImageForEvent cfg w row log
     = firstAccepted (selectionChain cfg w row) log)
  /\ (truthy (bestImageUrlFromRow row) = true ->
      picked
      = ([], Ok (Some (Gen2.upstreamCandidate (bestImageUrlFromRow row)))))
  /\ sublist (fst picked) (chainRequests cfg row)
  /\ (In (ReqOpenAgenda (agendaUidOf row) (rowUid row) (OPENAGENDA_KEY cfg))
         (fst picked)
      <-> truthy (bestImageUrlFromRow row) = false
          /\ openAgendaEnabled cfg (agendaUidOf row) = true)
  /\ (In (ReqLibrary row) (fst picked) ->
      truthy (bestImageUrlFromRow row) = false /\ isBibliotheque row = true)
  /\ (In (ReqOpenverse (Gen2.buildSearchQuery row)) (fst picked) ->
      truthy (bestImageUrlFromRow row) = false)
  /\ (forall l c,
        truthy (bestImageUrlFromRow row) = false ->
        openAgendaEnabled cfg (agendaUidOf row) = true ->
        run (openAgendaStep cfg w row (agendaUidOf row)) = (l, Ok (Some c)) ->
        picked = (l, Ok (Some c)))
  /\ (openAgendaEnabled cfg (agendaUidOf row) = true <->
      OFFICIAL_IMAGES cfg = true /\ OPENAGENDA_KEY cfg <> ""
      /\ agendaUidOf row <> "")
  /\ (forall encodeTitle log,
        Gen1.pickBestImageForEvent encodeTitle cfg w row log
        = firstAccepted (firstGenerationChain encodeTitle cfg w row) log).
Proof.
  cbv zeta.
  split; [|split; [|split; [|split; [|split; [|split; [|split; [|split]]]]]]].
  - apply pickBestImageForEvent_firstAccepted.
  - intros Hup. unfold run, Gen2.pickBestImageForEvent. cbv zeta.
    rewrite Hup. reflexivity.
  - apply pick_log_sublist.
  - pick_cases cfg w row; cbn [In];
      intuition (try discriminate; try congruence).
  - pick_cases cfg w row; cbn [In];
      intuition (try discriminate; try congruence).
  - pick_cases cfg w row; cbn [In];
      intuition (try discriminate; try congruence).
  - intros l c Hup Hen Hoa. unfold run in *.
    unfold Gen2.pickBestImageForEvent. cbv zeta. fold (agendaUidOf row).
    rewrite Hup, Hen. unfold bind. rewrite Hoa. reflexivity.
  - unfold openAgendaEnabled. rewrite !andb_true_iff, !nonEmpty_true. tauto.
  - intros encodeTitle log. apply first_generation_firstAccepted.
Qed.

(** Among the adapters only the OpenAgenda one lets a failure out of the
    selection: the library and Openverse adapters sit in a [try]. *)
Lemma pick_throws_only_from_openagenda cfg w row :
  snd (run (Gen2.pickBestImageForEvent cfg w row)) = Thrown <->
  truthy (bestImageUrlFromRow row) = false
  /\ openAgendaEnabled cfg (agendaUidOf row) = true
  /\ snd (run (openAgendaStep cfg w row (agendaUidOf row))) = Thrown.
Proof.
  unfold run, Gen2.pickBestImageForEvent. cbv zeta. fold (agendaUidOf row).
  unfold bind, ret.
  destruct (truthy (bestImageUrlFromRow row)); cbn [snd];
    [intuition discriminate|].
  destruct (openAgendaEnabled cfg (agendaUidOf row)).
  - destruct (openAgendaStep cfg w row (agendaUidOf row) [])
      as [l1 [[c|]|]]; cbn [snd]; [intuition discriminate| |intuition].
    destruct (isBibliotheque row).
    + destruct (libraryStep_log w row l1) as [r H]. unfold ret in H.
      rewrite H. destruct r as [c|]; cbn [snd]; [intuition discriminate|].
      destruct (openverseStep_log Gen2.PREFERRED_OPENVERSE_PROVIDERS cfg w
                  (Gen2.buildSearchQuery row)
                  (tokens (Gen2.buildSearchQuery row))
                  (l1 ++ [ReqLibrary row])%list) as [r H'].
      unfold ret in H'. rewrite H'. cbn [snd]. intuition discriminate.
    + destruct (openverseStep_log Gen2.PREFERRED_OPENVERSE_PROVIDERS cfg w
                  (Gen2.buildSearchQuery row)
                  (tokens (Gen2.buildSearchQuery row)) l1) as [r H'].
      unfold ret in H'. rewrite H'. cbn [snd]. intuition discriminate.
  - destruct (isBibliotheque row).
    + destruct (libraryStep_log w row []) as [r H]. unfold ret in H.
      rewrite H. destruct r as [c|]; cbn [snd]; [intuition discriminate|].
      destruct (openverseStep_log Gen2.PREFERRED_OPENVERSE_PROVIDERS cfg w
                  (Gen2.buildSearchQuery row)
                  (tokens (Gen2.buildSearchQuery row))
                  ([] ++ [ReqLibrary row])%list) as [r H'].
      unfold ret in H'. rewrite H'. cbn [snd]. intuition discriminate.
    + destruct (openverseStep_log Gen2.PREFERRED_OPENVERSE_PROVIDERS cfg w
                  (Gen2.buildSearchQuery row)
                  (tokens (Gen2.buildSearchQuery row)) []) as [r H'].
      unfold ret in H'. rewrite H'. cbn [snd]. intuition discriminate.
Qed.

End Selection.

Lemma selectImage_priority_chain_witness :
  run (@Gen2.pickBestImageForEvent asciiOps defaultConfig offlineWorld
         (withImage (JArr [JObj [("url", JStr "http://x")]])))
  = ([], Ok (Some (Gen2.upstreamCandidate (JStr "http://x")))).
Proof.
  destruct (@selectImage_priority_chain asciiOps defaultConfig offlineWorld
              (withImage (JArr [JObj [("url", JStr "http://x")]])))
    as (_ & H & _).
  apply H. reflexivity.
Defined.

(** C1, counterexample.  A row that has the agenda identifier and no
    uid does not carry the composite key, and OpenAgenda is asked all the
    same, with an empty event identifier.  The first generation searches
    for a row that carries an image like for any other. *)
Lemma selectImage_composite_key_counterexample :
  rowUid slugOnlyRow = ""
  /\ run (@Gen2.pickBestImageForEvent asciiOps defaultConfig openverseWorld
            slugOnlyRow)
     = ([ReqOpenAgenda "4219" "" "secret";
         ReqOpenverse "Concert Bordeaux France"],
        Ok (Some (toMappingFromOpenverse
                    (photo "http://o/3000.jpg" (Some 3000)))))
  /\ truthy (bestImageUrlFromRow (withImage (JStr "http://x"))) = true
  /\ fst (run (@Gen1.pickBestImageForEvent asciiOps (fun t => t) gen1Config
                 commonsWorld (withImage (JStr "http://x"))))
     = [ReqOpenverse "Concert Bordeaux"; ReqCommonsSearch "Concert Bordeaux";
        ReqCommonsInfo ["File:Concert Bordeaux.jpg"]].
Proof. repeat split; vm_compute; reflexivity. Qed.

(** The three adapters in the order of the chain: OpenAgenda answers
    without an image, the library directory fails, Openverse delivers. *)
Example chain_runs_to_openverse :
  run (@Gen2.pickBestImageForEvent asciiOps defaultConfig openverseWorld
         libraryRow)
  = ([ReqOpenAgenda "4219" "E1" "secret"; ReqLibrary libraryRow;
      ReqOpenverse
        "Bibliotheque Meriadeck 85 cours du Marechal Juin Bordeaux France"],
     Ok (Some (toMappingFromOpenverse (photo "http://o/3000.jpg" (Some 3000))))).
Proof. vm_compute. reflexivity. Qed.

(** C3, at the failing input: the request to OpenAgenda is rejected (the
    network is down), and the failure leaves [pickBestImageForEvent] and
    the task of [main] instead of being taken as "no candidate". *)
Theorem openagenda_failure_propagates :
  run (@Gen2.pickBestImageForEvent asciiOps defaultConfig offlineWorld
         libraryRow)
  = ([ReqOpenAgenda "4219" "E1" "secret"], Thrown)
  /\ eventTask (@Gen2.pickBestImageForEvent asciiOps defaultConfig offlineWorld)
               Gen2.buildSearchQuery offlineWorld libraryRow emptyRun
     = (emptyRun, ([ReqOpenAgenda "4219" "E1" "secret"], Thrown))
  /\ run (@Gen1.pickBestImageForEvent asciiOps (fun t => t) defaultConfig
            offlineWorld libraryRow)
     = ([ReqOpenAgenda "4219" "E1" "secret"], Thrown).
Proof. repeat split; vm_compute; reflexivity. Qed.

(** The same row with OpenAgenda switched off: the failures of the
    library and Openverse adapters are absorbed and the selection returns
    [null]. *)
Example other_failures_are_caught :
  run (@Gen2.pickBestImageForEvent asciiOps
         {| OFFICIAL_IMAGES := false; OPENAGENDA_KEY := "secret";
            MIN_WIDTH := 600; CONCURRENCY := 1 |}
         offlineWorld libraryRow)
  = ([ReqLibrary libraryRow;
      ReqOpenverse
        "Bibliotheque Meriadeck 85 cours du Marechal Juin Bordeaux France"],
     Ok None).
Proof. vm_compute. reflexivity. Qed.

(** The first generation has neither the upstream step nor the library
    adapter: its chain is OpenAgenda, Openverse, Commons, and a row that
    carries an image is searched like any other. *)
Example first_generation_chain :
  fst (run (@Gen1.pickBestImageForEvent asciiOps (fun t => t) gen1Config
              commonsWorld (withImage (JStr "http://x"))))
  = [ReqOpenverse "Concert Bordeaux"; ReqCommonsSearch "Concert Bordeaux";
     ReqCommonsInfo ["File:Concert Bordeaux.jpg"]].
Proof. vm_compute. reflexivity. Qed.

(* ===================================================================== *)
(** ** Concurrency limiter *)
(* ===================================================================== *)

Module LimiterProofs.
Import Limiter.

Lemma filter_absent (t : nat) (l : list nat) :
  ~ In t l -> List.filter (fun x => negb (Nat.eqb t x)) l = l.
Proof.
  induction l as [|x l IH]; intros Hn; [reflexivity|].
  cbn [List.filter]. destruct (Nat.eqb_spec t x) as [->|Hne].
  - exfalso. apply Hn. left. reflexivity.
  - cbn [negb]. rewrite IH; [reflexivity|]. intros H. apply Hn. right. exact H.
Qed.

Lemma remove_perm (t : nat) (l : list nat) :
  List.NoDup l -> In t l ->
  Permutation (t :: List.filter (fun x => negb (Nat.eqb t x)) l) l.
Proof.
  induction 1 as [|x l Hx Hnd IH]; intros Hin; [destruct Hin|].
  cbn [List.filter]. destruct (Nat.eqb_spec t x) as [->|Hne].
  - cbn [negb]. rewrite filter_absent by exact Hx. reflexivity.
  - cbn [negb]. destruct Hin as [->|Hin]; [congruence|].
    rewrite perm_swap. apply perm_skip. apply IH. exact Hin.
Qed.

Lemma isRunning_In (t : nat) (s : State) :
  isRunning t s = true <-> In t (running s).
Proof.
  unfold isRunning. rewrite existsb_exists. split.
  - intros (x & Hx & Heq). apply Nat.eqb_eq in Heq. subst x. exact Hx.
  - intros H. exists t. split; [exact H|]. apply Nat.eqb_refl.
Qed.

Ltac proj_simpl :=
  cbn [active queue submitted started running settled].

Section Bounded.
Variable max : Z.
Hypothesis max_nonneg : 0 <= max.

Lemma Inv_init : Inv max init.
Proof.
  constructor; cbn; try reflexivity; try lia.
  - intros H. congruence.
Qed.

Lemma Inv_NoDup_started (s : State) : Inv max s -> List.NoDup (started s).
Proof.
  intros H. pose proof (seq_NoDup (submitted s) 0) as Hnd.
  rewrite <- (inv_fifo _ _ H) in Hnd.
  apply List.NoDup_app_remove_r in Hnd. exact Hnd.
Qed.

Lemma Inv_NoDup_once (s : State) :
  Inv max s -> List.NoDup (List.map fst (settled s) ++ running s).
Proof.
  intros H. eapply Permutation_NoDup.
  - symmetry. apply (inv_once _ _ H).
  - apply Inv_NoDup_started, H.
Qed.

Lemma Inv_NoDup_running (s : State) : Inv max s -> List.NoDup (running s).
Proof.
  intros H. apply Inv_NoDup_once in H.
  apply List.NoDup_app_remove_l in H. exact H.
Qed.

Lemma Inv_submit (s : State) : Inv max s -> Inv max (submit max s).
Proof.
  intros H. unfold submit, next. cbn [queue active].
  destruct (queue s) as [|q0 qs] eqn:Hq.
  - cbn [app]. destruct (Z.leb_spec max (active s)) as [Hle|Hlt].
    + constructor; proj_simpl.
      * apply (inv_active _ _ H).
      * apply (inv_bound _ _ H).
      * pose proof (inv_fifo _ _ H) as Hf. rewrite Hq, app_nil_r in Hf.
        rewrite Hf. rewrite seq_S. reflexivity.
      * intros _. pose proof (inv_bound _ _ H). lia.
      * apply (inv_once _ _ H).
    + constructor; proj_simpl.
      * rewrite length_app; cbn [List.length]; rewrite (inv_active _ _ H). lia.
      * lia.
      * pose proof (inv_fifo _ _ H) as Hf. rewrite Hq, app_nil_r in Hf.
        rewrite app_nil_r, Hf, seq_S. reflexivity.
      * intros Hne. congruence.
      * rewrite app_assoc. apply Permutation_app_tail, (inv_once _ _ H).
  - assert (Hfull : active s = max)
      by (apply (inv_full _ _ H); rewrite Hq; discriminate).
    cbn [app]. destruct (Z.leb_spec max (active s)) as [Hle|Hlt]; [|lia].
    constructor; proj_simpl.
    + apply (inv_active _ _ H).
    + apply (inv_bound _ _ H).
    + pose proof (inv_fifo _ _ H) as Hf. rewrite Hq in Hf.
      change (q0 :: (qs ++ [submitted s])%list)
        with ((q0 :: qs) ++ [submitted s])%list.
      rewrite app_assoc, Hf, seq_S. reflexivity.
    + intros _. exact Hfull.
    + apply (inv_once _ _ H).
Qed.

Lemma running_after_settle (t : nat) (s : State) :
  Inv max s -> In t (running s) ->
  S (List.length (List.filter (fun x => negb (Nat.eqb t x)) (running s)))
  = List.length (running s).
Proof.
  intros H Hin.
  pose proof (remove_perm t (running s) (Inv_NoDup_running s H) Hin) as Hp.
  apply Permutation_length in Hp. exact Hp.
Qed.

Lemma Inv_settle (t : nat) (ok : bool) (s : State) :
  Inv max s -> In t (running s) -> Inv max (settle max t ok s).
Proof.
  intros H Hin.
  pose proof (running_after_settle t s H Hin) as Hlen.
  pose proof (remove_perm t (running s) (Inv_NoDup_running s H) Hin) as Hrm.
  assert (Hperm :
            Permutation
              (List.map fst (settled s ++ [(t, ok)])
               ++ List.filter (fun x => negb (Nat.eqb t x)) (running s))%list
              (started s)).
  { rewrite List.map_app. cbn [List.map fst].
    rewrite <- app_assoc. cbn [app].
    rewrite <- (inv_once _ _ H).
    apply Permutation_app_head. exact Hrm. }
  unfold settle, next. cbn [queue active].
  destruct (queue s) as [|q0 qs] eqn:Hq.
  - constructor; proj_simpl.
    + rewrite (inv_active _ _ H). lia.
    + pose proof (inv_bound _ _ H). lia.
    + pose proof (inv_fifo _ _ H) as Hf. rewrite Hq in Hf.
      exact Hf.
    + intros Hne. congruence.
    + exact Hperm.
  - assert (Hfull : active s = max)
      by (apply (inv_full _ _ H); rewrite Hq; discriminate).
    destruct (Z.leb_spec max (active s - 1)) as [Hle|Hlt]; [lia|].
    constructor; proj_simpl.
    + rewrite length_app; cbn [List.length]; rewrite (inv_active _ _ H). lia.
    + lia.
    + pose proof (inv_fifo _ _ H) as Hf. rewrite Hq in Hf.
      rewrite <- app_assoc. exact Hf.
    + intros _. lia.
    + rewrite app_assoc. apply Permutation_app_tail. exact Hperm.
Qed.

Lemma Inv_step (s s' : State) (e : Event) :
  Inv max s -> step max s e = Some s' -> Inv max s'.
Proof.
  intros H. destruct e as [|t ok]; cbn [step].
  - intros [= <-]. apply Inv_submit, H.
  - destruct (isRunning t s) eqn:Hr; [|discriminate].
    intros [= <-]. apply Inv_settle; [exact H|].
    apply isRunning_In, Hr.
Qed.

Lemma Inv_exec (es : list Event) (s s' : State) :
  Inv max s -> exec max s es = Some s' -> Inv max s'.
Proof.
  revert s. induction es as [|e es IH]; intros s H; cbn [exec].
  - intros [= <-]. exact H.
  - destruct (step max s e) as [s1|] eqn:Hs; [|discriminate].
    apply IH. eapply Inv_step; eauto.
Qed.

Lemma Inv_reachable (s : State) : reachable max s -> Inv max s.
Proof. intros [es Hes]. eapply Inv_exec; [apply Inv_init | exact Hes]. Qed.

Lemma pending_next (s : State) : pending (next max s) = pending s.
Proof.
  unfold next, pending. destruct (queue s) as [|q0 qs] eqn:Hq.
  - rewrite Hq. reflexivity.
  - destruct (max <=? active s).
    + rewrite Hq. reflexivity.
    + proj_simpl. rewrite length_app. cbn [List.length]. lia.
Qed.

Lemma pending_settle (t : nat) (ok : bool) (s : State) :
  Inv max s -> In t (running s) ->
  S (pending (settle max t ok s)) = pending s.
Proof.
  intros H Hin. unfold settle. rewrite pending_next.
  unfold pending. proj_simpl.
  pose proof (running_after_settle t s H Hin). lia.
Qed.

(** Each settlement completes one pending task. *)
Lemma pending_exec (es : list Event) (s s' : State) :
  Inv max s -> forallb isSettle es = true -> exec max s es = Some s' ->
  (List.length es + pending s')%nat = pending s.
Proof.
  revert s. induction es as [|e es IH]; intros s H Hall; cbn [exec].
  - intros [= <-]. reflexivity.
  - cbn [forallb] in Hall. apply andb_true_iff in Hall as [He Hall].
    destruct e as [|t ok]; [discriminate He|]. cbn [step].
    destruct (isRunning t s) eqn:Hr; [|discriminate].
    apply isRunning_In in Hr. intros Hex.
    pose proof (IH _ (Inv_settle t ok s H Hr) Hall Hex) as Hrec.
    pose proof (pending_settle t ok s H Hr). cbn [List.length]. lia.
Qed.

Lemma settle_starts_next (t : nat) (ok : bool) (s : State) (q0 : nat)
    (qs : list nat) :
  Inv max s -> queue s = q0 :: qs ->
  started (settle max t ok s) = (started s ++ [q0])%list
  /\ isRunning q0 (settle max t ok s) = true
  /\ queue (settle max t ok s) = qs.
Proof.
  intros H Hq.
  assert (Hfull : active s = max)
    by (apply (inv_full _ _ H); rewrite Hq; discriminate).
  unfold settle, next. proj_simpl. rewrite Hq.
  destruct (Z.leb_spec max (active s - 1)) as [Hle|Hlt]; [lia|].
  proj_simpl. split; [reflexivity|]. split; [|reflexivity].
  unfold isRunning. proj_simpl. rewrite existsb_app. cbn [existsb].
  rewrite Nat.eqb_refl. apply orb_true_iff. right. reflexivity.
Qed.

Lemma submitted_settle (t : nat) (ok : bool) (s : State) :
  submitted (settle max t ok s) = submitted s.
Proof.
  unfold settle, next. proj_simpl.
  destruct (queue s); [reflexivity|].
  destruct (max <=? active s - 1); reflexivity.
Qed.

(** While a task is pending and the bound admits somebody, a task is
    running. *)
Lemma pending_running (s : State) :
  1 <= max -> Inv max s -> pending s <> 0%nat ->
  exists t, isRunning t s = true.
Proof.
  intros Hmax H Hp. destruct (running s) as [|t r] eqn:Hr.
  - exfalso. unfold pending in Hp. rewrite Hr in Hp. cbn in Hp.
    assert (Hq : queue s <> [])
      by (destruct (queue s); [cbn in Hp; lia | discriminate]).
    pose proof (inv_full _ _ H Hq) as Hfull.
    pose proof (inv_active _ _ H) as Hact. rewrite Hr in Hact.
    cbn in Hact. lia.
  - exists t. apply isRunning_In. rewrite Hr. left. reflexivity.
Qed.

Lemma drained_all_settled (s : State) :
  Inv max s -> pending s = 0%nat ->
  Permutation (List.map fst (settled s)) (seq 0 (submitted s))
  /\ List.length (settled s) = submitted s.
Proof.
  intros H Hp. unfold pending in Hp.
  assert (Hq : queue s = [])
    by (destruct (queue s); [reflexivity | cbn in Hp; lia]).
  assert (Hr : running s = [])
    by (destruct (running s); [reflexivity | cbn in Hp; lia]).
  pose proof (inv_fifo _ _ H) as Hf. rewrite Hq, app_nil_r in Hf.
  pose proof (inv_once _ _ H) as Ho. rewrite Hr, app_nil_r, Hf in Ho.
  split; [exact Ho|].
  apply Permutation_length in Ho.
  rewrite length_map, length_seq in Ho. exact Ho.
Qed.

(** Settling the running tasks one after the other, each with the
    outcome [outcome] gives it, empties the limiter. *)
Lemma drain (outcome : nat -> bool) (n : nat) (s : State) :
  1 <= max -> Inv max s -> pending s = n ->
  exists es s',
    Forall (fun e => exists t, e = Settle t (outcome t)) es
    /\ exec max s es = Some s'
    /\ pending s' = 0%nat
    /\ submitted s' = submitted s.
Proof.
  intros Hmax. revert s. induction n as [|n IH]; intros s H Hp.
  - exists [], s. repeat split; [constructor | exact Hp].
  - destruct (pending_running s Hmax H) as [t Hr]; [lia|].
    pose proof (proj1 (isRunning_In t s) Hr) as Hin.
    destruct (IH (settle max t (outcome t) s)) as (es & s' & Hes & Hex & Hz & Hsub).
    + apply Inv_settle; assumption.
    + pose proof (pending_settle t (outcome t) s H Hin). lia.
    + exists (Settle t (outcome t) :: es), s'.
      split; [constructor; eauto|].
      split; [cbn [exec step]; rewrite Hr; exact Hex|].
      split; [exact Hz|].
      rewrite Hsub. apply submitted_settle.
Qed.

End Bounded.

(** C5.  In every state of a limiter created with a bound of at least 1:
    the number of active tasks is the counter and never exceeds the
    bound; tasks have started in the order of submission; a task is
    waiting only while the limiter is full, and when a running task
    settles, fulfilled or rejected, the head of the queue starts at once;
    no task has settled twice, and the started tasks are the settled and
    the running ones; every further settlement takes one task off the
    pending ones, some running task can settle as long as any task is
    pending, and once none is pending the settled tasks are exactly the
    submitted ones. *)
Theorem limiter_guarantees (max : Z) (s : State) :
  1 <= max -> reachable max s ->
  (0 <= active s <= max /\ active s = Z.of_nat (List.length (running s)))
  /\ (started s ++ queue s)%list = seq 0 (submitted s)
  /\ (queue s <> [] -> active s = max)
  /\ (forall t ok q0 qs,
        isRunning t s = true -> queue s = q0 :: qs ->
        started (settle max t ok s) = (started s ++ [q0])%list
        /\ isRunning q0 (settle max t ok s) = true
        /\ queue (settle max t ok s) = qs)
  /\ (List.NoDup (List.map fst (settled s))
      /\ Permutation (List.map fst (settled s) ++ running s)%list (started s))
  /\ (forall es s',
        forallb isSettle es = true -> exec max s es = Some s' ->
        (List.length es + pending s')%nat = pending s)
  /\ (pending s <> 0%nat ->
      exists t, forall ok, step max s (Settle t ok) = Some (settle max t ok s))
  /\ (pending s = 0%nat ->
      Permutation (List.map fst (settled s)) (seq 0 (submitted s))
      /\ List.length (settled s) = submitted s)
  /\ (forall outcome : nat -> bool,
        exists es s',
          Forall (fun e => exists t, e = Settle t (outcome t)) es
          /\ exec max s es = Some s'
          /\ Permutation (List.map fst (settled s')) (seq 0 (submitted s))
          /\ List.length (settled s') = submitted s).
Proof.
  intros Hmax Hreach.
  assert (Hnn : 0 <= max) by lia.
  pose proof (Inv_reachable max Hnn s Hreach) as H.
  split; [|split; [|split; [|split; [|split; [|split; [|split; [|split]]]]]]].
  - pose proof (inv_active _ _ H). pose proof (inv_bound _ _ H). lia.
  - apply (inv_fifo _ _ H).
  - apply (inv_full _ _ H).
  - intros t ok q0 qs _ Hq. apply settle_starts_next; assumption.
  - split; [|apply (inv_once _ _ H)].
    pose proof (Inv_NoDup_once max s H) as Hnd.
    apply List.NoDup_app_remove_r in Hnd. exact Hnd.
  - intros es s' Hall Hex. eapply pending_exec; eauto.
  - intros Hp. destruct (pending_running max s Hmax H Hp) as [t Hr].
    exists t. intros ok. cbn [step]. rewrite Hr. reflexivity.
  - apply (drained_all_settled max s H).
  - intros outcome.
    destruct (drain max outcome (pending s) s Hmax H eq_refl)
      as (es & s' & Hes & Hex & Hz & Hsub).
    exists es, s'. split; [exact Hes|]. split; [exact Hex|].
    rewrite <- Hsub. apply (drained_all_settled max); [|exact Hz].
    eapply Inv_exec; eauto.
Qed.

(** A rejected task frees its slot like a fulfilled one. *)
Lemma failure_frees_slot (max : Z) (t : nat) (s : State) :
  active (settle max t false s) = active (settle max t true s)
  /\ queue (settle max t false s) = queue (settle max t true s)
  /\ started (settle max t false s) = started (settle max t true s)
  /\ running (settle max t false s) = running (settle max t true s).
Proof.
  unfold settle, next. proj_simpl.
  destruct (queue s); [|destruct (max <=? active s - 1)]; repeat split.
Qed.

Lemma limiter_guarantees_witness :
  exists s,
    exec 2 init (firstn 7 fiveTasks) = Some s
    /\ 0 <= active s <= 2
    /\ (started s ++ queue s)%list = seq 0 5.
Proof.
  eexists. split; [reflexivity|].
  destruct (limiter_guarantees 2 _ ltac:(lia)
              (ex_intro _ (firstn 7 fiveTasks) eq_refl))
    as ((Hb & _) & Hf & _).
  split; [exact Hb | exact Hf].
Defined.

(** Bound 2, five tasks settling at once: all five complete, once each. *)
Example five_tasks_bound_two :
  exists s,
    exec 2 init fiveTasks = Some s
    /\ settled s = [(0, true); (1, true); (2, true); (3, true); (4, true)]%nat
    /\ started s = [0; 1; 2; 3; 4]%nat
    /\ active s = 0 /\ queue s = [] /\ running s = [].
Proof. eexists. split; [reflexivity|]. repeat split. Qed.

Lemma Stalled_init : Stalled init.
Proof. constructor; reflexivity. Qed.

Lemma next_zero (s : State) : active s = 0 -> next 0 s = s.
Proof.
  intros Ha. unfold next. destruct (queue s); [reflexivity|].
  rewrite Ha. reflexivity.
Qed.

Lemma Stalled_step (s s' : State) (e : Event) :
  Stalled s -> step 0 s e = Some s' ->
  Stalled s' /\ e = Submit /\ submitted s' = S (submitted s).
Proof.
  intros H. destruct e as [|t ok]; cbn [step].
  - intros [= <-]. unfold submit.
    rewrite next_zero by (proj_simpl; apply (stalled_active _ H)).
    proj_simpl. split; [|split; reflexivity].
    constructor; proj_simpl.
    + apply (stalled_active _ H).
    + apply (stalled_started _ H).
    + apply (stalled_running _ H).
    + apply (stalled_settled _ H).
    + rewrite (stalled_queue _ H), seq_S. reflexivity.
  - unfold isRunning. rewrite (stalled_running _ H). cbn [existsb].
    discriminate.
Qed.

Lemma Stalled_exec (es : list Event) (s s' : State) :
  Stalled s -> exec 0 s es = Some s' ->
  Stalled s' /\ submitted s' = (submitted s + List.length es)%nat.
Proof.
  revert s. induction es as [|e es IH]; intros s H; cbn [exec].
  - intros [= <-]. split; [exact H|]. cbn. lia.
  - destruct (step 0 s e) as [s1|] eqn:Hs; [|discriminate].
    destruct (Stalled_step s s1 e H Hs) as (H1 & -> & Hsub).
    intros Hex. destruct (IH s1 H1 Hex) as (H' & Hn).
    split; [exact H'|].
    rewrite Hn, Hsub. cbn [List.length]. lia.
Qed.

(** C9.  With [CONCURRENCY] parsed to 0 the limiter never invokes a task
    and never settles a promise: whatever has been submitted, nothing has
    started, nothing has settled, every submitted task is still in the
    queue, and no settlement can happen next. *)
Theorem limiter_bound_zero_stalls (cfg : Config) (es : list Event)
    (s : State) :
  CONCURRENCY cfg = 0 ->
  exec (CONCURRENCY cfg) init es = Some s ->
  started s = []
  /\ settled s = []
  /\ active s = 0
  /\ queue s = seq 0 (submitted s)
  /\ submitted s = List.length es
  /\ (forall t ok, step (CONCURRENCY cfg) s (Settle t ok) = None).
Proof.
  intros -> Hex.
  destruct (Stalled_exec es init s Stalled_init Hex) as (H & Hn).
  split; [apply (stalled_started _ H)|].
  split; [apply (stalled_settled _ H)|].
  split; [apply (stalled_active _ H)|].
  split; [apply (stalled_queue _ H)|].
  split; [exact Hn|].
  intros t ok. cbn [step]. unfold isRunning.
  rewrite (stalled_running _ H). reflexivity.
Qed.

Lemma limiter_bound_zero_stalls_witness :
  exists s,
    exec 0 init [Submit; Submit; Submit] = Some s
    /\ started s = [] /\ settled s = [] /\ queue s = [0; 1; 2]%nat.
Proof.
  eexists. split; [reflexivity|].
  destruct (limiter_bound_zero_stalls
              {| OFFICIAL_IMAGES := true; OPENAGENDA_KEY := "";
                 MIN_WIDTH := 600; CONCURRENCY := 0 |}
              [Submit; Submit; Submit] _ eq_refl eq_refl)
    as (Hs & Hd & _ & Hq & _).
  split; [exact Hs|]. split; [exact Hd | exact Hq].
Defined.

End LimiterProofs.

(* ===================================================================== *)
(** ** Text normalizer: shape of the output *)
(* ===================================================================== *)

Lemma isAlnum_not_space (c : ascii) :
  isAlnum c = true -> Ascii.eqb c " "%char = false.
Proof.
  intros H. destruct (Ascii.eqb_spec c " "%char) as [->|]; [|reflexivity].
  discriminate H.
Qed.

Lemma isAlnum_not_ws (c : ascii) : isAlnum c = true -> isWs c = false.
Proof.
  unfold isAlnum, isWs. cbv zeta. intros H.
  destruct (isWs c) eqn:Hw; unfold isWs in Hw; cbv zeta in Hw;
    [|assumption].
  rewrite !orb_true_iff, !andb_true_iff, !Nat.leb_le in H.
  rewrite orb_true_iff, andb_true_iff, !Nat.leb_le, Nat.eqb_eq in Hw.
  lia.
Qed.

Lemma okChar_ws (c : ascii) : okChar c -> isWs c = true -> c = " "%char.
Proof.
  intros [Ha|Hs] Hw; [|exact Hs].
  rewrite (isAlnum_not_ws c Ha) in Hw. discriminate Hw.
Qed.

Lemma not_ws_not_space (c : ascii) :
  isWs c = false -> Ascii.eqb c " "%char = false.
Proof.
  intros H. destruct (Ascii.eqb_spec c " "%char) as [->|]; [|reflexivity].
  discriminate H.
Qed.

Lemma squashNonAlnum_ok (p : bool) (l : list ascii) :
  Forall okChar (squashNonAlnum p l).
Proof.
  revert p. induction l as [|c r IH]; intros p; cbn [squashNonAlnum].
  - constructor.
  - destruct (isAlnum c) eqn:Ha.
    + constructor; [left; exact Ha | apply IH].
    + destruct p; [apply IH|]. constructor; [right; reflexivity | apply IH].
Qed.

Lemma squashNonAlnum_noAdj (p : bool) (l : list ascii) :
  noAdj p (squashNonAlnum p l) = true.
Proof.
  revert p. induction l as [|c r IH]; intros p; cbn [squashNonAlnum].
  - reflexivity.
  - destruct (isAlnum c) eqn:Ha.
    + cbn [noAdj]. rewrite (isAlnum_not_space c Ha). apply IH.
    + destruct p; [apply IH|]. cbn [noAdj Ascii.eqb]. 
      change (Ascii.eqb " " " ") with true. cbn [negb andb]. apply IH.
Qed.

(** On words separated by single spaces the whitespace pass changes
    nothing. *)
Lemma squashSpaces_id (p : bool) (l : list ascii) :
  Forall okChar l -> noAdj p l = true -> squashSpaces p l = l.
Proof.
  intros Hok. revert p. induction Hok as [|c r Hc Hr IH]; intros p Hn;
    cbn [squashSpaces]; [reflexivity|].
  cbn [noAdj] in Hn. destruct (isWs c) eqn:Hw.
  - pose proof (okChar_ws c Hc Hw) as ->.
    change (Ascii.eqb " " " ") with true in Hn.
    apply andb_true_iff in Hn as [Hp Hn]. destruct p; [discriminate Hp|].
    rewrite (IH true Hn). reflexivity.
  - rewrite (not_ws_not_space c Hw) in Hn. rewrite (IH false Hn).
    reflexivity.
Qed.

Lemma squashNonAlnum_id (p : bool) (l : list ascii) :
  Forall okChar l -> noAdj p l = true -> squashNonAlnum p l = l.
Proof.
  intros Hok. revert p. induction Hok as [|c r Hc Hr IH]; intros p Hn;
    cbn [squashNonAlnum]; [reflexivity|].
  cbn [noAdj] in Hn. destruct Hc as [Ha| ->].
  - rewrite Ha. rewrite (isAlnum_not_space c Ha) in Hn.
    rewrite (IH false Hn). reflexivity.
  - change (isAlnum " ") with false. cbn iota.
    change (Ascii.eqb " " " ") with true in Hn.
    apply andb_true_iff in Hn as [Hp Hn]. destruct p; [discriminate Hp|].
    rewrite (IH true Hn). reflexivity.
Qed.

Lemma noAdj_weaken (p : bool) (l : list ascii) :
  noAdj true l = true -> noAdj p l = true.
Proof.
  destruct l as [|c r]; [reflexivity|]. cbn [noAdj].
  destruct (Ascii.eqb c " "); [|auto].
  cbn [negb andb]. discriminate.
Qed.

Lemma noAdj_prefix (p : bool) (a b : list ascii) :
  noAdj p (a ++ b) = true -> noAdj p a = true.
Proof.
  revert p. induction a as [|c r IH]; intros p; [reflexivity|].
  cbn [app noAdj]. destruct (Ascii.eqb c " ").
  - rewrite !andb_true_iff. intros [Hp Hn]. split; [exact Hp|].
    apply IH. exact Hn.
  - apply IH.
Qed.

(** [dropWs] removes a prefix of whitespace and stops in front of a
    character that is not whitespace. *)
Lemma dropWs_split (l : list ascii) :
  exists pre, l = (pre ++ dropWs l)%list /\ Forall (fun c => isWs c = true) pre.
Proof.
  induction l as [|c r (pre & Hl & Hpre)]; cbn [dropWs].
  - exists []. split; [reflexivity | constructor].
  - destruct (isWs c) eqn:Hw.
    + exists (c :: pre). cbn [app]. split; [congruence|].
      constructor; assumption.
    + exists []. split; [reflexivity | constructor].
Qed.

Lemma dropWs_head (l : list ascii) (c : ascii) (r : list ascii) :
  dropWs l = c :: r -> isWs c = false.
Proof.
  induction l as [|x l IH]; cbn [dropWs]; [discriminate|].
  destruct (isWs x) eqn:Hw; [exact IH|].
  intros [= <- _]. exact Hw.
Qed.

Lemma dropWs_noAdj (p : bool) (l : list ascii) :
  Forall okChar l -> noAdj p l = true -> noAdj true (dropWs l) = true.
Proof.
  intros Hok. revert p. induction Hok as [|c r Hc Hr IH]; intros p Hn;
    cbn [dropWs]; [reflexivity|].
  cbn [noAdj] in Hn. destruct (isWs c) eqn:Hw.
  - pose proof (okChar_ws c Hc Hw) as ->.
    change (Ascii.eqb " " " ") with true in Hn.
    apply andb_true_iff in Hn as [_ Hn]. apply (IH true Hn).
  - cbn [noAdj]. rewrite (not_ws_not_space c Hw) in *. exact Hn.
Qed.

Lemma Forall_suffix {A} (P : A -> Prop) (a b : list A) :
  Forall P (a ++ b) -> Forall P b.
Proof. intros H. apply Forall_app in H. tauto. Qed.

Lemma dropWs_ok (l : list ascii) : Forall okChar l -> Forall okChar (dropWs l).
Proof.
  intros H. destruct (dropWs_split l) as (pre & Hl & _).
  rewrite Hl in H. eapply Forall_suffix, H.
Qed.

(** [trimChars] gives a prefix of what [dropWs] left. *)
Lemma trimChars_prefix (l : list ascii) :
  exists post, dropWs l = (trimChars l ++ post)%list.
Proof.
  unfold trimChars.
  destruct (dropWs_split (rev (dropWs l))) as (pre & Hl & _).
  exists (rev pre).
  rewrite <- (rev_involutive (dropWs l)) at 1.
  rewrite Hl at 1. rewrite rev_app_distr. reflexivity.
Qed.

Lemma trimChars_normalForm (p : bool) (l : list ascii) :
  Forall okChar l -> noAdj p l = true -> normalForm (trimChars l).
Proof.
  intros Hok Hn. destruct (trimChars_prefix l) as (post & Hpost).
  pose proof (dropWs_ok l Hok) as Hok'.
  pose proof (dropWs_noAdj p l Hok Hn) as Hn'.
  rewrite Hpost in Hok', Hn'.
  split; [|split].
  - apply Forall_app in Hok'. tauto.
  - eapply noAdj_prefix, Hn'.
  - unfold endsClean, trimChars. rewrite rev_involutive.
    destruct (dropWs (rev (dropWs l))) as [|c r] eqn:Hd; [exact I|].
    eapply dropWs_head, Hd.
Qed.

Lemma dropWs_id (l : list ascii) :
  Forall okChar l -> noAdj true l = true -> dropWs l = l.
Proof.
  intros Hok Hn. destruct Hok as [|c r Hc Hr]; [reflexivity|].
  cbn [dropWs]. destruct (isWs c) eqn:Hw; [|reflexivity].
  pose proof (okChar_ws c Hc Hw) as ->. discriminate Hn.
Qed.

Lemma trimChars_id (l : list ascii) : normalForm l -> trimChars l = l.
Proof.
  intros (Hok & Hn & He). unfold trimChars.
  rewrite (dropWs_id l Hok Hn).
  unfold endsClean in He.
  destruct (rev l) as [|c r] eqn:Hr.
  - cbn. rewrite <- (rev_involutive l), Hr. reflexivity.
  - cbn [dropWs]. rewrite He. rewrite <- Hr. apply rev_involutive.
Qed.

Section NormalizerShape.
Context {U : UnicodeOps}.

(** After the first pass the text holds [[a-z0-9]] and single spaces
    only: the white-space pass changes nothing, and [trim] strips the
    spaces at the ends. *)
Lemma passes_ascii (l : list ascii) :
  trimBytes (collapseSpace false (squashNonAlnum false l))
  = trimChars (squashNonAlnum false l).
Proof.
  pose proof (squashNonAlnum_ok false l) as Hok.
  rewrite collapseSpace_ascii by apply okChar_all_low, Hok.
  rewrite squashSpaces_id by (exact Hok || apply squashNonAlnum_noAdj).
  apply trimBytes_ascii, okChar_all_low, Hok.
Qed.

Lemma normalizeText_shape (s : string) :
  normalForm (list_ascii_of_string (normalizeText s)).
Proof.
  unfold normalizeText. rewrite list_ascii_of_string_of_list_ascii.
  rewrite passes_ascii.
  apply (trimChars_normalForm false).
  - apply squashNonAlnum_ok.
  - apply squashNonAlnum_noAdj.
Qed.

(** X1.  Whatever the input and the Unicode tables, [normalizeText]
    gives words of [[a-z0-9]] separated by single spaces: no other
    character, no space at either end, no two spaces in a row. *)
Theorem normalizeText_normalForm (s : string) :
  normalForm (list_ascii_of_string (normalizeText s)).
Proof. exact (normalizeText_shape s). Qed.

(** The three passes after the Unicode folding leave a text in normal
    form alone. *)
Lemma passes_fix_normalForm (l : list ascii) :
  normalForm l ->
  trimBytes (collapseSpace false (squashNonAlnum false l)) = l.
Proof.
  intros Hnf. pose proof Hnf as (Hok & Hn & _).
  rewrite passes_ascii.
  rewrite (squashNonAlnum_id false l Hok (noAdj_weaken false l Hn)).
  apply trimChars_id, Hnf.
Qed.

(** X2.  [normalizeText] is idempotent as soon as the engine's case and
    diacritic folding leaves lower-case ASCII words alone. *)
Theorem normalizeText_idempotent (s : string) :
  (forall t, normalForm (list_ascii_of_string t) ->
             stripDiacritics (toLowerCase t) = t) ->
  normalizeText (normalizeText s) = normalizeText s.
Proof.
  intros Hfix. pose proof (normalizeText_shape s) as Hnf.
  unfold normalizeText at 1. rewrite (Hfix _ Hnf).
  rewrite (passes_fix_normalForm _ Hnf).
  apply string_of_list_ascii_of_string.
Qed.

End NormalizerShape.

(** The ASCII tables leave lower-case ASCII words alone. *)
Lemma asciiLower_ok (c : ascii) : okChar c -> asciiLower c = c.
Proof.
  intros [Ha| ->]; [|reflexivity].
  unfold asciiLower. cbv zeta. unfold isAlnum in Ha. cbv zeta in Ha.
  rewrite !orb_true_iff, !andb_true_iff, !Nat.leb_le in Ha.
  destruct (Nat.leb_spec 65 (code c)); [|reflexivity].
  destruct (Nat.leb_spec (code c) 90); [lia | reflexivity].
Qed.

Lemma asciiDiacritic_ok (c : ascii) : okChar c -> asciiDiacritic c = false.
Proof.
  intros [Ha| ->]; [|reflexivity].
  unfold asciiDiacritic. cbv zeta. unfold isAlnum in Ha. cbv zeta in Ha.
  rewrite !orb_true_iff, !andb_true_iff, !Nat.leb_le in Ha.
  apply orb_false_iff. rewrite !Nat.eqb_neq. lia.
Qed.

Lemma asciiLower_fix (l : list ascii) :
  Forall okChar l -> List.map asciiLower l = l.
Proof.
  induction 1 as [|c r Hc Hr IH]; [reflexivity|].
  cbn [List.map]. rewrite (asciiLower_ok c Hc), IH. reflexivity.
Qed.

Lemma asciiDiacritic_fix (l : list ascii) :
  Forall okChar l -> List.filter (fun c => negb (asciiDiacritic c)) l = l.
Proof.
  induction 1 as [|c r Hc Hr IH]; [reflexivity|].
  cbn [List.filter]. rewrite (asciiDiacritic_ok c Hc). cbn [negb].
  rewrite IH. reflexivity.
Qed.

Lemma asciiOps_fix (t : string) :
  normalForm (list_ascii_of_string t) ->
  @stripDiacritics asciiOps (@toLowerCase asciiOps t) = t.
Proof.
  intros (Hok & _ & _). cbn [stripDiacritics toLowerCase asciiOps].
  rewrite list_ascii_of_string_of_list_ascii.
  rewrite (asciiLower_fix _ Hok), (asciiDiacritic_fix _ Hok).
  apply string_of_list_ascii_of_string.
Qed.

Lemma normalizeText_idempotent_witness :
  @normalizeText asciiOps
    (@normalizeText asciiOps "  Le Rocher -- de PALMER (Cenon) ")
  = @normalizeText asciiOps "  Le Rocher -- de PALMER (Cenon) ".
Proof.
  apply (@normalizeText_idempotent asciiOps). exact asciiOps_fix.
Defined.

(* ===================================================================== *)
(** ** Tokens and scores *)
(* ===================================================================== *)

Lemma splitSpace_chars (P : ascii -> Prop) (l cur : list ascii) :
  Forall (fun c => P c /\ c <> " "%char) cur ->
  Forall P l ->
  forall piece, In piece (splitSpace cur l) ->
    Forall (fun c => P c /\ c <> " "%char) (list_ascii_of_string piece).
Proof.
  revert cur. induction l as [|c r IH]; intros cur Hcur Hl piece;
    cbn [splitSpace].
  - intros [<-|[]]. rewrite list_ascii_of_string_of_list_ascii.
    apply Forall_rev. exact Hcur.
  - inversion Hl as [|? ? Hc Hr]; subst.
    destruct (Ascii.eqb_spec c " "%char) as [->|Hne].
    + intros [<-|Hin].
      * rewrite list_ascii_of_string_of_list_ascii.
        apply Forall_rev. exact Hcur.
      * apply (IH [] ltac:(constructor) Hr piece Hin).
    + apply IH; [|exact Hr]. constructor; [split; assumption | exact Hcur].
Qed.

Section Tokens.
Context {U : UnicodeOps}.

(** X3.  Every token has at least three characters, all of them in
    [[a-z0-9]]. *)
Theorem tokens_wellformed (s t : string) :
  In t (tokens s) ->
  (3 <= String.length t)%nat
  /\ Forall (fun c => isAlnum c = true) (list_ascii_of_string t).
Proof.
  unfold tokens. cbv zeta. intros Hin.
  apply List.filter_In in Hin as [Hin Hlen].
  apply List.filter_In in Hin as [Hin _].
  split; [apply Nat.leb_le, Hlen|].
  destruct (normalizeText_shape s) as (Hok & _ & _).
  pose proof (splitSpace_chars okChar _ [] ltac:(constructor) Hok t Hin) as Hp.
  eapply List.Forall_impl; [|exact Hp].
  intros c [[Ha|Hs] Hne]; [exact Ha | contradiction].
Qed.

Lemma overlapScore_range (a : list string) (txt : string) :
  0 <= overlapScore a txt <= Z.of_nat (List.length a).
Proof.
  rewrite overlapScore_count. unfold hits.
  pose proof (List.filter_length_le
                (fun t => bool_decide (t ∈ (list_to_set (tokens txt)
                                             : gset string))) a).
  lia.
Qed.

(** X4.  The overlap score lies between 0 and the number of query
    tokens. *)
Theorem overlapScore_bounds (a : list string) (txt : string) :
  0 <= overlapScore a txt <= Z.of_nat (List.length a).
Proof. exact (overlapScore_range a txt). Qed.

(** X5.  An Openverse result scores at least 0 and at most five points
    per query token plus 11: at most 4 for the size, 4 for the provider
    and 3 for the attribution fields. *)
Theorem scoreOpenverseResult_bounds (preferred : list string) (minWidth : Z)
    (evTokens : list string) (r : OVResult) :
  0 <= scoreOpenverseResult preferred minWidth evTokens r
    <= 5 * Z.of_nat (List.length evTokens) + 11.
Proof.
  unfold scoreOpenverseResult. cbv zeta.
  pose proof (overlapScore_range evTokens (strOr (ov_title r) "")).
  pose proof (overlapScore_range evTokens
                (strOr (ov_creator r) (strOr (ov_creator_name r) ""))).
  pose proof (overlapScore_range evTokens
                match ov_tags r with
                | Some ts => String.concat " " (List.map tagText ts)
                | None => ""
                end).
  repeat match goal with
         | |- context [if ?b then _ else _] => destruct b
         end; lia.
Qed.

(** X6.  A Commons page scores at least 0 and at most four points per
    query token plus 5. *)
Theorem scoreCommonsPage_bounds (minWidth : Z) (evTokens : list string)
    (page : CommonsPage) :
  0 <= Gen1.scoreCommonsPage minWidth evTokens page
    <= 4 * Z.of_nat (List.length evTokens) + 5.
Proof.
  unfold Gen1.scoreCommonsPage. cbv zeta.
  pose proof (overlapScore_range evTokens (strOr (page_title page) "")).
  pose proof (overlapScore_range evTokens
                (stripHtml (strOr (ii_Artist (Gen1.infoOf page)) ""))).
  repeat match goal with
         | |- context [if ?b then _ else _] => destruct b
         end; lia.
Qed.

End Tokens.

Lemma tokens_wellformed_witness :
  (3 <= String.length "rocher")%nat
  /\ Forall (fun c => isAlnum c = true) (list_ascii_of_string "rocher").
Proof.
  apply (@tokens_wellformed asciiOps "Le Rocher de Palmer" "rocher").
  vm_compute. left. reflexivity.
Defined.

(* ===================================================================== *)
(** ** [stripHtml] *)
(* ===================================================================== *)

Lemma stripTags_gt (b : bool) (l : list ascii) :
  existsb isGt (stripTags b l) = true -> existsb isGt l = true.
Proof.
  revert b. induction l as [|c r IH]; intros b; cbn [stripTags existsb];
    [discriminate|].
  destruct b.
  - destruct (isGt c) eqn:Hc; [reflexivity|].
    cbn [orb]. apply IH.
  - destruct (Ascii.eqb c "<" && existsb isGt r) eqn:Ht.
    + intros _. apply andb_true_iff in Ht as [_ Ht]. rewrite Ht.
      apply orb_true_r.
    + cbn [existsb]. destruct (isGt c); [reflexivity|]. cbn [orb]. apply IH.
Qed.

Lemma stripTags_tagFree (b : bool) (l : list ascii) :
  tagFree (stripTags b l) = true.
Proof.
  revert b. induction l as [|c r IH]; intros b; cbn [stripTags];
    [reflexivity|].
  destruct b.
  - destruct (isGt c); [|apply IH].
    cbn [tagFree]. change (Ascii.eqb " " "<") with false. cbn [andb].
    apply IH.
  - destruct (Ascii.eqb c "<") eqn:Hlt; cbn [andb].
    + destruct (existsb isGt r) eqn:Hgt; [apply IH|].
      cbn [tagFree]. rewrite Hlt, IH, andb_true_r.
      destruct (existsb isGt (stripTags false r)) eqn:Hout; [|reflexivity].
      apply stripTags_gt in Hout. congruence.
    + cbn [tagFree]. rewrite Hlt. cbn [andb]. apply IH.
Qed.

Lemma tagFree_suffix (a b : list ascii) :
  tagFree (a ++ b) = true -> tagFree b = true.
Proof.
  induction a as [|c r IH]; [auto|]. cbn [app tagFree].
  intros H. apply andb_true_iff in H as [_ H]. apply IH, H.
Qed.

Lemma tagFree_prefix (a b : list ascii) :
  tagFree (a ++ b) = true -> tagFree a = true.
Proof.
  induction a as [|c r IH]; [reflexivity|]. cbn [app tagFree].
  intros H. apply andb_true_iff in H as [Hc H].
  rewrite (IH H), andb_true_r.
  destruct (Ascii.eqb c "<"); [|reflexivity].
  rewrite existsb_app in Hc. apply negb_true_iff in Hc.
  apply orb_false_iff in Hc as [Hc _]. rewrite Hc. reflexivity.
Qed.

Lemma gapOut_gt (p : bool) (out : list ascii) :
  existsb isGt (gapOut p out) = existsb isGt out.
Proof. destruct p; reflexivity. Qed.

Lemma gapOut_tagFree (p : bool) (out : list ascii) :
  tagFree (gapOut p out) = tagFree out.
Proof. destruct p; reflexivity. Qed.

(** Collapsing the white space neither adds nor removes a [">"], and
    keeps a text free of tags. *)
Lemma collapseSpace_angle (p : bool) (l : list ascii) :
  existsb isGt (collapseSpace p l) = existsb isGt l
  /\ (tagFree l = true -> tagFree (collapseSpace p l) = true).
Proof.
  apply (collapseSpace_cases
           (fun _ l out => existsb isGt out = existsb isGt l
                           /\ (tagFree l = true -> tagFree out = true))).
  - auto.
  - intros p' u r out Hu [Hg Ht].
    apply spaceUnit_whiteSpace, whiteSpace_no_angle in Hu as [Hu _].
    rewrite gapOut_gt, gapOut_tagFree, existsb_app, Hu, Hg.
    split; [reflexivity|]. intros H. apply tagFree_suffix in H. auto.
  - intros p' a r out _ [Hg Ht]. cbn [existsb tagFree]. rewrite Hg.
    split; [reflexivity|]. intros H. apply andb_true_iff in H as [Ha Hr].
    rewrite Ha, (Ht Hr). reflexivity.
Qed.

Lemma collapseSpace_spacedOut (p : bool) (l : list ascii) :
  spacedOut p (collapseSpace p l) = true.
Proof.
  apply (collapseSpace_cases (fun p _ out => spacedOut p out = true)).
  - reflexivity.
  - intros p' u r out _ H. destruct p'; [exact H|].
    cbn [gapOut spacedOut]. change (isWs " ") with true. cbn iota.
    change (Ascii.eqb " " " ") with true. exact H.
  - intros p' a r out Hw H. cbn [spacedOut]. rewrite Hw. exact H.
Qed.

Lemma spacedOut_tail (p : bool) (a b : list ascii) :
  spacedOut p (a ++ b) = true -> exists p', spacedOut p' b = true.
Proof.
  revert p. induction a as [|c r IH]; intros p; [eauto|].
  cbn [app spacedOut]. destruct (isWs c).
  - rewrite !andb_true_iff. intros [_ H]. apply (IH true H).
  - apply IH.
Qed.

Lemma dropSpace_spacedOut w2 w3 (l : list ascii) :
  forall p, spacedOut p l = true -> spacedOut true (dropSpace w2 w3 l) = true.
Proof.
  apply (dropSpace_cases w2 w3
           (fun l out => forall p, spacedOut p l = true ->
                                   spacedOut true out = true)).
  - reflexivity.
  - intros u r out _ IH p H. apply spacedOut_tail in H as [p' H].
    apply (IH p' H).
  - intros a r Hw _ p. cbn [spacedOut]. rewrite Hw. auto.
Qed.

Lemma spacedOut_prefix (p : bool) (a b : list ascii) :
  spacedOut p (a ++ b) = true -> spacedOut p a = true.
Proof.
  revert p. induction a as [|c r IH]; intros p; [reflexivity|].
  cbn [app spacedOut]. destruct (isWs c).
  - rewrite !andb_true_iff. intros [Hc H]. split; [exact Hc|].
    apply IH, H.
  - apply IH.
Qed.


(* ===================================================================== *)
(** ** Ranking: order and ties *)
(* ===================================================================== *)

Section RankingOrder.
Context {A : Type}.
Implicit Types (x y : A * Z) (l : list (A * Z)).

Lemma insertDesc_perm x l : Permutation (insertDesc x l) (x :: l).
Proof.
  induction l as [|y r IH]; cbn [insertDesc]; [reflexivity|].
  destruct (snd y <=? snd x); [reflexivity|].
  rewrite IH. apply perm_swap.
Qed.

Lemma insertDesc_descending x l :
  descending l -> descending (insertDesc x l).
Proof.
  induction l as [|y r IH]; cbn [insertDesc descending].
  - intros _. split; [constructor | exact I].
  - intros [Hy Hr]. destruct (snd y <=? snd x) eqn:Hle.
    + apply Z.leb_le in Hle. cbn [descending].
      split; [|split; assumption].
      constructor; [exact Hle|].
      eapply List.Forall_impl; [|exact Hy]. cbn beta. intros z Hz. lia.
    + apply Z.leb_gt in Hle. cbn [descending]. split; [|apply IH, Hr].
      apply List.Forall_forall. intros z Hz.
      apply insertDesc_In in Hz as [->|Hz]; [lia|].
      rewrite List.Forall_forall in Hy. apply Hy, Hz.
Qed.

(** X8.  The sort behind the ranking rearranges the scored results
    without adding or losing any, from the highest score to the lowest. *)
Theorem sortDesc_sorted l : Permutation (sortDesc l) l /\ descending (sortDesc l).
Proof.
  induction l as [|x l [IHp IHs]]; cbn [sortDesc fold_right].
  - split; [reflexivity | exact I].
  - split.
    + rewrite insertDesc_perm. apply perm_skip, IHp.
    + apply insertDesc_descending, IHs.
Qed.

End RankingOrder.

(** The head of the sorted list is the first of the highest-scoring
    elements of the input. *)
Lemma sortDesc_head_first {A} (score : A -> Z) (l : list A) :
  match sortDesc (List.map (fun x => (x, score x)) l) with
  | [] => l = []
  | (b, s) :: _ =>
      s = score b
      /\ exists pre post,
           l = (pre ++ b :: post)%list
           /\ (forall x, In x pre -> score x < score b)
           /\ (forall x, In x post -> score x <= score b)
  end.
Proof.
  induction l as [|x l IH]; [reflexivity|].
  cbn [List.map sortDesc fold_right].
  fold (sortDesc (List.map (fun x0 => (x0, score x0)) l)).
  destruct (sortDesc (List.map (fun x0 => (x0, score x0)) l))
    as [|[b s] rest].
  - subst l. cbn [insertDesc]. split; [reflexivity|].
    exists [], []. split; [reflexivity|]. split; intros y [].
  - destruct IH as (-> & pre & post & Hl & Hpre & Hpost).
    cbn [insertDesc snd].
    destruct (score b <=? score x) eqn:Hle.
    + apply Z.leb_le in Hle. split; [reflexivity|].
      exists [], l. split; [reflexivity|]. split; [intros y []|].
      intros y Hy. rewrite Hl in Hy. apply in_app_or in Hy as [Hy|[<-|Hy]].
      * specialize (Hpre y Hy). lia.
      * exact Hle.
      * specialize (Hpost y Hy). lia.
    + apply Z.leb_gt in Hle. split; [reflexivity|].
      exists (x :: pre), post. split; [rewrite Hl; reflexivity|].
      split; [|exact Hpost].
      intros y [<-|Hy]; [exact Hle | apply Hpre, Hy].
Qed.

(** X9.  The ranking picks nothing only from an empty list; otherwise it
    picks the first of the results with the highest score: everything
    before it scores strictly less, everything after it at most as
    much. *)
Theorem bestBy_first_max {A} (score : A -> Z) (l : list A) :
  (bestBy score l = None <-> l = [])
  /\ (forall b, bestBy score l = Some b ->
        exists pre post,
          l = (pre ++ b :: post)%list
          /\ (forall x, In x pre -> score x < score b)
          /\ (forall x, In x post -> score x <= score b)).
Proof.
  unfold bestBy. pose proof (sortDesc_head_first score l) as H.
  destruct (sortDesc (List.map (fun x => (x, score x)) l)) as [|[b s] rest].
  - split; [tauto|]. intros b Hb. discriminate Hb.
  - destruct H as (_ & pre & post & Hl & Hpre & Hpost).
    split.
    + split; [discriminate|]. intros ->. destruct pre; discriminate Hl.
    + intros b' [= <-]. exists pre, post. auto.
Qed.

Lemma bestBy_first_max_witness :
  exists pre post,
    [(1, 5); (2, 9); (3, 9); (4, 2)]%Z = (pre ++ (2, 9)%Z :: post)%list
    /\ (forall x, In x pre -> snd x < 9)
    /\ (forall x, In x post -> snd x <= 9).
Proof.
  apply (proj2 (bestBy_first_max (A := Z * Z) snd
                  [(1, 5); (2, 9); (3, 9); (4, 2)]%Z) (2, 9)%Z).
  reflexivity.
Defined.

(* ===================================================================== *)
(** ** The image field: the two readers *)
(* ===================================================================== *)

Lemma truthy_jor (a b : JVal) : truthy (jor a b) = truthy a || truthy b.
Proof. unfold jor. destruct (truthy a) eqn:Ha; [exact Ha | reflexivity]. Qed.



(* ===================================================================== *)
(** ** Adapters: requests and failures *)
(* ===================================================================== *)

(** X11.  [fetchOpenAgendaEvent] issues exactly one request.  It throws
    exactly when the request is rejected, or when the response is ok and
    its body either does not parse or parses to [null] (reading
    [data.event] then fails); on a response that is not ok it returns
    [null] without reading the body; on an ok response with a body it
    returns the [event] of the body, or the body when it has none. *)
Theorem fetchOpenAgendaEvent_outcome (w : World)
    (agendaUID eventUID apiKey : string) (log : list Call) :
  let out := fetchOpenAgendaEvent w agendaUID eventUID apiKey log in
  fst out = (log ++ [ReqOpenAgenda agendaUID eventUID apiKey])%list
  /\ (snd out = Thrown <->
      http_openagenda w agendaUID eventUID apiKey = Rejects
      \/ exists res,
           http_openagenda w agendaUID eventUID apiKey = Returns res
           /\ res_ok res = true
           /\ (res_json res = Rejects \/ res_json res = Returns None))
  /\ (forall res,
        http_openagenda w agendaUID eventUID apiKey = Returns res ->
        res_ok res = false -> snd out = Ok None)
  /\ (forall res data,
        http_openagenda w agendaUID eventUID apiKey = Returns res ->
        res_ok res = true -> res_json res = Returns (Some data) ->
        snd out = Ok (Some (match data_event data with
                            | Some e => e
                            | None => data_self data
                            end))).
Proof.
  cbv zeta. unfold fetchOpenAgendaEvent, bind, await, ret.
  destruct (http_openagenda w agendaUID eventUID apiKey) as [res|].
  - destruct (res_ok res) eqn:Hok; cbn [negb].
    + destruct (res_json res) as [[data|]|] eqn:Hj; cbn [fst snd];
        (split; [reflexivity|]); (split; [|split]).
      * split; [discriminate|].
        intros [H|(res' & [= <-] & _ & [Hj'|Hj'])]; congruence.
      * intros res' [= <-] Hok'. congruence.
      * intros res' data' [= <-] _ Hj'. rewrite Hj in Hj'.
        injection Hj' as <-. reflexivity.
      * split; [|reflexivity]. intros _. right. exists res. auto.
      * intros res' [= <-] Hok'. congruence.
      * intros res' data' [= <-] _ Hj'. congruence.
      * split; [|reflexivity]. intros _. right. exists res. auto.
      * intros res' [= <-] Hok'. congruence.
      * intros res' data' [= <-] _ Hj'. congruence.
    + cbn [fst snd]. split; [reflexivity|]. split; [|split].
      * split; [discriminate|].
        intros [H|(res' & [= <-] & Hok' & _)]; congruence.
      * reflexivity.
      * intros res' data' [= <-] Hok'. congruence.
  - cbn [fst snd]. split; [reflexivity|]. split; [|split].
    + split; [auto | reflexivity].
    + intros res H. discriminate H.
    + intros res data H. discriminate H.
Qed.

(** A response that is not ok gives [null]; an ok response whose body is
    [null] makes the function throw. *)
Lemma fetchOpenAgendaEvent_outcome_witness :
  snd (fetchOpenAgendaEvent openverseWorld "4219" "E1" "secret" []) = Ok None
  /\ snd (fetchOpenAgendaEvent nullBodyWorld "4219" "E1" "secret" []) = Thrown.
Proof.
  split.
  - destruct (fetchOpenAgendaEvent_outcome openverseWorld "4219" "E1"
                "secret" []) as (_ & _ & H & _).
    apply (H {| res_ok := false; res_json := Rejects |}); reflexivity.
  - destruct (fetchOpenAgendaEvent_outcome nullBodyWorld "4219" "E1"
                "secret" []) as (_ & H & _).
    apply H. right.
    exists {| res_ok := true; res_json := Returns None |}. auto.
Defined.

(** X12.  [openverseSearch] issues exactly one request.  It throws when
    the request is rejected, when the response is not ok, and when the
    body does not parse; otherwise it returns the [results] array of the
    body, or the empty list when the body has none. *)
Theorem openverseSearch_outcome (w : World) (query : string)
    (log : list Call) :
  let out := openverseSearch w query log in
  fst out = (log ++ [ReqOpenverse query])%list
  /\ (snd out = Thrown <->
      http_openverse w query = Rejects
      \/ exists res,
           http_openverse w query = Returns res
           /\ (res_ok res = false \/ res_json res = Rejects))
  /\ (forall res body,
        http_openverse w query = Returns res -> res_ok res = true ->
        res_json res = Returns body ->
        snd out = Ok (match body with Some results => results | None => [] end)).
Proof.
  cbv zeta. unfold openverseSearch, bind, await, ret, throw.
  destruct (http_openverse w query) as [res|].
  - destruct (res_ok res) eqn:Hok; cbn [negb].
    + destruct (res_json res) as [[results|]|] eqn:Hj; cbn [fst snd];
        (split; [reflexivity|]); split.
      * split; [discriminate|].
        intros [H|(res' & [= <-] & [H|H])]; congruence.
      * intros res' body [= <-] _ Hb. rewrite Hj in Hb.
        injection Hb as <-. reflexivity.
      * split; [discriminate|].
        intros [H|(res' & [= <-] & [H|H])]; congruence.
      * intros res' body [= <-] _ Hb. rewrite Hj in Hb.
        injection Hb as <-. reflexivity.
      * split; [|reflexivity]. intros _. right. exists res. auto.
      * intros res' body [= <-] _ Hb. congruence.
    + cbn [fst snd]. split; [reflexivity|]. split.
      * split; [|reflexivity]. intros _. right. exists res. auto.
      * intros res' body [= <-] Hok'. congruence.
  - cbn [fst snd]. split; [reflexivity|]. split.
    + split; [auto | reflexivity].
    + intros res body H. discriminate H.
Qed.

Lemma openverseSearch_outcome_witness :
  snd (openverseSearch commonsWorld "Concert Bordeaux" []) = Ok [].
Proof.
  apply (openverseSearch_outcome commonsWorld "Concert Bordeaux" [])
    with (res := {| res_ok := true; res_json := Returns (Some []) |})
         (body := Some []); reflexivity.
Defined.

(* ===================================================================== *)
(** ** What the selection returns *)
(* ===================================================================== *)

Lemma pickOAImage_url (evt : OAEvent) (u cr : string) :
  pickOAImage evt = Some (u, cr) -> nonEmpty u = true.
Proof.
  unfold pickOAImage. cbv zeta.
  destruct (nonEmpty _) eqn:Hne; [|discriminate].
  intros [= <- _]. exact Hne.
Qed.

Lemma truthy_JStr (s : string) : truthy (JStr s) = nonEmpty s.
Proof. reflexivity. Qed.

Lemma urlString_JStr (c : Candidate) (s : string) :
  url c = JStr s -> truthy (url c) = true -> urlString c.
Proof.
  intros Hu Ht. exists s. split; [exact Hu|].
  rewrite Hu, truthy_JStr in Ht. apply nonEmpty_true, Ht.
Qed.

Lemma urlString_truthy (c : Candidate) : urlString c -> truthy (url c) = true.
Proof.
  intros (s & Hu & Hs). rewrite Hu, truthy_JStr. apply nonEmpty_true, Hs.
Qed.

Section Selected.
Context {U : UnicodeOps}.
Implicit Types (cfg : Config) (w : World) (row : Row) (log l : list Call)
               (c : Candidate).

Lemma openAgendaStep_url cfg w row (agendaUID : string) log l c :
  openAgendaStep cfg w row agendaUID log = (l, Ok (Some c)) ->
  urlString c.
Proof.
  unfold openAgendaStep, bind.
  destruct (fetchOpenAgendaEvent w agendaUID _ _ log) as [l1 [[evt|]|]];
    unfold ret; try discriminate.
  destruct (pickOAImage evt) as [[u cr]|] eqn:Hp; [|discriminate].
  intros [= _ <-]. exists u. split; [reflexivity|].
  eapply nonEmpty_true, pickOAImage_url, Hp.
Qed.

Lemma libraryStep_url w row log l c :
  tryCatch (Gen2.libraryStep w row) (ret None) log = (l, Ok (Some c)) ->
  truthy (url c) = true /\ scrape_library w row = Returns (Some c).
Proof.
  unfold tryCatch, Gen2.libraryStep, bind, await, ret.
  destruct (scrape_library w row) as [[c'|]|]; try discriminate.
  destruct (truthy (url c')) eqn:Hu; [|discriminate].
  intros [= _ <-]. auto.
Qed.

Lemma selectOpenverse_url (preferred : list string) cfg
    (evTokens : list string) (results : list OVResult) c :
  selectOpenverse preferred cfg evTokens results = Some c ->
  urlString c.
Proof.
  unfold selectOpenverse.
  destruct (bestBy _ results) as [r|]; [|discriminate]. cbv zeta.
  destruct (truthy (url (toMappingFromOpenverse r)) && _) eqn:Hc;
    [|discriminate].
  intros [= <-]. apply andb_true_iff in Hc as [Hc _].
  eapply urlString_JStr; [reflexivity | exact Hc].
Qed.

Lemma openverseStep_url (preferred : list string) cfg w (q : string)
    (evTokens : list string) log l c :
  tryCatch (openverseStep preferred cfg w q evTokens) (ret None) log
  = (l, Ok (Some c)) ->
  urlString c.
Proof.
  unfold tryCatch, openverseStep, bind.
  destruct (openverseSearch w q log) as [l1 [results|]]; unfold ret;
    [|discriminate].
  intros [= _ H]. eapply selectOpenverse_url, H.
Qed.

Lemma selectCommons_url (enc : string -> string) cfg
    (evTokens : list string) (pages : list CommonsPage) c :
  Gen1.selectCommons enc cfg evTokens pages = Some c ->
  urlString c.
Proof.
  unfold Gen1.selectCommons.
  destruct (bestBy _ pages) as [p|]; [|discriminate]. cbv zeta.
  destruct (truthy (url (Gen1.toMappingFromCommons enc p))) eqn:Hc;
    [|discriminate].
  intros [= <-]. eapply urlString_JStr; [reflexivity | exact Hc].
Qed.

Lemma commonsStep_url (enc : string -> string) cfg w (q : string)
    (evTokens : list string) log l c :
  tryCatch (Gen1.commonsStep enc cfg w q evTokens) (ret None) log
  = (l, Ok (Some c)) ->
  urlString c.
Proof.
  unfold tryCatch, Gen1.commonsStep, bind.
  destruct (Gen1.commonsSearchFiles w q log) as [l1 [files|]]; unfold ret;
    [|discriminate]. cbv zeta.
  destruct (firstn 6 _) as [|t ts]; [discriminate|].
  destruct (Gen1.commonsFetchImageInfo w (t :: ts) l1) as [l2 [pages|]];
    [|discriminate].
  intros [= _ H]. eapply selectCommons_url, H.
Qed.

(** Where a candidate of the second generation comes from. *)
Lemma gen2_picked_origin cfg w row log l c :
  Gen2.pickBestImageForEvent cfg w row log = (l, Ok (Some c)) ->
  urlString c
  \/ (truthy (bestImageUrlFromRow row) = true
      /\ c = Gen2.upstreamCandidate (bestImageUrlFromRow row))
  \/ (truthy (url c) = true /\ scrape_library w row = Returns (Some c)).
Proof.
  unfold Gen2.pickBestImageForEvent. cbv zeta.
  destruct (truthy (bestImageUrlFromRow row)) eqn:Hup.
  { unfold ret. intros [= _ <-]. auto. }
  unfold bind at 1.
  destruct (openAgendaEnabled cfg _).
  + destruct (openAgendaStep cfg w row _ log) as [l1 [[c1|]|]] eqn:Hoa;
      [unfold ret; intros [= _ <-]; left; eapply openAgendaStep_url, Hoa
      | |discriminate].
    unfold bind at 1.
    destruct (isBibliotheque row).
    * destruct (tryCatch (Gen2.libraryStep w row) (ret None) l1)
        as [l2 [[c2|]|]] eqn:Hlib;
        [unfold ret; intros [= _ <-]; right; right;
         eapply libraryStep_url, Hlib
        | |discriminate].
      intros H. left. eapply openverseStep_url, H.
    * unfold ret at 1. intros H. left. eapply openverseStep_url, H.
  + unfold ret at 1. unfold bind at 1.
    destruct (isBibliotheque row).
    * destruct (tryCatch (Gen2.libraryStep w row) (ret None) log)
        as [l2 [[c2|]|]] eqn:Hlib;
        [unfold ret; intros [= _ <-]; right; right;
         eapply libraryStep_url, Hlib
        | |discriminate].
      intros H. left. eapply openverseStep_url, H.
    * unfold ret at 1. intros H. left. eapply openverseStep_url, H.
Qed.

Lemma gen1_picked_url (enc : string -> string) cfg w row log l c :
  Gen1.pickBestImageForEvent enc cfg w row log = (l, Ok (Some c)) ->
  urlString c.
Proof.
  unfold Gen1.pickBestImageForEvent. cbv zeta.
  unfold bind at 1.
  destruct (openAgendaEnabled cfg _).
  + destruct (openAgendaStep cfg w row _ log) as [l1 [[c1|]|]] eqn:Hoa;
      [unfold ret; intros [= _ <-]; eapply openAgendaStep_url, Hoa
      | |discriminate].
    unfold bind at 1.
    destruct (tryCatch (openverseStep _ cfg w _ _) (ret None) l1)
      as [l2 [[c2|]|]] eqn:Hov;
      [unfold ret; intros [= _ <-]; eapply openverseStep_url, Hov
      | |discriminate].
    apply commonsStep_url.
  + unfold ret at 1. unfold bind at 1.
    destruct (tryCatch (openverseStep _ cfg w _ _) (ret None) log)
      as [l2 [[c2|]|]] eqn:Hov;
      [unfold ret; intros [= _ <-]; eapply openverseStep_url, Hov
      | |discriminate].
    apply commonsStep_url.
Qed.


End Selected.


(** The upstream candidate of a row whose image field is the array
    [[{}]]: its url is the object, not a string. *)
Example upstream_url_is_not_a_string :
  run (@Gen2.pickBestImageForEvent asciiOps defaultConfig offlineWorld
         (withImage (JArr [JObj []])))
  = ([], Ok (Some (Gen2.upstreamCandidate (JObj [])))).
Proof. vm_compute. reflexivity. Qed.

(* ===================================================================== *)
(** ** First generation: the chain *)
(* ===================================================================== *)

Lemma firstn_six_titles (l : list string) :
  (List.length (firstn 6 (List.filter nonEmpty l)) <= 6)%nat
  /\ Forall (fun t => t <> "") (firstn 6 (List.filter nonEmpty l)).
Proof.
  split; [apply firstn_le_length|].
  apply List.Forall_forall. intros t Ht.
  assert (Hin : In t (List.filter nonEmpty l)).
  { rewrite <- (firstn_skipn 6 (List.filter nonEmpty l)).
    apply in_or_app. left. exact Ht. }
  apply List.filter_In in Hin as [_ Hin]. apply nonEmpty_true, Hin.
Qed.

Lemma commonsSearchFiles_log (w : World) (q : string) (log : list Call) :
  exists r,
    Gen1.commonsSearchFiles w q log = ((log ++ [ReqCommonsSearch q])%list, r).
Proof.
  unfold Gen1.commonsSearchFiles, bind, await, ret, throw.
  destruct (http_commons_search w q) as [res|]; [|eauto].
  destruct (res_ok res); cbn [negb]; [|eauto].
  destruct (res_json res) as [[hits|]|]; eauto.
Qed.

Lemma commonsFetchImageInfo_log (w : World) (titles : list string)
    (log : list Call) :
  exists r,
    Gen1.commonsFetchImageInfo w titles log
    = ((log ++ [ReqCommonsInfo titles])%list, r).
Proof.
  unfold Gen1.commonsFetchImageInfo, bind, await, ret, throw.
  destruct (http_commons_info w titles) as [res|]; [|eauto].
  destruct (res_ok res); cbn [negb]; [|eauto].
  destruct (res_json res) as [pages|]; eauto.
Qed.

Section Gen1Chain.
Context {U : UnicodeOps}.
Implicit Types (cfg : Config) (w : World) (row : Row) (log : list Call).

(** The Commons fallback never throws; it searches once and asks for the
    image information of one to six non-empty titles, or of none. *)
Lemma commonsStep_log (enc : string -> string) cfg w (q : string)
    (evTokens : list string) log :
  exists r extra,
    tryCatch (Gen1.commonsStep enc cfg w q evTokens) (ret None) log
    = ((log ++ ReqCommonsSearch q :: extra)%list, Ok r)
    /\ (extra = []
        \/ exists titles,
             extra = [ReqCommonsInfo titles]
             /\ (1 <= List.length titles <= 6)%nat
             /\ Forall (fun t => t <> "") titles).
Proof.
  unfold tryCatch, Gen1.commonsStep, bind.
  destruct (commonsSearchFiles_log w q log) as [r1 H1]. rewrite H1.
  destruct r1 as [files|]; [|exists None, []; unfold ret; auto].
  cbv zeta.
  pose proof (firstn_six_titles
                (List.map (fun x => strOr (hit_title x) "") files))
    as [Hlen Hne].
  destruct (firstn 6 _) as [|s l0].
  - exists None, []. unfold ret. auto.
  - destruct (commonsFetchImageInfo_log w (s :: l0)
                (log ++ [ReqCommonsSearch q])%list) as [r2 H2].
    rewrite H2. rewrite <- app_assoc. cbn [app].
    assert (Hinfo : exists titles,
               [ReqCommonsInfo (s :: l0)] = [ReqCommonsInfo titles]
               /\ (1 <= List.length titles <= 6)%nat
               /\ Forall (fun t => t <> "") titles).
    { exists (s :: l0). split; [reflexivity|]. split; [|exact Hne].
      cbn [List.length] in *. lia. }
    destruct r2 as [pages|]; unfold ret; eauto.
Qed.

(** X14.  The first generation asks OpenAgenda (when enabled), then
    Openverse, then Wikimedia Commons.  It can only throw out of the
    OpenAgenda step; it never asks the library directory; Commons is
    searched only after Openverse, with the same query; and the image
    information is requested for one to six non-empty titles. *)
Theorem first_generation_requests (enc : string -> string) cfg w row :
  let out := run (Gen1.pickBestImageForEvent enc cfg w row) in
  (snd out = Thrown -> openAgendaEnabled cfg (agendaUidOf row) = true)
  /\ (forall r, ~ In (ReqLibrary r) (fst out))
  /\ (forall q, In (ReqCommonsSearch q) (fst out) ->
                q = Gen1.buildSearchQuery row /\ In (ReqOpenverse q) (fst out))
  /\ (forall titles, In (ReqCommonsInfo titles) (fst out) ->
        (1 <= List.length titles <= 6)%nat
        /\ Forall (fun t => t <> "") titles).
Proof.
  cbv zeta. unfold run, Gen1.pickBestImageForEvent. cbv zeta.
  fold (agendaUidOf row). unfold bind.
  set (q := Gen1.buildSearchQuery row).
  assert (Hrest : forall l0,
             (forall r, ~ In (ReqLibrary r) l0) ->
             (forall q', ~ In (ReqCommonsSearch q') l0) ->
             (forall t, ~ In (ReqCommonsInfo t) l0) ->
             let out :=
               (let (log', r) :=
                  tryCatch (openverseStep Gen1.PREFERRED_OPENVERSE_PROVIDERS
                              cfg w q (tokens q)) (ret None) l0 in
                match r with
                | Ok a =>
                    match a with
                    | Some c => ret (Some c)
                    | None =>
                        tryCatch (Gen1.commonsStep enc cfg w q (tokens q))
                                 (ret None)
                    end log'
                | Thrown => (log', Thrown)
                end) in
             snd out <> Thrown
             /\ (forall r, ~ In (ReqLibrary r) (fst out))
             /\ (forall q', In (ReqCommonsSearch q') (fst out) ->
                   q' = q /\ In (ReqOpenverse q') (fst out))
             /\ (forall titles, In (ReqCommonsInfo titles) (fst out) ->
                   (1 <= List.length titles <= 6)%nat
                   /\ Forall (fun t => t <> "") titles)).
  { intros l0 Hl Hs Hi. cbv zeta.
    destruct (openverseStep_log Gen1.PREFERRED_OPENVERSE_PROVIDERS cfg w q
                (tokens q) l0) as [r1 H1].
    rewrite H1. destruct r1 as [c|].
    - unfold ret. cbn [fst snd]. split; [discriminate|].
      split; [|split].
      + intros r Hin. apply in_app_or in Hin as [Hin|[Hin|[]]];
          [eapply Hl, Hin | discriminate Hin].
      + intros q' Hin. apply in_app_or in Hin as [Hin|[Hin|[]]];
          [exfalso; eapply Hs, Hin | discriminate Hin].
      + intros t Hin. apply in_app_or in Hin as [Hin|[Hin|[]]];
          [exfalso; eapply Hi, Hin | discriminate Hin].
    - destruct (commonsStep_log enc cfg w q (tokens q)
                  (l0 ++ [ReqOpenverse q])%list) as (r2 & extra & H2 & Hex).
      rewrite H2. cbn [fst snd]. split; [discriminate|].
      split; [|split].
      + intros r Hin.
        apply in_app_or in Hin as [Hin|[Hin|Hin]]; [|discriminate Hin|].
        * apply in_app_or in Hin as [Hin|[Hin|[]]];
            [eapply Hl, Hin | discriminate Hin].
        * destruct Hex as [->|(t & -> & _)]; [destruct Hin|].
          destruct Hin as [Hin|[]]. discriminate Hin.
      + intros q' Hin.
        apply in_app_or in Hin as [Hin|[Hin|Hin]].
        * apply in_app_or in Hin as [Hin|[Hin|[]]];
            [exfalso; eapply Hs, Hin | discriminate Hin].
        * injection Hin as <-. split; [reflexivity|].
          apply in_or_app. left. apply in_or_app. right. left. reflexivity.
        * destruct Hex as [->|(t & -> & _)]; [destruct Hin|].
          destruct Hin as [Hin|[]]. discriminate Hin.
      + intros t Hin.
        apply in_app_or in Hin as [Hin|[Hin|Hin]]; [|discriminate Hin|].
        * apply in_app_or in Hin as [Hin|[Hin|[]]];
            [exfalso; eapply Hi, Hin | discriminate Hin].
        * destruct Hex as [->|(t' & -> & Hlen & Hne)]; [destruct Hin|].
          destruct Hin as [Hin|[]]. injection Hin as <-. auto. }
  destruct (openAgendaEnabled cfg (agendaUidOf row)) eqn:Hen.
  - destruct (openAgendaStep_log cfg w row []) as [r0 H0]. rewrite H0.
    cbn [app].
    destruct r0 as [[c|]|].
    + unfold ret. cbn [fst snd]. split; [reflexivity|].
      split; [|split]; intros x [Hin|[]]; discriminate Hin.
    + specialize (Hrest [ReqOpenAgenda (agendaUidOf row) (rowUid row)
                           (OPENAGENDA_KEY cfg)]).
      cbv zeta in Hrest.
      destruct Hrest as (Hthrow & Hrest).
      * intros r [H|[]]; discriminate H.
      * intros r [H|[]]; discriminate H.
      * intros r [H|[]]; discriminate H.
      * split; [reflexivity | exact Hrest].
    + cbn [fst snd]. split; [reflexivity|].
      split; [|split]; intros x [Hin|[]]; discriminate Hin.
  - unfold ret at 1. specialize (Hrest []). cbv zeta in Hrest.
    destruct Hrest as (Hthrow & Hrest); try (intros r []).
    split; [intros H; contradiction | exact Hrest].
Qed.

End Gen1Chain.

Lemma first_generation_requests_witness :
  (1 <= List.length ["File:Concert Bordeaux.jpg"] <= 6)%nat
  /\ Forall (fun t => t <> "") ["File:Concert Bordeaux.jpg"].
Proof.
  destruct (@first_generation_requests asciiOps (fun t => t) gen1Config
              commonsWorld (withImage JNull)) as (_ & _ & _ & H).
  apply H. vm_compute. right. right. left. reflexivity.
Defined.

(* ===================================================================== *)
(** ** The store across one task *)
(* ===================================================================== *)

Section StoreAcrossTask.
Implicit Types (store : gmap string Entry) (pr : option Entry)
               (uid slug k : string) (entry e : Entry).

(** *** One assignment *)

Lemma setKey_keys store pr k' entry k :
  is_Some (store !! k) -> is_Some (fst (setKey store pr k' entry) !! k).
Proof.
  intros Hk.
  destruct (setKey_cases store pr k' entry) as [->|(_ & _ & ->)];
    cbn [fst]; [|exact Hk].
  destruct (decide (k' = k)) as [->|Hne].
  - rewrite lookup_insert_eq. eauto.
  - rewrite lookup_insert_ne by exact Hne. exact Hk.
Qed.

Lemma setKey_lookup store pr k' entry k e' :
  fst (setKey store pr k' entry) !! k = Some e' ->
  store !! k = Some e' \/ (e' = entry /\ k = k').
Proof.
  destruct (setKey_cases store pr k' entry) as [->|(_ & _ & ->)];
    cbn [fst]; [|auto].
  destruct (decide (k' = k)) as [->|Hne].
  - rewrite lookup_insert_eq. intros [= <-]. auto.
  - rewrite lookup_insert_ne by exact Hne. auto.
Qed.

Lemma setKey_other store pr k' entry k :
  k <> k' -> fst (setKey store pr k' entry) !! k = store !! k.
Proof.
  intros Hne.
  destruct (setKey_cases store pr k' entry) as [->|(_ & _ & ->)];
    cbn [fst]; [|reflexivity].
  apply lookup_insert_ne. congruence.
Qed.

Lemma setKey_proto store pr k entry :
  snd (setKey store pr k entry) = pr
  \/ (k = "__proto__" /\ snd (setKey store pr k entry) = Some entry).
Proof.
  destruct (setKey_cases store pr k entry) as [->|(Hk & _ & ->)];
    cbn [snd]; auto.
Qed.

(** *** The write *)

Lemma writeEntry_keys store pr uid slug entry k :
  is_Some (store !! k) ->
  is_Some (fst (writeEntry store pr uid slug entry) !! k).
Proof.
  intros Hk. unfold writeEntry. cbv zeta.
  set (after1 := if nonEmpty uid then setKey store pr uid entry
                 else (store, pr)).
  assert (H1 : is_Some (fst after1 !! k)).
  { subst after1. destruct (nonEmpty uid); [|exact Hk].
    apply setKey_keys, Hk. }
  destruct (nonEmpty slug && _); [|exact H1].
  apply setKey_keys, H1.
Qed.

Lemma writeEntry_lookup store pr uid slug entry k e' :
  fst (writeEntry store pr uid slug entry) !! k = Some e' ->
  store !! k = Some e' \/ (e' = entry /\ (k = uid \/ k = slug)).
Proof.
  unfold writeEntry. cbv zeta.
  set (after1 := if nonEmpty uid then setKey store pr uid entry
                 else (store, pr)).
  assert (H1 : forall e0, fst after1 !! k = Some e0 ->
                          store !! k = Some e0 \/ (e0 = entry /\ k = uid)).
  { intros e0. subst after1. destruct (nonEmpty uid); [|auto].
    apply setKey_lookup. }
  destruct (nonEmpty slug && _).
  - intros H. apply setKey_lookup in H as [H|[-> ->]]; [|auto].
    apply H1 in H. tauto.
  - intros H. apply H1 in H. tauto.
Qed.

(** The write leaves alone what is stored under a key other than the
    uid, whatever the store holds. *)
Lemma writeEntry_other store pr uid slug entry k e :
  k <> uid -> store !! k = Some e ->
  fst (writeEntry store pr uid slug entry) !! k = Some e.
Proof.
  intros Hne Hk. unfold writeEntry. cbv zeta.
  set (after1 := if nonEmpty uid then setKey store pr uid entry
                 else (store, pr)).
  assert (H1 : fst after1 !! k = Some e).
  { subst after1. destruct (nonEmpty uid); [|exact Hk].
    rewrite setKey_other by exact Hne. exact Hk. }
  destruct (nonEmpty slug && _) eqn:Hs; [|exact H1].
  apply andb_true_iff in Hs as [_ Hs]. apply negb_true_iff in Hs.
  apply getKey_absent in Hs as [Hs _].
  rewrite setKey_other; [exact H1|].
  intros ->. rewrite H1 in Hs. discriminate Hs.
Qed.

(** Under a uid that is stored already the write puts the new entry. *)
Lemma writeEntry_uid store pr uid slug entry e :
  uid <> "" -> store !! uid = Some e ->
  fst (writeEntry store pr uid slug entry) !! uid = Some entry.
Proof.
  intros Hne Hk. unfold writeEntry. cbv zeta.
  apply nonEmpty_true in Hne. rewrite Hne.
  rewrite (setKey_own _ _ _ _ _ Hk). cbn [fst snd].
  destruct (nonEmpty slug && _) eqn:Hs; cbn [fst]; [|apply lookup_insert_eq].
  apply andb_true_iff in Hs as [_ Hs]. apply negb_true_iff in Hs.
  apply getKey_absent in Hs as [Hs _].
  rewrite setKey_other; [apply lookup_insert_eq|].
  intros ->. rewrite lookup_insert_eq in Hs. discriminate Hs.
Qed.

Lemma writeEntry_keeps store pr uid slug entry k e :
  alreadyCached store pr uid = false ->
  store !! k = Some e -> truthy (url (picked e)) = true ->
  fst (writeEntry store pr uid slug entry) !! k = Some e.
Proof.
  intros Hc Hk Hu.
  destruct (decide (k = uid)) as [->|Hne];
    [|apply writeEntry_other; assumption].
  unfold alreadyCached in Hc.
  rewrite (getKey_own _ _ _ _ Hk) in Hc. cbn [gotUrl] in Hc.
  rewrite Hu, andb_true_r in Hc.
  unfold writeEntry. cbv zeta. rewrite Hc. cbn [fst snd].
  destruct (nonEmpty slug && _) eqn:Hs; [|exact Hk].
  apply andb_true_iff in Hs as [Hs _].
  rewrite setKey_other; [exact Hk|].
  intros ->. congruence.
Qed.

Lemma writeEntry_proto store pr uid slug entry :
  snd (writeEntry store pr uid slug entry) = pr
  \/ (uid = "__proto__"
      /\ snd (writeEntry store pr uid slug entry) = Some entry).
Proof.
  destruct (writeEntry_shape store pr uid slug entry) as [[-> _]|(-> & _)];
    cbn [snd]; (destruct (nonEmpty uid); [apply setKey_proto | auto]).
Qed.

(** *** The task *)

(** The store after the write half, by cases on what was selected. *)
Lemma taskCommit_existing (bq : Row -> string) (w : World) (row : Row)
    (p : option Candidate) (st : RunState) :
  (existing (taskCommit bq w row p st) = existing st
   /\ proto (taskCommit bq w row p st) = proto st)
  \/ exists c,
       p = Some c /\ truthy (url c) = true
       /\ (existing (taskCommit bq w row p st),
           proto (taskCommit bq w row p st))
          = writeEntry (existing st) (proto st) (rowUid row) (rowSlug row)
              {| picked := c; entry_q := bq row; updated_at := clock w |}.
Proof.
  unfold taskCommit. cbv zeta. destruct p as [c|]; [|auto].
  destruct (truthy (url c)) eqn:Hu; [|auto].
  right. exists c. cbn [existing proto].
  destruct (writeEntry _ _ _ _ _). auto.
Qed.

(** The store after the task, by cases on how the task ends. *)
Lemma eventTask_existing (pick : Row -> M (option Candidate))
    (bq : Row -> string) (w : World) (row : Row) (st : RunState) :
  (existing (fst (eventTask pick bq w row st)) = existing st
   /\ proto (fst (eventTask pick bq w row st)) = proto st)
  \/ exists c,
       alreadyCached (existing st) (proto st) (rowUid row) = false
       /\ truthy (url c) = true
       /\ (existing (fst (eventTask pick bq w row st)),
           proto (fst (eventTask pick bq w row st)))
          = writeEntry (existing st) (proto st) (rowUid row) (rowSlug row)
              {| picked := c; entry_q := bq row; updated_at := clock w |}.
Proof.
  unfold eventTask, taskCheck. cbv zeta.
  destruct (negb (nonEmpty (rowUid row)) && negb (nonEmpty (rowSlug row)));
    [left; auto|].
  destruct (alreadyCached (existing st) (proto st) (rowUid row)) eqn:Hc;
    [left; auto|].
  destruct (run (pick row)) as [log [p|]]; cbn [fst]; [|left; auto].
  destruct (taskCommit_existing bq w row p st) as [H|(c & _ & Hu & H)];
    [left; exact H|].
  right. exists c. auto.
Qed.

(** X15.  The write of a task, on whatever state the run is in by then,
    keeps every entry stored under a key other than the uid of its row;
    under the uid of its row it stores the new entry whatever was there,
    url or not (the test is not repeated after the awaits).  A task whose
    test and write run with no other write in between keeps every entry
    that has a non-empty url, under whatever key it is stored. *)
Theorem eventTask_preserves_verified (pick : Row -> M (option Candidate))
    (bq : Row -> string) (w : World) (row : Row) (st : RunState) k e :
  existing st !! k = Some e ->
  (forall p, k <> rowUid row ->
             existing (taskCommit bq w row p st) !! k = Some e)
  /\ (forall c, k = rowUid row -> k <> "" -> truthy (url c) = true ->
                existing (taskCommit bq w row (Some c) st) !! k
                = Some {| picked := c; entry_q := bq row;
                          updated_at := clock w |})
  /\ (truthy (url (picked e)) = true ->
      existing (fst (eventTask pick bq w row st)) !! k = Some e).
Proof.
  intros Hk. split; [|split].
  - intros p Hne.
    destruct (taskCommit_existing bq w row p st) as [[-> _]|(c & _ & _ & H)];
      [exact Hk|].
    apply (f_equal fst) in H. cbn [fst] in H. rewrite H.
    apply writeEntry_other; assumption.
  - intros c -> Hne Hu. unfold taskCommit. cbv zeta. rewrite Hu.
    cbn [existing]. eapply writeEntry_uid; eassumption.
  - intros Hu.
    destruct (eventTask_existing pick bq w row st)
      as [[-> _]|(c & Hc & _ & H)]; [exact Hk|].
    apply (f_equal fst) in H. cbn [fst] in H. rewrite H.
    apply writeEntry_keeps; assumption.
Qed.


(** X17.  When the uid of the row is already stored with a non-empty
    url, the task issues no request, leaves the store alone and only
    counts the row as done. *)
Theorem eventTask_cached_skip (pick : Row -> M (option Candidate))
    (bq : Row -> string) (w : World) (row : Row) (st : RunState) :
  rowUid row <> "" -> hasUrl (existing st) (rowUid row) ->
  eventTask pick bq w row st
  = ({| existing := existing st; proto := proto st;
        done := done st + 1; added := added st |},
     ([], Ok tt)).
Proof.
  intros Hid Hu. unfold eventTask, taskCheck. cbv zeta.
  apply nonEmpty_true in Hid as Hne. rewrite Hne. cbn [negb andb].
  rewrite alreadyCached_own by (try apply nonEmpty_true; assumption).
  reflexivity.
Qed.

(** X18.  When the selection throws, the task throws and leaves the run
    state as it found it.  When the task returns for a row that has a uid
    or a slug, it counts the row as done once; it counts at most one
    addition, and exactly one whenever it changed the store. *)
Theorem eventTask_counters (pick : Row -> M (option Candidate))
    (bq : Row -> string) (w : World) (row : Row) (st : RunState) :
  let out := eventTask pick bq w row st in
  (snd (run (pick row)) = Thrown -> taskCheck row st = None ->
   out = (st, (fst (run (pick row)), Thrown)))
  /\ (snd (snd out) = Ok tt -> rowUid row <> "" \/ rowSlug row <> "" ->
      done (fst out) = done st + 1)
  /\ added st <= added (fst out) <= added st + 1
  /\ (existing (fst out) <> existing st -> added (fst out) = added st + 1)
  /\ (proto (fst out) <> proto st -> added (fst out) = added st + 1).
Proof.
  cbv zeta. unfold eventTask.
  split; [|split; [|split; [|split]]].
  - intros Ht Hc. rewrite Hc. destruct (run (pick row)) as [log r].
    cbn [snd] in Ht. subst r. reflexivity.
  - unfold taskCheck. cbv zeta.
    destruct (nonEmpty (rowUid row)) eqn:Hu;
      destruct (nonEmpty (rowSlug row)) eqn:Hs; cbn [negb andb].
    4: { intros _ [H|H]; apply nonEmpty_true in H; congruence. }
    all: destruct (alreadyCached (existing st) (proto st) (rowUid row));
      [reflexivity|];
      destruct (run (pick row)) as [log [[c|]|]]; cbn [fst snd];
      try discriminate; unfold taskCommit; cbv zeta;
      try destruct (truthy (url c)); reflexivity.
  - destruct (taskCheck row st) as [st'|] eqn:Hc.
    + unfold taskCheck in Hc. cbv zeta in Hc.
      destruct (negb _ && negb _); [injection Hc as <-; cbn [fst]; lia|].
      destruct (alreadyCached _ _ _); [|discriminate].
      injection Hc as <-. cbn. lia.
    + destruct (run (pick row)) as [log [[c|]|]]; cbn [fst];
        unfold taskCommit; cbv zeta;
        try destruct (truthy (url c)); cbn; lia.
  - destruct (taskCheck row st) as [st'|] eqn:Hc.
    + unfold taskCheck in Hc. cbv zeta in Hc.
      destruct (negb _ && negb _);
        [injection Hc as <-; cbn [fst]; congruence|].
      destruct (alreadyCached _ _ _); [|discriminate].
      injection Hc as <-. cbn. congruence.
    + destruct (run (pick row)) as [log [[c|]|]]; cbn [fst];
        unfold taskCommit; cbv zeta;
        try destruct (truthy (url c)); cbn; congruence.
  - destruct (taskCheck row st) as [st'|] eqn:Hc.
    + unfold taskCheck in Hc. cbv zeta in Hc.
      destruct (negb _ && negb _);
        [injection Hc as <-; cbn [fst]; congruence|].
      destruct (alreadyCached _ _ _); [|discriminate].
      injection Hc as <-. cbn. congruence.
    + destruct (run (pick row)) as [log [[c|]|]]; cbn [fst];
        unfold taskCommit; cbv zeta;
        try destruct (truthy (url c)); cbn; congruence.
Qed.

End StoreAcrossTask.

(** A task run alone keeps the entry under the slug of its row; two
    tasks for the same uid that overlap: the write of the second finds
    the entry of the first under the uid and replaces it. *)
Lemma eventTask_preserves_verified_witness :
  existing
    (fst (eventTask
            (@Gen2.pickBestImageForEvent asciiOps defaultConfig openverseWorld)
            Gen2.buildSearchQuery openverseWorld libraryRow
            (runFrom {["atelier-lecture" := sampleEntry "http://old"]} 0 0)))
    !! "atelier-lecture"
  = Some (sampleEntry "http://old")
  /\ existing
       (taskCommit Gen2.buildSearchQuery openverseWorld libraryRow
          (Some (sampleCandidate "http://b"))
          (runFrom {["E1" := sampleEntry "http://a"]} 1 1))
       !! "E1"
     = Some {| picked := sampleCandidate "http://b";
               entry_q := Gen2.buildSearchQuery libraryRow;
               updated_at := clock openverseWorld |}.
Proof.
  split.
  - refine (proj2 (proj2 (eventTask_preserves_verified _ _ _ _ _ _ _ _)) _).
    + apply lookup_singleton_eq.
    + reflexivity.
  - refine (proj1 (proj2 (eventTask_preserves_verified
                            (@Gen2.pickBestImageForEvent asciiOps
                               defaultConfig openverseWorld)
                            _ _ _ _ "E1" (sampleEntry "http://a") _))
                  _ _ _ _).
    + apply lookup_singleton_eq.
    + reflexivity.
    + discriminate.
    + reflexivity.
Defined.


Lemma eventTask_cached_skip_witness :
  eventTask (@Gen2.pickBestImageForEvent asciiOps defaultConfig offlineWorld)
            Gen2.buildSearchQuery offlineWorld libraryRow
            (runFrom {["E1" := sampleEntry "http://old"]} 3 1)
  = ({| existing := {["E1" := sampleEntry "http://old"]}; proto := None;
        done := 3 + 1; added := 1 |}, ([], Ok tt)).
Proof.
  apply eventTask_cached_skip.
  - discriminate.
  - exists (sampleEntry "http://old"). split; [|reflexivity].
    apply lookup_singleton_eq.
Defined.

Lemma eventTask_counters_witness :
  eventTask (@Gen2.pickBestImageForEvent asciiOps defaultConfig offlineWorld)
            Gen2.buildSearchQuery offlineWorld libraryRow emptyRun
  = (emptyRun,
     (fst (run (@Gen2.pickBestImageForEvent asciiOps defaultConfig
                  offlineWorld libraryRow)), Thrown)).
Proof.
  apply (eventTask_counters
           (@Gen2.pickBestImageForEvent asciiOps defaultConfig offlineWorld)
           Gen2.buildSearchQuery offlineWorld libraryRow emptyRun).
  - vm_compute. reflexivity.
  - vm_compute. reflexivity.
Defined.

(* ===================================================================== *)
(** ** Queries are never empty *)
(* ===================================================================== *)

Lemma endsWith_nonempty (suffix s : string) :
  suffix <> "" -> endsWith suffix s -> s <> "".
Proof.
  intros Hne [pre ->] H. destruct pre; cbn in H; [auto | discriminate H].
Qed.

(** X19.  Neither generation ever builds an empty search query: the
    first one always ends with the city (Bordeaux by default), the second
    one with "France". *)
Theorem buildSearchQuery_nonempty (row : Row) :
  endsWith (cityOf row) (Gen1.buildSearchQuery row)
  /\ Gen1.buildSearchQuery row <> ""
  /\ Gen2.buildSearchQuery row <> "".
Proof.
  assert (H1 : endsWith (cityOf row) (Gen1.buildSearchQuery row)).
  { unfold Gen1.buildSearchQuery, joinNonEmpty. cbv zeta.
    fold (venueOf row) (cityOf row) (titleOf row).
    change [titleOf row; venueOf row; cityOf row]
      with ([titleOf row; venueOf row] ++ [cityOf row])%list.
    rewrite List.filter_app.
    change (List.filter nonEmpty [cityOf row])
      with (if nonEmpty (cityOf row) then [cityOf row] else []).
    rewrite cityOf_nonEmpty. apply concat_ends1. }
  split; [exact H1|]. split.
  - eapply endsWith_nonempty; [|exact H1].
    apply nonEmpty_true, cityOf_nonEmpty.
  - apply (endsWith_nonempty (cityOf row ++ " France")).
    + intros H. destruct (cityOf row); discriminate H.
    + unfold Gen2.buildSearchQuery, joinNonEmpty.
      fold (venueOf row) (cityOf row) (titleOf row).
      destruct (nonEmpty (venueOf row)).
      * change [venueOf row; strOr (row_location_address row) "";
                strOr (row_location_district row) ""; cityOf row; "France"]
          with ([venueOf row; strOr (row_location_address row) "";
                 strOr (row_location_district row) ""]
                ++ [cityOf row; "France"])%list.
        rewrite filter_app_tail. apply concat_ends.
      * change [titleOf row; cityOf row; "France"]
          with ([titleOf row] ++ [cityOf row; "France"])%list.
        rewrite filter_app_tail. apply concat_ends.
Qed.

(* ===================================================================== *)
(** ** Paging through the agenda *)
(* ===================================================================== *)

Section Paging.
Variable page : Z -> Reply (list Row).
Variable maxEvents : Z.

(** What the inner loop adds to [out]: the rows without an image, up to
    the quota. *)
Lemma scanRows_spec (out rows : list Row) :
  Z.of_nat (List.length out) < maxEvents ->
  scanRows maxEvents out rows
  = (out ++ firstn (Z.to_nat maxEvents - List.length out)
               (List.filter isMissingImage rows))%list.
Proof.
  revert out. induction rows as [|row rest IH]; intros out Hlt.
  - cbn. rewrite firstn_nil, app_nil_r. reflexivity.
  - cbn [scanRows List.filter]. cbv zeta.
    destruct (isMissingImage row).
    + rewrite length_app. cbn [List.length].
      destruct (Z.leb_spec maxEvents (Z.of_nat (List.length out + 1))).
      * replace (Z.to_nat maxEvents - List.length out)%nat with 1%nat by lia.
        cbn [firstn]. reflexivity.
      * rewrite IH by (rewrite length_app; cbn [List.length]; lia).
        rewrite length_app. cbn [List.length].
        replace (Z.to_nat maxEvents - List.length out)%nat
          with (S (Z.to_nat maxEvents - (List.length out + 1)))%nat by lia.
        cbn [firstn]. rewrite <- app_assoc. reflexivity.
    + destruct (Z.leb_spec maxEvents (Z.of_nat (List.length out))); [lia|].
      apply IH. exact Hlt.
Qed.

Lemma firstn_quota {A} (k : nat) (F G : list A) :
  (firstn k F ++ firstn (k - List.length (firstn k F)) G)%list
  = firstn k (F ++ G).
Proof.
  rewrite firstn_app, length_firstn.
  destruct (Nat.le_ge_cases k (List.length F)) as [Hle|Hge].
  - rewrite Nat.min_l by exact Hle.
    replace (k - k)%nat with 0%nat by lia.
    replace (k - List.length F)%nat with 0%nat by lia. reflexivity.
  - rewrite Nat.min_r by exact Hge. reflexivity.
Qed.

(** The loop extends the log by the offsets it requests and [out] by the
    rows without an image of the pages at these offsets, up to the
    quota. *)
Lemma pagesLoop_spec (fuel : nat) (offset : Z) (out : list Row)
    (log log' : list Z) (r : result (list Row)) :
  Z.of_nat (List.length out) <= Z.max 0 maxEvents ->
  0 <= offset <= 20000 ->
  pagesLoop fuel page maxEvents offset out log = Some (log', r) ->
  exists news,
    log' = (log ++ news)%list
    /\ Z.of_nat (List.length news) <= 20001 - offset
    /\ Forall (fun o => offset <= o <= 20000) news
    /\ (forall out', r = Ok out' ->
          out' = (out ++ firstn (Z.to_nat maxEvents - List.length out)
                           (List.filter isMissingImage
                              (flat_map (rowsAt page) news)))%list).
Proof.
  revert offset out log. induction fuel as [|fuel IH];
    intros offset out log Hout Hoff; cbn [pagesLoop]; [discriminate|].
  destruct (Z.ltb_spec (Z.of_nat (List.length out)) maxEvents) as [Hlt|Hge].
  - assert (Hone : Forall (fun o => offset <= o <= 20000) [offset])
      by (constructor; [lia | constructor]).
    destruct (page offset) as [rows|] eqn:Hp.
    + destruct rows as [|row rest].
      * intros [= <- <-]. exists [offset].
        split; [reflexivity|]. split; [cbn; lia|]. split; [exact Hone|].
        intros out' [= <-]. cbn [flat_map]. unfold rowsAt. rewrite Hp.
        cbn. rewrite firstn_nil, app_nil_r. reflexivity.
      * cbv zeta. set (rows := row :: rest) in *.
        assert (Hscan := scanRows_spec out rows Hlt).
        destruct (Z.ltb_spec 20000 (offset + Z.of_nat (List.length rows)))
          as [Hbig|Hsmall].
        -- intros [= <- <-]. exists [offset].
           split; [reflexivity|]. split; [cbn; lia|]. split; [exact Hone|].
           intros out' [= <-]. cbn [flat_map]. unfold rowsAt at 1.
           rewrite Hp, app_nil_r. exact Hscan.
        -- intros Hrec.
           assert (Hlen : (1 <= List.length rows)%nat)
             by (subst rows; cbn [List.length]; lia).
           apply IH in Hrec as (news & -> & Hn & Hall & Hres).
           ++ exists (offset :: news). split; [rewrite <- app_assoc; reflexivity|].
              split; [cbn [List.length]; lia|]. split.
              ** constructor; [lia|].
                 eapply List.Forall_impl; [|exact Hall]. cbn beta. lia.
              ** intros out' Hr. rewrite (Hres out' Hr), Hscan.
                 cbn [flat_map]. unfold rowsAt at 2. rewrite Hp.
                 rewrite List.filter_app, <- app_assoc. f_equal.
                 rewrite length_app.
                 rewrite <- firstn_quota. f_equal. f_equal. lia.
           ++ rewrite Hscan, length_app, length_firstn. lia.
           ++ lia.
    + intros [= <- <-]. exists [offset].
      split; [reflexivity|]. split; [cbn; lia|]. split; [exact Hone|].
      intros out' H. discriminate H.
  - intros [= <- <-]. exists []. split; [rewrite app_nil_r; reflexivity|].
    split; [cbn; lia|]. split; [constructor|].
    intros out' [= <-].
    replace (Z.to_nat maxEvents - List.length out)%nat with 0%nat by lia.
    cbn. rewrite app_nil_r. reflexivity.
Qed.

(** With fuel beyond the offsets left, the loop ends. *)
Lemma pagesLoop_terminates (fuel : nat) (offset : Z) (out : list Row)
    (log : list Z) :
  0 <= offset <= 20001 -> 20002 <= Z.of_nat fuel + offset ->
  pagesLoop fuel page maxEvents offset out log <> None.
Proof.
  revert offset out log. induction fuel as [|fuel IH];
    intros offset out log Hoff Hfuel; cbn [pagesLoop]; [lia|].
  destruct (Z.of_nat (List.length out) <? maxEvents); [|discriminate].
  destruct (page offset) as [[|row rest]|]; try discriminate.
  cbv zeta.
  destruct (Z.ltb_spec 20000
              (offset + Z.of_nat (List.length (row :: rest))));
    [discriminate|].
  apply IH; cbn [List.length] in *; lia.
Qed.

(** X20.  [fetchEventsMissingImages] always ends, after at most 20001
    page requests, at offsets between 0 and 20000; with a quota of 0 or
    less it requests nothing and returns no row. *)
Theorem fetchEventsMissingImages_terminates :
  exists log r,
    fetchEventsMissingImages page maxEvents = Some (log, r)
    /\ Z.of_nat (List.length log) <= 20001
    /\ Forall (fun o => 0 <= o <= 20000) log
    /\ (maxEvents <= 0 -> log = [] /\ r = Ok []).
Proof.
  unfold fetchEventsMissingImages.
  destruct (pagesLoop (Z.to_nat 20002) page maxEvents 0 [] [])
    as [[log r]|] eqn:Hrun.
  - exists log, r. split; [reflexivity|].
    pose proof Hrun as Hrun'.
    apply pagesLoop_spec in Hrun as (news & -> & Hn & Hall & _);
      [|cbn; lia|lia].
    cbn [app]. split; [lia|]. split; [exact Hall|].
    intros Hmax.
    replace (Z.to_nat 20002) with (S (Z.to_nat 20001)) in Hrun' by lia.
    cbn [pagesLoop List.length] in Hrun'.
    destruct (Z.ltb_spec (Z.of_nat 0) maxEvents); [lia|].
    injection Hrun' as <- <-. auto.
  - exfalso. revert Hrun. apply pagesLoop_terminates; lia.
Qed.

(** X21.  The rows [fetchEventsMissingImages] returns are the first
    [maxEvents] rows without an image of the pages it requested, in the
    order of the feed: at most [maxEvents] of them, each one missing its
    image. *)
Theorem fetchEventsMissingImages_result (log : list Z) (out : list Row) :
  fetchEventsMissingImages page maxEvents = Some (log, Ok out) ->
  out = firstn (Z.to_nat maxEvents)
               (List.filter isMissingImage (flat_map (rowsAt page) log))
  /\ Z.of_nat (List.length out) <= Z.max 0 maxEvents
  /\ Forall (fun row => isMissingImage row = true) out.
Proof.
  unfold fetchEventsMissingImages. intros Hrun.
  apply pagesLoop_spec in Hrun as (news & -> & _ & _ & Hres);
    [|cbn; lia|lia].
  specialize (Hres out eq_refl). cbn [app List.length] in Hres.
  rewrite Nat.sub_0_r in Hres. cbn [app].
  split; [exact Hres|]. split.
  - rewrite Hres, length_firstn. lia.
  - rewrite Hres. apply List.Forall_forall. intros row Hin.
    assert (Hin' : In row (List.filter isMissingImage
                             (flat_map (rowsAt page) news))).
    { rewrite <- (firstn_skipn (Z.to_nat maxEvents)
                    (List.filter isMissingImage
                       (flat_map (rowsAt page) news))).
      apply in_or_app. left. exact Hin. }
    apply List.filter_In in Hin'. tauto.
Qed.

End Paging.

Lemma fetchEventsMissingImages_result_witness :
  [libraryRow; unnamedRow]
  = firstn (Z.to_nat 2)
      (List.filter isMissingImage (flat_map (rowsAt twoPages) [0; 2]))
  /\ Z.of_nat (List.length [libraryRow; unnamedRow]) <= Z.max 0 2
  /\ Forall (fun row => isMissingImage row = true) [libraryRow; unnamedRow].
Proof.
  apply (fetchEventsMissingImages_result twoPages 2 [0; 2]
           [libraryRow; unnamedRow]).
  vm_compute. reflexivity.
Defined.

Lemma fetchEventsMissingImages_terminates_witness :
  fetchEventsMissingImages twoPages 0 = Some ([], Ok []).
Proof.
  destruct (fetchEventsMissingImages_terminates twoPages 0)
    as (log & r & Heq & _ & _ & H).
  destruct (H ltac:(lia)) as [-> ->]. exact Heq.
Defined.

(* ===================================================================== *)
(** ** The library index is fetched once *)
(* ===================================================================== *)

Section LibraryIndex.
Variable extractLibraryLinks : string -> list (string * string).
Variable proxy : string.
Variable fetchText : string -> Reply string.

Local Notation "'load'" :=
  (loadLibrariesIndex extractLibraryLinks proxy fetchText).


End LibraryIndex.


(* ===================================================================== *)
(** ** Concurrency limiter: other bounds *)
(* ===================================================================== *)

Module LimiterBounds.
Import Limiter.

Lemma next_closed (max : Z) (s : State) :
  max <= 0 -> active s = 0 -> next max s = s.
Proof.
  intros Hmax Ha. unfold next. destruct (queue s); [reflexivity|].
  rewrite Ha. destruct (Z.leb_spec max 0); [reflexivity | lia].
Qed.

Lemma Stalled_step_closed (max : Z) (s s' : State) (e : Event) :
  max <= 0 -> Stalled s -> step max s e = Some s' ->
  Stalled s' /\ submitted s' = S (submitted s).
Proof.
  intros Hmax H. destruct e as [|t ok]; cbn [step].
  - intros [= <-]. unfold submit.
    rewrite next_closed;
      [|exact Hmax | cbn [active]; apply (stalled_active _ H)].
    cbn [submitted]. split; [|reflexivity].
    constructor; cbn [active started running settled queue submitted].
    + apply (stalled_active _ H).
    + apply (stalled_started _ H).
    + apply (stalled_running _ H).
    + apply (stalled_settled _ H).
    + rewrite (stalled_queue _ H), seq_S. reflexivity.
  - unfold isRunning. rewrite (stalled_running _ H). cbn [existsb].
    discriminate.
Qed.

Lemma Stalled_exec_closed (max : Z) (es : list Event) (s s' : State) :
  max <= 0 -> Stalled s -> exec max s es = Some s' ->
  Stalled s' /\ submitted s' = (submitted s + List.length es)%nat.
Proof.
  intros Hmax. revert s. induction es as [|e es IH]; intros s H; cbn [exec].
  - intros [= <-]. split; [exact H|]. cbn. lia.
  - destruct (step max s e) as [s1|] eqn:Hs; [|discriminate].
    destruct (Stalled_step_closed max s s1 e Hmax H Hs) as (H1 & Hsub).
    intros Hex. destruct (IH s1 H1 Hex) as (H' & Hn).
    split; [exact H'|]. rewrite Hn, Hsub. cbn [List.length]. lia.
Qed.

(** X23.  A limiter created with a negative bound stalls like one
    created with 0: no task starts, no promise settles, and everything
    submitted stays in the queue. *)
Theorem limiter_negative_bound_stalls (max : Z) (s : State) :
  max < 0 -> reachable max s ->
  started s = [] /\ settled s = [] /\ running s = []
  /\ queue s = seq 0 (submitted s).
Proof.
  intros Hmax [es Hex].
  destruct (Stalled_exec_closed max es init s ltac:(lia)
              LimiterProofs.Stalled_init Hex) as (H & _).
  split; [apply (stalled_started _ H)|].
  split; [apply (stalled_settled _ H)|].
  split; [apply (stalled_running _ H) | apply (stalled_queue _ H)].
Qed.

(** X24.  As long as no more tasks have been submitted than the bound
    admits, no task waits: each one has started when it was submitted. *)
Theorem limiter_no_wait_under_capacity (max : Z) (s : State) :
  reachable max s -> Z.of_nat (submitted s) <= max ->
  queue s = [] /\ started s = seq 0 (submitted s).
Proof.
  intros Hreach Hcap.
  assert (Hnn : 0 <= max) by lia.
  pose proof (LimiterProofs.Inv_reachable max Hnn s Hreach) as H.
  pose proof (inv_fifo _ _ H) as Hf.
  assert (Hq : queue s = []).
  { destruct (queue s) as [|q0 qs] eqn:Hq; [reflexivity|]. exfalso.
    assert (Hfull : active s = max)
      by (apply (inv_full _ _ H); rewrite Hq; discriminate).
    pose proof (inv_active _ _ H) as Hact.
    pose proof (Permutation_length (inv_once _ _ H)) as Hlen.
    rewrite length_app in Hlen.
    apply (f_equal (@List.length nat)) in Hf.
    rewrite length_app, length_seq in Hf. cbn [List.length] in Hf. lia. }
  split; [exact Hq|]. rewrite Hq, app_nil_r in Hf. exact Hf.
Qed.

Lemma limiter_negative_bound_stalls_witness :
  exists s,
    exec (-1) init [Submit; Submit] = Some s
    /\ started s = [] /\ queue s = [0; 1]%nat.
Proof.
  eexists. split; [reflexivity|].
  destruct (limiter_negative_bound_stalls (-1) _ ltac:(lia)
              (ex_intro _ [Submit; Submit] eq_refl))
    as (Hs & _ & _ & Hq).
  split; [exact Hs | exact Hq].
Defined.

Lemma limiter_no_wait_under_capacity_witness :
  exists s,
    exec 3 init [Submit; Submit; Settle 0 false; Submit] = Some s
    /\ queue s = [] /\ started s = [0; 1; 2]%nat.
Proof.
  eexists. split; [reflexivity|].
  refine (limiter_no_wait_under_capacity 3 _ _ _).
  - exists [Submit; Submit; Settle 0 false; Submit]. reflexivity.
  - vm_compute. discriminate.
Defined.

End LimiterBounds.

(* ===================================================================== *)
(** ** The proxy prefix *)
(* ===================================================================== *)

Lemma substring_full (s : string) : String.substring 0 (String.length s) s = s.
Proof.
  induction s as [|c s IH]; [reflexivity|].
  cbn [String.length String.substring]. rewrite IH. reflexivity.
Qed.

Lemma prefix_append (s r : string) : String.prefix s (s ++ r) = true.
Proof.
  induction s as [|c s IH]; [destruct r; reflexivity|].
  change (String.prefix (String c s) (String c (s ++ r)) = true).
  simpl. destruct (ascii_dec c c) as [_|n]; [exact IH | congruence].
Qed.

Lemma stripScheme_https (rest : string) :
  stripScheme ("https://" ++ rest) = rest.
Proof.
  unfold stripScheme. rewrite prefix_append.
  simpl. rewrite Nat.sub_0_r. apply substring_full.
Qed.

Lemma stripScheme_http (rest : string) :
  stripScheme ("http://" ++ rest) = rest.
Proof.
  unfold stripScheme.
  assert (H : String.prefix "https://" ("http://" ++ rest) = false).
  { simpl. reflexivity. }
  rewrite H, prefix_append.
  simpl. rewrite Nat.sub_0_r. apply substring_full.
Qed.

(** X26.  Without a proxy prefix [withOptionalProxy] returns the url as
    it is.  With one, it puts the prefix in front of the url stripped of
    its leading ["https://"] or ["http://"], and in front of the whole
    url when it starts with neither. *)
Theorem withOptionalProxy_cases (proxy u rest : string) :
  withOptionalProxy "" u = u
  /\ (proxy <> "" ->
      withOptionalProxy proxy ("https://" ++ rest) = proxy ++ rest
      /\ withOptionalProxy proxy ("http://" ++ rest) = proxy ++ rest)
  /\ (proxy <> "" ->
      String.prefix "https://" u = false ->
      String.prefix "http://" u = false ->
      withOptionalProxy proxy u = proxy ++ u).
Proof.
  split; [reflexivity|]. split.
  - intros Hp. apply nonEmpty_true in Hp. unfold withOptionalProxy.
    rewrite Hp. cbn [negb].
    rewrite stripScheme_https, stripScheme_http. split; reflexivity.
  - intros Hp H1 H2. apply nonEmpty_true in Hp. unfold withOptionalProxy.
    rewrite Hp. cbn [negb]. unfold stripScheme. rewrite H1, H2. reflexivity.
Qed.

Lemma withOptionalProxy_cases_witness :
  withOptionalProxy "https://r.jina.ai/https://" BORDEAUX_LIBRARIES_INDEX
  = "https://r.jina.ai/https://bibliotheque.bordeaux.fr/pratique/les-bibliotheques".
Proof.
  apply (withOptionalProxy_cases "https://r.jina.ai/https://" ""
           "bibliotheque.bordeaux.fr/pratique/les-bibliotheques").
  discriminate.
Defined.

(* ===================================================================== *)
(** ** Failures that leave the selection *)
(* ===================================================================== *)

(** X25.  The selection of the second generation throws exactly when
    the row has no upstream image, the OpenAgenda step is enabled and that
    step throws: a failure of the library or of the Openverse adapter
    never leaves the selection. *)
Theorem selection_failure_source {U : UnicodeOps} (cfg : Config) (w : World)
    (row : Row) :
  snd (run (Gen2.pickBestImageForEvent cfg w row)) = Thrown <->
  truthy (bestImageUrlFromRow row) = false
  /\ openAgendaEnabled cfg (agendaUidOf row) = true
  /\ snd (run (openAgendaStep cfg w row (agendaUidOf row))) = Thrown.
Proof. exact (pick_throws_only_from_openagenda cfg w row). Qed.

Lemma selection_failure_source_witness :
  snd (run (@Gen2.pickBestImageForEvent asciiOps defaultConfig offlineWorld
              libraryRow)) = Thrown.
Proof.
  apply (@selection_failure_source asciiOps defaultConfig offlineWorld
           libraryRow).
  split; [|split]; vm_compute; reflexivity.
Defined.
